(** * The streaming chat session controller of ai-sme

    A shallow embedding of the frontend's chat store
    ([frontend/lib/store/chat.ts]), of the streaming API client
    ([chatApi.streamMessage], both revisions kept in the repository) and of
    the input controller ([handleSend] in
    [frontend/components/chat/ChatInput.tsx]), with the properties the
    specification states about them. *)

From Stdlib Require Import ZArith Lia Bool String Ascii.
From stdpp Require Import base decidable option list pretty.

Local Open Scope Z_scope.

(** ** JavaScript strings

    A JavaScript string is a sequence of UTF-16 code units. *)

Abbreviation jsstring := (list Z).

(** A string literal of the source (all of them are ASCII). *)
Fixpoint js (s : string) : jsstring :=
  match s with
  | EmptyString => []
  | String a r => Z.of_nat (nat_of_ascii a) :: js r
  end.

(** The same, with every apostrophe read as a double quote; used to write
    JSON payloads in examples. *)
Definition jsq (s : string) : jsstring :=
  map (fun c => if c =? 39 then 34 else c) (js s).

Module JsString.

(** [!s] is true for the empty string only; [truthy s] is [!!s]. *)
Definition truthy (s : jsstring) : bool :=
  match s with [] => false | _ :: _ => true end.

(** [a || b] on strings, the left operand possibly [undefined]. *)
Definition or_else (a : option jsstring) (b : jsstring) : jsstring :=
  match a with
  | Some s => if truthy s then s else b
  | None => b
  end.

(** ECMAScript WhiteSpace and LineTerminator code units, the ones
    [String.prototype.trim] removes. *)
Definition is_space (c : Z) : bool :=
  (c =? 9) || (c =? 10) || (c =? 11) || (c =? 12) || (c =? 13) || (c =? 32)
  || (c =? 160) || (c =? 5760) || ((8192 <=? c) && (c <=? 8202))
  || (c =? 8232) || (c =? 8233) || (c =? 8239) || (c =? 8287)
  || (c =? 12288) || (c =? 65279).

Fixpoint trimStart (s : jsstring) : jsstring :=
  match s with
  | [] => []
  | c :: r => if is_space c then trimStart r else s
  end.

Definition trimEnd (s : jsstring) : jsstring := rev (trimStart (rev s)).

Definition trim (s : jsstring) : jsstring := trimEnd (trimStart s).

(** [s.startsWith(p)] *)
Fixpoint startsWith (p s : jsstring) : bool :=
  match p, s with
  | [], _ => true
  | _ :: _, [] => false
  | a :: p', b :: s' => (a =? b) && startsWith p' s'
  end.

(** [s.slice(n)] for a non-negative [n]. *)
Definition slice (n : nat) (s : jsstring) : jsstring := drop n s.

(** [s.split('\n')]: the pieces between line feeds; never empty. *)
Fixpoint split_lf (s : jsstring) : list jsstring :=
  match s with
  | [] => [[]]
  | c :: r =>
      if c =? 10 then [] :: split_lf r
      else match split_lf r with
           | l :: ls => (c :: l) :: ls
           | [] => [[c]]
           end
  end.

(** Decimal rendering of a number, as template literals do. *)
Definition of_Z (n : Z) : jsstring := js (pretty n).

End JsString.

(** ** [TextDecoder.decode]

    [new TextDecoder()] is the platform's UTF-8 decoder, not fatal, the byte
    order mark not ignored.  [decoder.decode(value)] is called without the
    [stream] option, so each call decodes its buffer on its own: a sequence
    left incomplete at the end of the buffer becomes U+FFFD and nothing is
    carried to the next call. *)

Module Utf8.

Record state := mkState {
  code_point : Z;
  bytes_seen : Z;
  bytes_needed : Z;
  lower : Z;
  upper : Z
}.

Definition initial : state := mkState 0 0 0 0x80 0xBF.

Definition within (lo hi b : Z) : bool := (lo <=? b) && (b <=? hi).

(** The handler when no bytes are pending. *)
Definition lead (b : Z) : list Z * state :=
  if within 0x00 0x7F b then ([b], initial)
  else if within 0xC2 0xDF b then
    ([], mkState (Z.land b 0x1F) 0 1 0x80 0xBF)
  else if within 0xE0 0xEF b then
    ([], mkState (Z.land b 0xF) 0 2
           (if b =? 0xE0 then 0xA0 else 0x80)
           (if b =? 0xED then 0x9F else 0xBF))
  else if within 0xF0 0xF4 b then
    ([], mkState (Z.land b 0x7) 0 3
           (if b =? 0xF0 then 0x90 else 0x80)
           (if b =? 0xF4 then 0x8F else 0xBF))
  else ([0xFFFD], initial).

(** One byte: the code points emitted and the next state.  A byte out of
    the expected range ends the pending sequence with U+FFFD and is then
    handled again as a leading byte. *)
Definition handler (st : state) (b : Z) : list Z * state :=
  if bytes_needed st =? 0 then lead b
  else if negb (within (lower st) (upper st) b) then
    let '(out, st') := lead b in (0xFFFD :: out, st')
  else
    let cp := Z.lor (Z.shiftl (code_point st) 6) (Z.land b 0x3F) in
    let seen := bytes_seen st + 1 in
    if seen =? bytes_needed st then ([cp], initial)
    else ([], mkState cp seen (bytes_needed st) 0x80 0xBF).

Fixpoint run (st : state) (bytes : list Z) : list Z :=
  match bytes with
  | [] => if bytes_needed st =? 0 then [] else [0xFFFD]
  | b :: r => let '(out, st') := handler st b in out ++ run st' r
  end.

(** A leading U+FEFF is dropped. *)
Definition strip_bom (cps : list Z) : list Z :=
  match cps with
  | c :: r => if c =? 0xFEFF then r else cps
  | [] => []
  end.

(** A code point as UTF-16 code units. *)
Definition utf16 (cp : Z) : jsstring :=
  if cp <? 0x10000 then [cp]
  else [0xD800 + Z.shiftr (cp - 0x10000) 10;
        0xDC00 + Z.land (cp - 0x10000) 0x3FF].

Definition decode (bytes : list Z) : jsstring :=
  flat_map utf16 (strip_bom (run initial bytes)).

(** The bytes of an ASCII literal, its apostrophes read as double quotes. *)
Definition bytes (s : string) : list Z := jsq s.

End Utf8.

(** ** Data model ([frontend/lib/store/chat.ts], [frontend/lib/store/auth.ts]) *)

Inductive Role := user | assistant.

#[global] Instance Role_eq_dec : EqDecision Role.
Proof. solve_decision. Defined.

Record Source := mkSource {
  source_id : jsstring;
  title : jsstring;
  url : option jsstring;
  source_type : jsstring;
  chunk_index : option Z
}.

(** Dates are kept as their time value, the milliseconds since the epoch. *)
Record Message := mkMessage {
  id : jsstring;
  role : Role;
  content : jsstring;
  sources : option (list Source);
  timestamp : Z
}.

Record Conversation := mkConversation {
  conv_id : jsstring;
  messages : list Message;
  createdAt : Z;
  updatedAt : Z
}.

(** [Omit<Message, 'id' | 'timestamp'>], the argument of [addMessage]. *)
Record NewMessage := mkNewMessage {
  new_role : Role;
  new_content : jsstring;
  new_sources : option (list Source)
}.

(** [Partial<Message>], the argument of [updateMessage]: for each key,
    [None] when the object does not have it.  The key [sources] can be
    present with the value [undefined] ([Some None]), as in
    [{ content, sources: chunk.sources }]; the spread copies it all the
    same. *)
Record Updates := mkUpdates {
  upd_id : option jsstring;
  upd_role : option Role;
  upd_content : option jsstring;
  upd_sources : option (option (list Source));
  upd_timestamp : option Z
}.

(** [{ content }] and [{ content, sources }], the two shapes the controller
    passes. *)
Definition content_only (c : jsstring) : Updates :=
  mkUpdates None None (Some c) None None.

Definition content_and_sources (c : jsstring) (ss : option (list Source))
  : Updates :=
  mkUpdates None None (Some c) (Some ss) None.

(** [{ ...msg, ...updates }] *)
Definition spread (msg : Message) (updates : Updates) : Message :=
  mkMessage
    (default (id msg) (upd_id updates))
    (default (role msg) (upd_role updates))
    (default (content msg) (upd_content updates))
    (default (sources msg) (upd_sources updates))
    (default (timestamp msg) (upd_timestamp updates)).

(** The function [updateMessage] maps over the messages. *)
Definition touch (messageId : jsstring) (updates : Updates) (msg : Message)
  : Message :=
  if bool_decide (id msg = messageId) then spread msg updates else msg.

(** ** [Map<string, V>]

    A JavaScript [Map] iterates in insertion order; [set] on a key it
    already has keeps the key's position. *)

Module JsMap.

Section Ops.
Context {V : Type}.

Definition t := list (jsstring * V).

Definition empty : t := [].

Fixpoint get (k : jsstring) (m : t) : option V :=
  match m with
  | [] => None
  | (k', v) :: m' => if bool_decide (k' = k) then Some v else get k m'
  end.

Fixpoint set (k : jsstring) (v : V) (m : t) : t :=
  match m with
  | [] => [(k, v)]
  | (k', v') :: m' =>
      if bool_decide (k' = k) then (k', v) :: m'
      else (k', v') :: set k v m'
  end.

Fixpoint delete (k : jsstring) (m : t) : t :=
  match m with
  | [] => []
  | (k', v') :: m' =>
      if bool_decide (k' = k) then delete k m'
      else (k', v') :: delete k m'
  end.

Definition values (m : t) : list V := map snd m.

Definition keys (m : t) : list jsstring := map fst m.
End Ops.

Arguments t : clear implicits.

End JsMap.

(** ** The chat store *)

Record ChatState := mkChatState {
  currentConversationId : option jsstring;
  conversations : JsMap.t Conversation;
  isLoading : bool;
  error : option jsstring
}.

Module ChatStore.

Definition initial : ChatState := mkChatState None JsMap.empty false None.

(** [conv_<Date.now()>_<Math.random().toString(36).substr(2, 9)>]; the
    clock reading and the random suffix are the caller's. *)
Definition generateId (now : Z) (suffix : jsstring) : jsstring :=
  js "conv_" ++ JsString.of_Z now ++ js "_" ++ suffix.

Definition generateMessageId (now : Z) (suffix : jsstring) : jsstring :=
  js "msg_" ++ JsString.of_Z now ++ js "_" ++ suffix.

(** [newId] is the value of [generateId()], [created] and [updated] the
    two [new Date()] of the conversation literal. *)
Definition createConversation (newId : jsstring) (created updated : Z)
    (state : ChatState) : ChatState :=
  let conversation := mkConversation newId [] created updated in
  mkChatState (Some newId)
    (JsMap.set newId conversation (conversations state))
    (isLoading state) (error state).

Definition setCurrentConversation (cid : option jsstring)
    (state : ChatState) : ChatState :=
  mkChatState cid (conversations state) (isLoading state) (error state).

(** [newId] and [stamp] are the [generateMessageId()] and [new Date()] of
    the new message, [now] the [new Date()] read inside the updater. *)
Definition addMessage (newId : jsstring) (stamp now : Z)
    (conversationId : jsstring) (message : NewMessage)
    (state : ChatState) : ChatState :=
  let newMessage :=
    mkMessage newId (new_role message) (new_content message)
      (new_sources message) stamp in
  match JsMap.get conversationId (conversations state) with
  | None => state
  | Some conversation =>
      let updatedConversation :=
        mkConversation (conv_id conversation)
          (messages conversation ++ [newMessage])
          (createdAt conversation) now in
      mkChatState (currentConversationId state)
        (JsMap.set conversationId updatedConversation (conversations state))
        (isLoading state) (error state)
  end.

(** [now] is the [new Date()] read inside the updater. *)
Definition updateMessage (now : Z) (conversationId messageId : jsstring)
    (updates : Updates) (state : ChatState) : ChatState :=
  match JsMap.get conversationId (conversations state) with
  | None => state
  | Some conversation =>
      let updatedMessages :=
        map (touch messageId updates) (messages conversation) in
      let updatedConversation :=
        mkConversation (conv_id conversation) updatedMessages
          (createdAt conversation) now in
      mkChatState (currentConversationId state)
        (JsMap.set conversationId updatedConversation (conversations state))
        (isLoading state) (error state)
  end.

Definition setLoading (loading : bool) (state : ChatState) : ChatState :=
  mkChatState (currentConversationId state) (conversations state)
    loading (error state).

Definition setError (e : option jsstring) (state : ChatState) : ChatState :=
  mkChatState (currentConversationId state) (conversations state)
    (isLoading state) e.

Definition clearError (state : ChatState) : ChatState := setError None state.

Definition deleteConversation (cid : jsstring) (state : ChatState)
    : ChatState :=
  let newCurrentId :=
    if bool_decide (currentConversationId state = Some cid) then None
    else currentConversationId state in
  mkChatState newCurrentId (JsMap.delete cid (conversations state))
    (isLoading state) (error state).

Definition loadConversation (conversation : Conversation)
    (state : ChatState) : ChatState :=
  mkChatState (Some (conv_id conversation))
    (JsMap.set (conv_id conversation) conversation (conversations state))
    (isLoading state) (error state).

Definition loadConversations (convs : list Conversation)
    (state : ChatState) : ChatState :=
  mkChatState (currentConversationId state)
    (fold_left (fun m conv => JsMap.set (conv_id conv) conv m) convs
       (conversations state))
    (isLoading state) (error state).

(** The listing of [Sidebar.tsx]:
    [Array.from(conversations.values()).sort((a, b) => b.updatedAt - a.updatedAt)],
    a stable sort, latest first. *)
Fixpoint insert_sorted (c : Conversation) (l : list Conversation)
    : list Conversation :=
  match l with
  | [] => [c]
  | d :: l' =>
      if updatedAt d <=? updatedAt c then c :: l
      else d :: insert_sorted c l'
  end.

Definition listConversations (state : ChatState) : list Conversation :=
  foldr insert_sorted [] (JsMap.values (conversations state)).

End ChatStore.

(** ** The authentication store ([frontend/lib/store/auth.ts]) *)

Record User := mkUser {
  user_id : jsstring;
  email : jsstring;
  name : option jsstring;
  picture : option jsstring
}.

Record AuthState := mkAuthState {
  auth_user : option User;
  accessToken : option jsstring;
  isAuthenticated : bool
}.

Module AuthStore.

Definition initial : AuthState := mkAuthState None None false.

Definition setAuth (u : User) (token : jsstring) (_ : AuthState)
    : AuthState :=
  mkAuthState (Some u) (Some token) true.

Definition clearAuth (_ : AuthState) : AuthState :=
  mkAuthState None None false.

End AuthStore.

(** ** Stream events

    What [JSON.parse] returns for an event line, as far as the controller
    reads it.  The value is [null], of which no property can be read, or a
    value with the keys [type], [content], [answer], [sources] and [error],
    each possibly missing (a number, a string or an array has none of
    them). *)

Inductive StreamChunk :=
| JsonNull
| mkChunk (type content answer : option jsstring)
    (srcs : option (list Source)) (err : option jsstring).

(** [chunk.type] and the other keys.  On [null] the read throws; the loop
    reads [type] first, and [onChunk] throws there before it comes to any of
    these. *)
Definition chunk_type (chunk : StreamChunk) : option jsstring :=
  match chunk with
  | mkChunk type _ _ _ _ => type
  | JsonNull => None
  end.

Definition chunk_content (chunk : StreamChunk) : option jsstring :=
  match chunk with
  | mkChunk _ content _ _ _ => content
  | JsonNull => None
  end.

Definition chunk_answer (chunk : StreamChunk) : option jsstring :=
  match chunk with
  | mkChunk _ _ answer _ _ => answer
  | JsonNull => None
  end.

Definition chunk_sources (chunk : StreamChunk) : option (list Source) :=
  match chunk with
  | mkChunk _ _ _ srcs _ => srcs
  | JsonNull => None
  end.

Definition chunk_error (chunk : StreamChunk) : option jsstring :=
  match chunk with
  | mkChunk _ _ _ _ err => err
  | JsonNull => None
  end.

Definition token_event (text : jsstring) : StreamChunk :=
  mkChunk (Some (js "token")) (Some text) None None None.

Definition complete_event (answer : option jsstring)
    (ss : option (list Source)) : StreamChunk :=
  mkChunk (Some (js "complete")) None answer ss None.

Definition error_event (msg : option jsstring) : StreamChunk :=
  mkChunk (Some (js "error")) None None None msg.

(** ** The frame decoder: the reading loop of [chatApi.streamMessage]

    The loop is the same in both revisions of the client.  [JSON_parse] is
    the platform's parser; [None] stands for the [SyntaxError] the loop
    catches and logs. *)

Module Decoder.

Section Loop.
Variable JSON_parse : jsstring -> option StreamChunk.

(** The body of [for (const line of lines)]: what one line yields. *)
Definition lineEvents (line : jsstring) : list StreamChunk :=
  if JsString.startsWith (js "data: ") line then
    let data := JsString.slice 6 line in
    if JsString.truthy (JsString.trim data) then
      match JSON_parse data with
      | Some event => [event]
      | None => []
      end
    else []
  else [].

(** What a decoded chunk yields. *)
Definition textEvents (chunk : jsstring) : list StreamChunk :=
  flat_map lineEvents (JsString.split_lf chunk).

(** One turn of [while (true)]: [value] is the buffer of one
    [reader.read()]. *)
Definition chunkEvents (value : list Z) : list StreamChunk :=
  textEvents (Utf8.decode value).

(** The whole loop, [values] being the buffers read until [done]. *)
Definition readEvents (values : list (list Z)) : list StreamChunk :=
  flat_map chunkEvents values.
End Loop.

End Decoder.

(** ** The world of one exchange

    The two stores, the text of the input field, the requests sent so far,
    and how many times the clock and [Math.random] have been read. *)

Record Request := mkRequest {
  authorization : option jsstring;
  req_message : jsstring;
  req_source_type : option jsstring;
  req_conversation_id : option jsstring;
  req_stream : bool
}.

(** A response: its status and, when it has a body, the buffers its reader
    delivers, followed either by [done] or by a rejected [read()]. *)
Record Response := mkResponse {
  status : Z;
  body : option (list (list Z) * option jsstring)
}.

Definition ok (r : Response) : bool := (200 <=? status r) && (status r <=? 299).

Inductive FetchResult :=
| Resolved (response : Response)
| Rejected (message : jsstring).

(** What the code takes from its platform: the clock, the random suffixes
    of the ids, the JSON parser ([None] for a [SyntaxError], [Some JsonNull]
    for the text [null]), the remote service, and the message of the
    [TypeError] the engine throws when a property of [null] is read. *)
Record Platform := mkPlatform {
  clock : nat -> Z;
  random : nat -> jsstring;
  JSON_parse : jsstring -> option StreamChunk;
  server : Request -> FetchResult;
  null_TypeError : jsstring
}.

Record World := mkWorld {
  chat : ChatState;
  auth : AuthState;
  input : jsstring;
  requests : list Request;
  clock_reads : nat;
  random_reads : nat
}.

(** Computations that change the world and may throw an [Error]; the
    exception carries [error.message]. *)
Inductive Result (A : Type) :=
| Return (a : A)
| Throw (message : jsstring).

Arguments Return {A} a.
Arguments Throw {A} message.

Definition M (A : Type) : Type := World -> Result A * World.

Definition ret {A} (a : A) : M A := fun w => (Return a, w).

Definition bind {A B} (c : M A) (k : A -> M B) : M B :=
  fun w =>
    match c w with
    | (Return a, w') => k a w'
    | (Throw e, w') => (Throw e, w')
    end.

Definition throw {A} (message : jsstring) : M A := fun w => (Throw message, w).

Definition try_catch {A} (block : M A) (handler : jsstring -> M A) : M A :=
  fun w =>
    match block w with
    | (Return a, w') => (Return a, w')
    | (Throw e, w') => handler e w'
    end.

Definition try_finally {A} (block : M A) (finalizer : M unit) : M A :=
  fun w =>
    let '(r, w') := block w in
    match finalizer w' with
    | (Return _, w'') => (r, w'')
    | (Throw e, w'') => (Throw e, w'')
    end.

Notation "x <- c ;; k" := (bind c (fun x => k))
  (at level 90, c at next level, right associativity).
Notation "c ;;; k" := (bind c (fun _ => k))
  (at level 90, right associativity).

Definition getWorld : M World := fun w => (Return w, w).

Definition modifyChat (f : ChatState -> ChatState) : M unit :=
  fun w => (Return tt,
            mkWorld (f (chat w)) (auth w) (input w) (requests w)
              (clock_reads w) (random_reads w)).

Definition modifyAuth (f : AuthState -> AuthState) : M unit :=
  fun w => (Return tt,
            mkWorld (chat w) (f (auth w)) (input w) (requests w)
              (clock_reads w) (random_reads w)).

Definition setInput (text : jsstring) : M unit :=
  fun w => (Return tt,
            mkWorld (chat w) (auth w) text (requests w)
              (clock_reads w) (random_reads w)).

Section Exchange.
Variable P : Platform.

(** [new Date()] and [Date.now()] *)
Definition readClock : M Z :=
  fun w => (Return (clock P (clock_reads w)),
            mkWorld (chat w) (auth w) (input w) (requests w)
              (S (clock_reads w)) (random_reads w)).

(** [Math.random().toString(36).substr(2, 9)] *)
Definition readRandom : M jsstring :=
  fun w => (Return (random P (random_reads w)),
            mkWorld (chat w) (auth w) (input w) (requests w)
              (clock_reads w) (S (random_reads w))).

(** [fetch]: the request leaves, the service answers. *)
Definition fetch (req : Request) : M Response :=
  fun w =>
    let w' := mkWorld (chat w) (auth w) (input w) (requests w ++ [req])
                (clock_reads w) (random_reads w) in
    match server P req with
    | Resolved response => (Return response, w')
    | Rejected e => (Throw e, w')
    end.

(** *** The store's actions, reading the clock where the code does *)

Definition generateId : M jsstring :=
  now <- readClock ;; suffix <- readRandom ;;
  ret (ChatStore.generateId now suffix).

Definition generateMessageId : M jsstring :=
  now <- readClock ;; suffix <- readRandom ;;
  ret (ChatStore.generateMessageId now suffix).

Definition createConversation : M jsstring :=
  newId <- generateId ;;
  created <- readClock ;;
  updated <- readClock ;;
  modifyChat (ChatStore.createConversation newId created updated) ;;;
  ret newId.

(** The updater reads the clock only past its guard. *)
Definition addMessage (conversationId : jsstring) (message : NewMessage)
    : M unit :=
  newId <- generateMessageId ;;
  stamp <- readClock ;;
  w <- getWorld ;;
  match JsMap.get conversationId (conversations (chat w)) with
  | None => ret tt
  | Some _ =>
      now <- readClock ;;
      modifyChat (ChatStore.addMessage newId stamp now conversationId message)
  end.

Definition updateMessage (conversationId messageId : jsstring)
    (updates : Updates) : M unit :=
  w <- getWorld ;;
  match JsMap.get conversationId (conversations (chat w)) with
  | None => ret tt
  | Some _ =>
      now <- readClock ;;
      modifyChat (ChatStore.updateMessage now conversationId messageId updates)
  end.

Definition setLoading (loading : bool) : M unit :=
  modifyChat (ChatStore.setLoading loading).

Definition setError (e : option jsstring) : M unit :=
  modifyChat (ChatStore.setError e).

(** *** [chatApi.streamMessage]

    The generator, run up to its reading loop: it throws, or gives the
    events the loop will yield and the error that ends them when a
    [read()] is rejected. *)

Record Stream := mkStream {
  events : list StreamChunk;
  failure : option jsstring
}.

Definition readBody (response : Response) : M Stream :=
  match body response with
  | None => throw (js "No response body")
  | Some (values, rejected) =>
      ret (mkStream (Decoder.readEvents (JSON_parse P) values) rejected)
  end.

(** [await response.text()]: the body is read to its end, and the promise
    is rejected when a read of the body is.  A response without body has the
    empty text.  The text itself is only logged. *)
Definition text_rejected (response : Response) : option jsstring :=
  match body response with
  | Some (_, Some rejected) => Some rejected
  | _ => None
  end.

Definition readText (response : Response) : M unit :=
  match text_rejected response with
  | Some rejected => throw rejected
  | None => ret tt
  end.

(** The current revision, which sends the bearer token. *)
Definition streamMessage (message : jsstring) (sourceType : option jsstring)
    (conversationId : option jsstring) : M Stream :=
  w <- getWorld ;;
  match accessToken (auth w) with
  | Some token =>
      if JsString.truthy token then
        response <- fetch (mkRequest (Some token) message sourceType
                             conversationId true) ;;
        if negb (ok response) then
          readText response ;;;
          if (status response =? 403) || (status response =? 401) then
            modifyAuth AuthStore.clearAuth ;;;
            throw (js "Authentication failed. Please sign in again.")
          else
            throw (js "HTTP error! status: " ++ JsString.of_Z (status response))
        else readBody response
      else throw (js "Not authenticated. Please sign in.")
  | None => throw (js "Not authenticated. Please sign in.")
  end.

(** The first revision ([frontend/lib/api/client.ts]): no token, no look
    at the status. *)
Definition streamMessage_v1 (message : jsstring)
    (sourceType : option jsstring) (conversationId : option jsstring)
    : M Stream :=
  response <- fetch (mkRequest None message sourceType conversationId true) ;;
  readBody response.
End Exchange.

(** ** The input controller: [handleSend] of [ChatInput.tsx] *)

Definition apology : jsstring :=
  js "Sorry, I encountered an error. Please try again.".

(** What [fullContent += chunk.content] appends. *)
Definition appended (c : option jsstring) : jsstring :=
  default (js "undefined") c.

Section Controller.
Variable P : Platform.

(** The guard the three updates share: the conversation is read from the
    store again, and [k] runs on its last message when it has one. *)
Definition withLastMessage (conversationId : jsstring)
    (k : Message -> M unit) : M unit :=
  w <- getWorld ;;
  match JsMap.get conversationId (conversations (chat w)) with
  | Some conversation =>
      match last (messages conversation) with
      | Some lastMessage => k lastMessage
      | None => ret tt
      end
  | None => ret tt
  end.

(** The body of [for await (const chunk of stream)]; it returns the new
    value of [fullContent].  Its first step reads [chunk.type], which throws
    a [TypeError] when the stream has yielded [null]. *)
Definition onChunk (conversationId : jsstring) (fullContent : jsstring)
    (chunk : StreamChunk) : M jsstring :=
  match chunk with
  | JsonNull => throw (null_TypeError P)
  | mkChunk _ _ _ _ _ =>
      if bool_decide (chunk_type chunk = Some (js "token")) then
        let fullContent := fullContent ++ appended (chunk_content chunk) in
        withLastMessage conversationId (fun lastMessage =>
          if bool_decide (role lastMessage = assistant) then
            updateMessage P conversationId (id lastMessage)
              (content_only fullContent)
          else ret tt) ;;;
        ret fullContent
      else if bool_decide (chunk_type chunk = Some (js "complete")) then
        withLastMessage conversationId (fun lastMessage =>
          if bool_decide (role lastMessage = assistant) then
            updateMessage P conversationId (id lastMessage)
              (content_and_sources
                 (JsString.or_else (chunk_answer chunk) fullContent)
                 (chunk_sources chunk))
          else ret tt) ;;;
        ret fullContent
      else if bool_decide (chunk_type chunk = Some (js "error")) then
        throw (JsString.or_else (chunk_error chunk) (js "Unknown error"))
      else ret fullContent
  end.

Fixpoint forAwait (conversationId : jsstring) (stream : list StreamChunk)
    (fullContent : jsstring) : M unit :=
  match stream with
  | [] => ret tt
  | chunk :: rest =>
      fullContent <- onChunk conversationId fullContent chunk ;;
      forAwait conversationId rest fullContent
  end.

(** The [catch] block. *)
Definition onError (conversationId : jsstring) (message : jsstring)
    : M unit :=
  setError (Some message) ;;;
  withLastMessage conversationId (fun lastMessage =>
    if bool_decide (role lastMessage = assistant)
       && negb (JsString.truthy (content lastMessage)) then
      updateMessage P conversationId (id lastMessage) (content_only apology)
    else ret tt).

(** Lines 28 to 51, from reading the input to [setError(null)]; it returns
    [messageContent] and [conversationId].  [input] and
    [currentConversationId] are the values of the last render. *)
Definition dispatch : M (jsstring * jsstring) :=
  w <- getWorld ;;
  let messageContent := JsString.trim (input w) in
  setInput [] ;;;
  conversationId <-
    match currentConversationId (chat w) with
    | Some cid =>
        if JsString.truthy cid then ret cid else createConversation P
    | None => createConversation P
    end ;;
  addMessage P conversationId (mkNewMessage user messageContent None) ;;;
  assistantMessageId <- generateMessageId P ;;
  addMessage P conversationId (mkNewMessage assistant [] None) ;;;
  setLoading true ;;;
  setError None ;;;
  ret (messageContent, conversationId).

(** Lines 53 to 103, the [try] statement.  [api] is the
    [chatApi.streamMessage] the component is built with. *)
Definition exchange
    (api : jsstring -> option jsstring -> option jsstring -> M Stream)
    (sourceType : option jsstring) (messageContent conversationId : jsstring)
    : M unit :=
  try_finally
    (try_catch
       (stream <- api messageContent sourceType (Some conversationId) ;;
        forAwait conversationId (events stream) [] ;;;
        match failure stream with
        | Some e => throw e
        | None => ret tt
        end)
       (onError conversationId))
    (setLoading false).

Definition handleSendWith
    (api : jsstring -> option jsstring -> option jsstring -> M Stream)
    (sourceType : option jsstring) : M unit :=
  w <- getWorld ;;
  if negb (JsString.truthy (JsString.trim (input w))) || isLoading (chat w)
  then ret tt
  else
    sent <- dispatch ;;
    exchange api sourceType (fst sent) (snd sent).

Definition handleSend : option jsstring -> M unit :=
  handleSendWith (streamMessage P).

Definition handleSend_v1 : option jsstring -> M unit :=
  handleSendWith (streamMessage_v1 P).
End Controller.

(** *** A run of the whole exchange *)

(** The message V8 gives the [TypeError] of [chunk.type] on [null]. *)
Definition v8_null_TypeError : jsstring :=
  js "Cannot read properties of null (reading 'type')".

Module Demo.

Definition hi_payload : jsstring := jsq "{'type':'token','content':'Hi'}".

Definition done_payload : jsstring := jsq "{'type':'complete','answer':'Hi!'}".

(** A parser that knows the two payloads above and refuses anything else. *)
Definition parse (s : jsstring) : option StreamChunk :=
  if bool_decide (s = hi_payload) then Some (token_event (js "Hi"))
  else if bool_decide (s = done_payload) then
    Some (complete_event (Some (js "Hi!")) None)
  else None.

Definition reply (st : Z) (values : list (list Z)) (_ : Request)
    : FetchResult :=
  Resolved (mkResponse st (Some (values, None))).

Definition platform (st : Z) (values : list (list Z)) : Platform :=
  mkPlatform (fun k => 1000 + Z.of_nat k) (fun _ => js "abc") parse
    (reply st values) v8_null_TypeError.

Definition signed_in : AuthState :=
  mkAuthState (Some (mkUser (js "u1") (js "a@b.c") None None))
    (Some (js "tok")) true.

Definition start (a : AuthState) (text : string) : World :=
  mkWorld ChatStore.initial a (js text) [] 0 0.

Definition two_events : list (list Z) :=
  [Utf8.bytes "data: {'type':'token','content':'Hi'}" ++ [10];
   Utf8.bytes "data: {'type':'complete','answer':'Hi!'}" ++ [10]].

End Demo.

(** ** Vocabulary of the properties *)

(** A conversation with its [updatedAt] replaced. *)
Definition withUpdatedAt (now : Z) (conv : Conversation) : Conversation :=
  mkConversation (conv_id conv) (messages conv) (createdAt conv) now.

(** Every conversation is stored under its own id, as every action of the
    store that adds one does. *)
Definition well_keyed (s : ChatState) : Prop :=
  Forall (fun entry => conv_id (snd entry) = fst entry) (conversations s).

(** The fields of a message no update of content and sources may touch. *)
Definition identity (msg : Message) : jsstring * Role * Z :=
  (id msg, role msg, timestamp msg).

(** [updates] has at most the keys [content] and [sources]. *)
Definition content_sources_only (updates : Updates) : Prop :=
  upd_id updates = None /\ upd_role updates = None
  /\ upd_timestamp updates = None.

(** A list of conversations ordered as the listing is, the latest
    [updatedAt] first. *)
Inductive latest_first : list Conversation -> Prop :=
| latest_first_nil : latest_first []
| latest_first_cons c l :
    Forall (fun d => updatedAt d <= updatedAt c) l ->
    latest_first l -> latest_first (c :: l).

(** No message of [s'] has sources it did not already have in [s]: a
    message with sources, at any position of any conversation of [s'], is at
    that position of that conversation in [s], with the same id and the same
    sources. *)
Definition no_new_sources (s s' : ChatState) : Prop :=
  forall k conv' i m',
    JsMap.get k (conversations s') = Some conv' ->
    messages conv' !! i = Some m' ->
    sources m' <> None ->
    exists conv m,
      JsMap.get k (conversations s) = Some conv
      /\ messages conv !! i = Some m
      /\ id m = id m' /\ sources m = sources m'.

(** A computation whose effect on the chat store stays within [R]. *)
Definition keeps (R : ChatState -> ChatState -> Prop) {A} (c : M A) : Prop :=
  forall w, R (chat w) (chat (snd (c w))).

(** The store as [dispatch] leaves it, [s0] being the store once the
    conversation is resolved. *)
Definition dispatched (cid messageContent : jsstring)
    (id1 : jsstring) (stamp1 now1 : Z) (id2 : jsstring) (stamp2 now2 : Z)
    (s0 : ChatState) : ChatState :=
  ChatStore.setError None
    (ChatStore.setLoading true
       (ChatStore.addMessage id2 stamp2 now2 cid (mkNewMessage assistant [] None)
          (ChatStore.addMessage id1 stamp1 now1 cid
             (mkNewMessage user messageContent None) s0))).

(** The states of the UTF-8 decoder the handler leaves: a continuation byte
    is never expected below 0x80. *)
Definition sound (st : Utf8.state) : Prop := 128 <= Utf8.lower st.

(** A buffer that holds whole lines: it starts with an ASCII byte, as a
    buffer starting with the [d] of [data: ] does, and ends with a line
    feed. *)
Definition line_aligned (value : list Z) : bool :=
  match value with
  | b :: _ => (0 <=? b) && (b <? 128) && bool_decide (last value = Some 10)
  | [] => false
  end.

(** Scenario B of the specification: one event, delivered in two buffers
    that cut its payload. *)
Module ScenarioB.

Definition whole : list Z :=
  Utf8.bytes "data: {'type':'token','content':'Hi'}" ++ [10].

Definition cut_in_payload : list (list Z) :=
  [Utf8.bytes "data: {'typ";
   Utf8.bytes "e':'token','content':'Hi'}" ++ [10]].

Definition cut_in_prefix : list (list Z) :=
  [Utf8.bytes "da";
   Utf8.bytes "ta: {'type':'token','content':'Hi'}" ++ [10]].

Definition unterminated : list Z :=
  Utf8.bytes "data: {'type':'token','content':'Hi'}".

End ScenarioB.

(** Scenario C of the specification: three tokens, then a completion that
    carries its own text and one source. *)
Module ScenarioC.

Definition doc_a : Source :=
  mkSource (js "s1") (js "Doc A") None (js "confluence") None.

Definition lines : list (string * StreamChunk) :=
  [("{'type':'token','content':'Hel'}", token_event (js "Hel"));
   ("{'type':'token','content':'lo '}", token_event (js "lo "));
   ("{'type':'token','content':'you'}", token_event (js "you"));
   ("{'type':'complete','answer':'Hello, you.','sources':[{'id':'s1','title':'Doc A','source_type':'confluence'}]}",
    complete_event (Some (js "Hello, you.")) (Some [doc_a]))].

Fixpoint lookup (table : list (string * StreamChunk)) (data : jsstring)
    : option StreamChunk :=
  match table with
  | [] => None
  | (text, event) :: rest =>
      if bool_decide (jsq text = data) then Some event else lookup rest data
  end.

(** A parser that knows the four payloads and refuses anything else. *)
Definition parse : jsstring -> option StreamChunk := lookup lines.

(** One buffer for each event line. *)
Definition body : list (list Z) :=
  map (fun line => Utf8.bytes "data: " ++ jsq (fst line) ++ [10]) lines.

Definition platform : Platform :=
  mkPlatform (fun k => 1000 + Z.of_nat k) (fun _ => js "abc") parse
    (fun _ => Resolved (mkResponse 200 (Some (body, None))))
    v8_null_TypeError.

End ScenarioC.

(** A stream that breaks: a token, then either an error event or a rejected
    [read()]. *)
Module Broken.

Definition lines : list (string * StreamChunk) :=
  [("{'type':'token','content':'Hi'}", token_event (js "Hi"));
   ("{'type':'error','error':'boom'}", error_event (Some (js "boom")))].

Definition parse : jsstring -> option StreamChunk := ScenarioC.lookup lines.

Definition with_error_event : list (list Z) :=
  map (fun line => Utf8.bytes "data: " ++ jsq (fst line) ++ [10]) lines.

Definition platform (values : list (list Z)) (rejected : option jsstring)
    : Platform :=
  mkPlatform (fun k => 1000 + Z.of_nat k) (fun _ => js "abc") parse
    (fun _ => Resolved (mkResponse 200 (Some (values, rejected))))
    v8_null_TypeError.

End Broken.

(** A store with two conversations, the first one in the middle of an
    exchange. *)
Module Sample.

Definition m1 : Message := mkMessage (js "m1") user (js "hello") None 10.

Definition m2 : Message := mkMessage (js "m2") assistant [] None 11.

Definition c1 : Conversation := mkConversation (js "c1") [m1; m2] 10 11.

Definition c2 : Conversation := mkConversation (js "c2") [] 5 20.

Definition store : ChatState :=
  mkChatState (Some (js "c1")) [(js "c1", c1); (js "c2", c2)] false None.

(** The placeholder of [c1] given its first token at time 12, and given
    it again at time 21. *)
Definition once : ChatState :=
  ChatStore.updateMessage 12 (js "c1") (js "m2") (content_only (js "Hi")) store.

Definition twice : ChatState :=
  ChatStore.updateMessage 21 (js "c1") (js "m2") (content_only (js "Hi")) once.

Definition world : World :=
  mkWorld store (mkAuthState None (Some (js "tok")) true) [] [] 0 0.

Definition platform : Platform :=
  mkPlatform (fun k => 100 + Z.of_nat k) (fun _ => js "r")
    (fun _ => None) (fun _ => Rejected (js "Failed to fetch"))
    v8_null_TypeError.

End Sample.

(** * The rest of the stores and their callers *)

(** ** [updateUser] of the authentication store

    [Partial<User>]: [None] for a key the object does not have; [name] and
    [picture] are optional in [User], so they can be present and
    [undefined]. *)

Record UserUpdates := mkUserUpdates {
  uu_id : option jsstring;
  uu_email : option jsstring;
  uu_name : option (option jsstring);
  uu_picture : option (option jsstring)
}.

(** [user: state.user ? { ...state.user, ...updates } : null] *)
Definition updateUser (updates : UserUpdates) (state : AuthState) : AuthState :=
  mkAuthState
    (match auth_user state with
     | Some u =>
         Some (mkUser (default (user_id u) (uu_id updates))
                 (default (email u) (uu_email updates))
                 (default (name u) (uu_name updates))
                 (default (picture u) (uu_picture updates)))
     | None => None
     end)
    (accessToken state) (isAuthenticated state).

(** The actions of the authentication store. *)
Inductive AuthAction :=
| SetAuth (u : User) (token : jsstring)
| ClearAuth
| UpdateUser (updates : UserUpdates).

Definition performAuth (a : AuthAction) (state : AuthState) : AuthState :=
  match a with
  | SetAuth u token => AuthStore.setAuth u token state
  | ClearAuth => AuthStore.clearAuth state
  | UpdateUser updates => updateUser updates state
  end.

(** ** The actions of the chat store, and the states they lead to *)

Inductive ChatAction :=
| CreateConversation (newId : jsstring) (created updated : Z)
| SetCurrentConversation (cid : option jsstring)
| AddMessage (newId : jsstring) (stamp now : Z) (cid : jsstring)
    (message : NewMessage)
| UpdateMessage (now : Z) (cid mid : jsstring) (updates : Updates)
| SetLoading (loading : bool)
| SetError (e : option jsstring)
| ClearError
| DeleteConversation (cid : jsstring)
| LoadConversation (conversation : Conversation)
| LoadConversations (convs : list Conversation).

Definition performChat (a : ChatAction) (state : ChatState) : ChatState :=
  match a with
  | CreateConversation newId created updated =>
      ChatStore.createConversation newId created updated state
  | SetCurrentConversation cid => ChatStore.setCurrentConversation cid state
  | AddMessage newId stamp now cid message =>
      ChatStore.addMessage newId stamp now cid message state
  | UpdateMessage now cid mid updates =>
      ChatStore.updateMessage now cid mid updates state
  | SetLoading loading => ChatStore.setLoading loading state
  | SetError e => ChatStore.setError e state
  | ClearError => ChatStore.clearError state
  | DeleteConversation cid => ChatStore.deleteConversation cid state
  | LoadConversation conversation =>
      ChatStore.loadConversation conversation state
  | LoadConversations convs => ChatStore.loadConversations convs state
  end.

(** The actions as the components call them: the only caller of
    [setCurrentConversation] is a card of the sidebar, which passes the id of
    a conversation of the listing. *)
Definition from_the_interface (a : ChatAction) (state : ChatState) : Prop :=
  match a with
  | SetCurrentConversation cid =>
      exists conv, conv ∈ ChatStore.listConversations state
                   /\ cid = Some (conv_id conv)
  | _ => True
  end.

(** The states of the store: the initial one and those the actions lead
    to. *)
Inductive reachable : ChatState -> Prop :=
| reachable_initial : reachable ChatStore.initial
| reachable_step a s :
    reachable s -> from_the_interface a s -> reachable (performChat a s).

(** The active id, when there is one, is the id of a stored
    conversation. *)
Definition anchored (s : ChatState) : Prop :=
  match currentConversationId s with
  | Some cid => is_Some (JsMap.get cid (conversations s))
  | None => True
  end.


(** ** [Sidebar.tsx]: the cards of the listing *)

(** [conv.messages[0].content.slice(0, 50) + '...'], or
    ['New conversation']. *)
Definition preview (conv : Conversation) : jsstring :=
  match messages conv with
  | first :: _ => take 50 (content first) ++ js "..."
  | [] => js "New conversation"
  end.


(** ** [MessageList.tsx]: what the message pane shows *)

Inductive MessageListView :=
| StartNewConversation
| NoMessagesYet
| Thread (shown : list Message) (thinking : bool).

Definition MessageList (state : ChatState) : MessageListView :=
  let conversation :=
    match currentConversationId state with
    | Some cid =>
        if JsString.truthy cid then JsMap.get cid (conversations state)
        else None
    | None => None
    end in
  match conversation with
  | None => StartNewConversation
  | Some conversation =>
      match messages conversation with
      | [] => NoMessagesYet
      | shown => Thread shown (isLoading state)
      end
  end.

(** The thread [shown] is [earlier] followed by one opened turn: the user's
    message [mc] and the empty assistant message that will receive the
    answer. *)
Definition opens_turn (mc : jsstring) (earlier shown : list Message) : Prop :=
  exists u a,
    shown = earlier ++ [u; a]
    /\ role u = user /\ content u = mc /\ sources u = None
    /\ role a = assistant /\ content a = [] /\ sources a = None.

(** ** [ChatInput.tsx]: the button and the keyboard *)

(** [disabled={!input.trim() || isLoading}] of the send button. *)
Definition sendDisabled (w : World) : bool :=
  negb (JsString.truthy (JsString.trim (input w))) || isLoading (chat w).

(** [handleKeyDown]; [preventDefault] has no effect on the world. *)
Definition handleKeyDown (P : Platform) (sourceType : option jsstring)
    (key : jsstring) (shiftKey : bool) : M unit :=
  if bool_decide (key = js "Enter") && negb shiftKey
  then handleSend P sourceType
  else ret tt.

(** ** The streaming loop as a fold

    What the loop of [handleSend] does to the message it writes to, read off
    its branches: the accumulator, the content and sources last written, and
    the error that ended the loop, if one did: the message of an error
    event, or [typeError] when the stream yielded [null]. *)

Record Replayed := mkReplayed {
  accumulated : jsstring;
  written : jsstring;
  attached : option (list Source);
  thrown : option jsstring
}.

Fixpoint replay (typeError : jsstring) (stream : list StreamChunk)
    (fullContent shown : jsstring) (srcs : option (list Source)) : Replayed :=
  match stream with
  | [] => mkReplayed fullContent shown srcs None
  | JsonNull :: _ => mkReplayed fullContent shown srcs (Some typeError)
  | chunk :: rest =>
      if bool_decide (chunk_type chunk = Some (js "token")) then
        let fullContent := fullContent ++ appended (chunk_content chunk) in
        replay typeError rest fullContent fullContent srcs
      else if bool_decide (chunk_type chunk = Some (js "complete")) then
        replay typeError rest fullContent
          (JsString.or_else (chunk_answer chunk) fullContent)
          (chunk_sources chunk)
      else if bool_decide (chunk_type chunk = Some (js "error")) then
        mkReplayed fullContent shown srcs
          (Some (JsString.or_else (chunk_error chunk) (js "Unknown error")))
      else replay typeError rest fullContent shown srcs
  end.

(** Two worlds that differ by updates of messages only: the same
    authentication store, requests and input, the same active id and the same
    conversations in the same order. *)
Definition framed (w w' : World) : Prop :=
  auth w' = auth w /\ requests w' = requests w /\ input w' = input w
  /\ currentConversationId (chat w') = currentConversationId (chat w)
  /\ JsMap.keys (conversations (chat w')) = JsMap.keys (conversations (chat w)).

(** ** Lines of text *)

(** The bytes of the event line [data: payload], with its line feed. *)
Definition event_line (payload : list Z) : list Z :=
  js "data: " ++ payload ++ [10].

(** ASCII bytes, none of them a line feed. *)
Definition ascii_only (bs : list Z) : Prop :=
  Forall (fun b => 0 <= b < 128 /\ b <> 10) bs.

(** What a line with this payload yields. *)
Definition payloadEvent (parse : jsstring -> option StreamChunk)
    (payload : jsstring) : option StreamChunk :=
  if JsString.truthy (JsString.trim payload) then parse payload else None.

(** ** The REST client: [apiClient] and its interceptors

    The calls other than the stream go through axios.  A call is recorded
    with its method, its path under [API_URL] and the token of its
    [Authorization: Bearer] header.  The backend's answer is kept as axios
    sorts it: fulfilled (a 2xx status) with its data, refused (another
    status) with the [detail] of its body, or no answer at all. *)

Inductive Method := GET | POST | DELETE.

Record Call := mkCall {
  call_method : Method;
  call_path : jsstring;
  call_authorization : option jsstring
}.

Inductive Answer (D : Type) :=
| Fulfilled (data : D)
| Refused (status : Z) (detail : option jsstring)
| Unanswered (message : jsstring).

Arguments Fulfilled {D} data.
Arguments Refused {D} status detail.
Arguments Unanswered {D} message.

(** [error.message] of the error axios rejects with. *)
Definition errorMessage {D} (answer : Answer D) : jsstring :=
  match answer with
  | Fulfilled _ => []
  | Refused status _ =>
      js "Request failed with status code " ++ JsString.of_Z status
  | Unanswered message => message
  end.

(** [error.response?.data?.detail || error.message] *)
Definition errorDescription {D} (answer : Answer D) : jsstring :=
  match answer with
  | Refused _ detail => JsString.or_else detail (errorMessage answer)
  | _ => errorMessage answer
  end.

(** What the backend sends for a conversation, as [page.tsx] reads it. *)
Record BackendMessage := mkBackendMessage {
  bm_id : jsstring;
  bm_role : Role;
  bm_content : jsstring;
  bm_sources : option (list Source);
  bm_timestamp : jsstring
}.

Record BackendConversation := mkBackendConversation {
  bc_id : jsstring;
  bc_messages : list BackendMessage;
  bc_created_at : jsstring;
  bc_updated_at : jsstring
}.

(** The endpoints the components call; [list_conversations] gives the ids
    of [response.conversations]. *)
Record Backend := mkBackend {
  delete_conversation : Call -> Answer unit;
  list_conversations : Call -> Answer (list jsstring);
  get_conversation : Call -> Answer BackendConversation;
  post_logout : Call -> Answer unit
}.

Inductive Toast :=
| ToastSuccess (title : jsstring)
| ToastError (title description : jsstring).

(** The two stores, the calls made, the toasts shown and the
    [loadingConversations] flag of the chat page. *)
Record App := mkApp {
  app_chat : ChatState;
  app_auth : AuthState;
  calls : list Call;
  toasts : list Toast;
  loadingConversations : bool
}.

Definition onChat (f : ChatState -> ChatState) (app : App) : App :=
  mkApp (f (app_chat app)) (app_auth app) (calls app) (toasts app)
    (loadingConversations app).

Definition onAuth (f : AuthState -> AuthState) (app : App) : App :=
  mkApp (app_chat app) (f (app_auth app)) (calls app) (toasts app)
    (loadingConversations app).

Definition called (c : list Call) (app : App) : App :=
  mkApp (app_chat app) (app_auth app) (calls app ++ c) (toasts app)
    (loadingConversations app).

Definition toast (t : Toast) (app : App) : App :=
  mkApp (app_chat app) (app_auth app) (calls app) (toasts app ++ [t])
    (loadingConversations app).

Definition setLoadingConversations (b : bool) (app : App) : App :=
  mkApp (app_chat app) (app_auth app) (calls app) (toasts app) b.

(** The first request interceptor: the header is set when the store has a
    token. *)
Definition bearer (state : AuthState) : option jsstring :=
  match accessToken state with
  | Some token => if JsString.truthy token then Some token else None
  | None => None
  end.

(** The first response interceptor: [clearAuth] on status 401. *)
Definition intercept {D} (answer : Answer D) (app : App) : App :=
  match answer with
  | Refused status _ =>
      if status =? 401 then onAuth AuthStore.clearAuth app else app
  | _ => app
  end.

(** One call through [apiClient]. *)
Definition apiClient {D} (ask : Call -> Answer D) (method : Method)
    (path : jsstring) (app : App) : Answer D * App :=
  let call := mkCall method path (bearer (app_auth app)) in
  let answer := ask call in
  (answer, intercept answer (called [call] app)).

Definition conversationPath (conversationId : jsstring) : jsstring :=
  js "/api/chat/conversations/" ++ conversationId.

(** [handleDelete] of [Sidebar.tsx] *)
Definition handleDelete (B : Backend) (conversationId : jsstring) (app : App)
    : App :=
  let '(answer, app) :=
    apiClient (delete_conversation B) DELETE
      (conversationPath conversationId) app in
  match answer with
  | Fulfilled _ =>
      toast (ToastSuccess (js "Conversation deleted"))
        (onChat (ChatStore.deleteConversation conversationId) app)
  | _ =>
      toast (ToastError (js "Failed to delete conversation")
               (errorDescription answer)) app
  end.

(** [authApi.logout]: plain axios, the answer and any error ignored. *)
Definition logout (B : Backend) (app : App) : App :=
  match accessToken (app_auth app) with
  | Some token =>
      if JsString.truthy token then
        let call := mkCall POST (js "/api/auth/logout") (Some token) in
        let answer := post_logout B call in
        called [call] app
      else app
  | None => app
  end.

(** [handleLogout] of the chat page *)
Definition handleLogout (B : Backend) (app : App) : App :=
  toast (ToastSuccess (js "Logged out successfully"))
    (onAuth AuthStore.clearAuth (logout B app)).

(** The conversion of the chat page; [Date_parse] is [new Date(string)]. *)
Definition formatConversation (Date_parse : jsstring -> Z)
    (fullConv : BackendConversation) : Conversation :=
  mkConversation (bc_id fullConv)
    (map (fun msg =>
            mkMessage (bm_id msg) (bm_role msg) (bm_content msg)
              (bm_sources msg) (Date_parse (bm_timestamp msg)))
         (bc_messages fullConv))
    (Date_parse (bc_created_at fullConv))
    (Date_parse (bc_updated_at fullConv)).

(** [Promise.all] over fulfilled answers: all the data, or nothing. *)
Fixpoint allFulfilled {D} (answers : list (Answer D)) : option (list D) :=
  match answers with
  | [] => Some []
  | Fulfilled data :: rest =>
      match allFulfilled rest with
      | Some datas => Some (data :: datas)
      | None => None
      end
  | _ :: _ => None
  end.

(** [loadConversationsFromBackend] of the chat page.  The requests for the
    conversations leave together, before any of their answers is seen. *)
Definition loadConversationsFromBackend (B : Backend)
    (Date_parse : jsstring -> Z) (app : App) : App :=
  let app := setLoadingConversations true app in
  let '(answer, app) :=
    apiClient (list_conversations B) GET (js "/api/chat/conversations") app in
  let app :=
    match answer with
    | Fulfilled ids =>
        match ids with
        | [] => app
        | _ :: _ =>
            let sent :=
              map (fun cid =>
                     mkCall GET (conversationPath cid) (bearer (app_auth app)))
                  ids in
            let answers := map (get_conversation B) sent in
            let app :=
              fold_left (fun app answer => intercept answer app) answers
                (called sent app) in
            match allFulfilled answers with
            | Some fullConversations =>
                onChat
                  (ChatStore.loadConversations
                     (map (formatConversation Date_parse) fullConversations))
                  app
            | None => app
            end
        end
    | _ => app
    end in
  setLoadingConversations false app.

(** A service that refuses the token with a 401 whose body breaks off. *)
Module Unread.

Definition platform : Platform :=
  mkPlatform (fun k => 1000 + Z.of_nat k) (fun _ => js "abc") Demo.parse
    (fun _ =>
       Resolved (mkResponse 401 (Some ([], Some (js "network error")))))
    v8_null_TypeError.

End Unread.

(** A stream with a token, then the line [data: null], then another
    token. *)
Module NullEvent.

Definition lines : list (string * StreamChunk) :=
  [("{'type':'token','content':'Hi'}", token_event (js "Hi"));
   ("null", JsonNull);
   ("{'type':'token','content':'!'}", token_event (js "!"))].

Definition parse : jsstring -> option StreamChunk := ScenarioC.lookup lines.

Definition body : list (list Z) :=
  map (fun line => Utf8.bytes "data: " ++ jsq (fst line) ++ [10]) lines.

Definition platform : Platform :=
  mkPlatform (fun k => 1000 + Z.of_nat k) (fun _ => js "abc") parse
    (fun _ => Resolved (mkResponse 200 (Some (body, None))))
    v8_null_TypeError.

End NullEvent.

(** A backend that confirms deletions and has one conversation, and an
    application signed in over the sample store. *)
Module SampleApp.

Definition backend : Backend :=
  mkBackend (fun _ => Fulfilled tt) (fun _ => Fulfilled [js "c1"])
    (fun _ =>
       Fulfilled (mkBackendConversation (js "c1") [] (js "2024-01-01")
                    (js "2024-01-02")))
    (fun _ => Refused 500 None).

Definition app : App :=
  mkApp Sample.store (mkAuthState None (Some (js "tok")) true) [] [] false.

End SampleApp.

(** * Properties *)

(** ** The model at work *)

Example decode_ascii : Utf8.decode (Utf8.bytes "data: x") = js "data: x".
Proof. reflexivity. Qed.

Example decode_e_acute : Utf8.decode [0xC3; 0xA9] = [0xE9].
Proof. reflexivity. Qed.

Example decode_split_e_acute :
  Utf8.decode [0xC3] ++ Utf8.decode [0xA9] = [0xFFFD; 0xFFFD].
Proof. reflexivity. Qed.

Example decode_bom : Utf8.decode [0xEF; 0xBB; 0xBF; 0x41] = [0x41].
Proof. reflexivity. Qed.

Example decode_astral : Utf8.decode [0xF0; 0x9F; 0x98; 0x80] = [0xD83D; 0xDE00].
Proof. reflexivity. Qed.

Example trim_example : JsString.trim (js "  a b  ") = js "a b".
Proof. reflexivity. Qed.

Example split_example :
  JsString.split_lf [97; 10; 98; 10] = [[97]; [98]; []].
Proof. reflexivity. Qed.

Example demo_exchange :
  let w := snd (handleSend (Demo.platform 200 Demo.two_events) None
                  (Demo.start Demo.signed_in " What is replication? ")) in
  map (fun c => map (fun m => (role m, content m)) (messages c))
      (JsMap.values (conversations (chat w)))
  = [[(user, js "What is replication?"); (assistant, js "Hi!")]]
  /\ isLoading (chat w) = false /\ error (chat w) = None
  /\ length (requests w) = 1%nat.
Proof. vm_compute. auto. Qed.

(** ** Facts about [Map] *)

Section JsMapFacts.
Context {V : Type}.
Implicit Types (m : JsMap.t V) (k : jsstring) (v : V).

Lemma get_set_eq k v m : JsMap.get k (JsMap.set k v m) = Some v.
Proof.
  induction m as [|[k' v'] m IH]; simpl.
  - by rewrite bool_decide_eq_true_2.
  - destruct (bool_decide (k' = k)) eqn:E; simpl; rewrite E; auto.
Qed.

Lemma get_set_ne k k' v m :
  k <> k' -> JsMap.get k' (JsMap.set k v m) = JsMap.get k' m.
Proof.
  intros Hne. induction m as [|[k0 v0] m IH]; simpl.
  - by rewrite bool_decide_eq_false_2.
  - destruct (bool_decide (k0 = k)) eqn:E; simpl.
    + apply bool_decide_eq_true_1 in E. subst k0.
      by rewrite bool_decide_eq_false_2.
    + by rewrite IH.
Qed.

Lemma set_set k v1 v2 m :
  JsMap.set k v2 (JsMap.set k v1 m) = JsMap.set k v2 m.
Proof.
  induction m as [|[k' v'] m IH]; simpl.
  - by rewrite bool_decide_eq_true_2.
  - destruct (bool_decide (k' = k)) eqn:E; simpl; rewrite E; congruence.
Qed.

Lemma set_get_same k v m :
  JsMap.get k m = Some v -> JsMap.set k v m = m.
Proof.
  induction m as [|[k' v'] m IH]; simpl; [done|].
  destruct (bool_decide (k' = k)) eqn:E; intros H.
  - congruence.
  - by rewrite IH.
Qed.

Lemma keys_set_known k v m :
  is_Some (JsMap.get k m) -> JsMap.keys (JsMap.set k v m) = JsMap.keys m.
Proof.
  induction m as [|[k' v'] m IH]; simpl.
  - by intros [? ?].
  - destruct (bool_decide (k' = k)) eqn:E; simpl; intros H; [done|].
    f_equal. by apply IH.
Qed.

Lemma get_delete_eq k m : JsMap.get k (JsMap.delete k m) = None.
Proof.
  induction m as [|[k' v'] m IH]; simpl; [done|].
  destruct (bool_decide (k' = k)) eqn:E; simpl; [done|]. by rewrite E.
Qed.

Lemma get_delete_ne k k' m :
  k <> k' -> JsMap.get k' (JsMap.delete k m) = JsMap.get k' m.
Proof.
  intros Hne. induction m as [|[k0 v0] m IH]; simpl; [done|].
  destruct (bool_decide (k0 = k)) eqn:E; simpl.
  - apply bool_decide_eq_true_1 in E. subst k0.
    by rewrite bool_decide_eq_false_2.
  - by rewrite IH.
Qed.

(** What is left after [delete]: the entries under another key. *)
Lemma elem_of_delete k k' v m :
  (k', v) ∈ JsMap.delete k m <-> k' <> k /\ (k', v) ∈ m.
Proof.
  induction m as [|[k0 v0] m IH]; simpl.
  - split; [intros H | intros [_ H]]; by apply elem_of_nil in H.
  - destruct (bool_decide (k0 = k)) eqn:E.
    + apply bool_decide_eq_true_1 in E. subst k0.
      rewrite IH, elem_of_cons. split; [tauto|].
      intros [Hne [Heq|Hin]]; [congruence | tauto].
    + apply bool_decide_eq_false_1 in E.
      rewrite !elem_of_cons, IH. split.
      * intros [Heq|[Hne Hin]]; [|tauto].
        inversion Heq; subst. tauto.
      * tauto.
Qed.

Lemma get_Some_elem_of k v m : JsMap.get k m = Some v -> (k, v) ∈ m.
Proof.
  induction m as [|[k' v'] m IH]; simpl; [done|].
  destruct (bool_decide (k' = k)) eqn:E; intros H.
  - apply bool_decide_eq_true_1 in E. inversion H; subst. by left.
  - right. auto.
Qed.
End JsMapFacts.

(** ** The conversation store *)

Section StoreFacts.
Implicit Types (s : ChatState) (cid mid : jsstring) (u : Updates).

Lemma spread_spread msg u : spread (spread msg u) u = spread msg u.
Proof. destruct msg, u as [[?|] [?|] [?|] [?|] [?|]]; reflexivity. Qed.

Lemma touch_touch mid u msg : touch mid u (touch mid u msg) = touch mid u msg.
Proof.
  unfold touch. destruct (bool_decide (id msg = mid)) eqn:E.
  - destruct (bool_decide (id (spread msg u) = mid)); [|done].
    apply spread_spread.
  - by rewrite E.
Qed.

Lemma touch_unknown mid u (l : list Message) :
  Forall (fun msg => id msg <> mid) l -> map (touch mid u) l = l.
Proof.
  induction 1 as [|msg l Hm _ IH]; simpl; [done|].
  unfold touch at 1. rewrite bool_decide_eq_false_2 by done. by rewrite IH.
Qed.

Lemma updateMessage_known now cid mid u s conv :
  JsMap.get cid (conversations s) = Some conv ->
  ChatStore.updateMessage now cid mid u s
  = mkChatState (currentConversationId s)
      (JsMap.set cid
         (mkConversation (conv_id conv) (map (touch mid u) (messages conv))
            (createdAt conv) now)
         (conversations s))
      (isLoading s) (error s).
Proof. intros H. unfold ChatStore.updateMessage. by rewrite H. Qed.

Lemma updateMessage_absent now cid mid u s :
  JsMap.get cid (conversations s) = None ->
  ChatStore.updateMessage now cid mid u s = s.
Proof. intros H. unfold ChatStore.updateMessage. by rewrite H. Qed.

Lemma addMessage_known newId stamp now cid msg s conv :
  JsMap.get cid (conversations s) = Some conv ->
  ChatStore.addMessage newId stamp now cid msg s
  = mkChatState (currentConversationId s)
      (JsMap.set cid
         (mkConversation (conv_id conv)
            (messages conv
             ++ [mkMessage newId (new_role msg) (new_content msg)
                   (new_sources msg) stamp])
            (createdAt conv) now)
         (conversations s))
      (isLoading s) (error s).
Proof. intros H. unfold ChatStore.addMessage. by rewrite H. Qed.

Lemma addMessage_absent newId stamp now cid msg s :
  JsMap.get cid (conversations s) = None ->
  ChatStore.addMessage newId stamp now cid msg s = s.
Proof. intros H. unfold ChatStore.addMessage. by rewrite H. Qed.
End StoreFacts.

Section StoreProperties.
Implicit Types (s : ChatState) (cid mid k : jsstring) (u : Updates).

(** The messages under each key after [updateMessage]; the clock does not
    enter. *)
Lemma updateMessage_messages now cid mid u s k :
  messages <$> JsMap.get k (conversations (ChatStore.updateMessage now cid mid u s))
  = (fun c => if bool_decide (cid = k) then map (touch mid u) (messages c)
              else messages c)
    <$> JsMap.get k (conversations s).
Proof.
  destruct (JsMap.get cid (conversations s)) as [conv|] eqn:Hc.
  - rewrite (updateMessage_known _ _ _ _ _ _ Hc). simpl.
    destruct (bool_decide (cid = k)) eqn:E.
    + apply bool_decide_eq_true_1 in E. subst k.
      by rewrite get_set_eq, Hc.
    + apply bool_decide_eq_false_1 in E. rewrite get_set_ne by done.
      by destruct (JsMap.get k (conversations s)).
  - rewrite updateMessage_absent by done.
    destruct (bool_decide (cid = k)) eqn:E.
    + apply bool_decide_eq_true_1 in E. subst k. by rewrite Hc.
    + by destruct (JsMap.get k (conversations s)).
Qed.

Lemma updateMessage_twice t1 t2 cid mid u s :
  ChatStore.updateMessage t2 cid mid u (ChatStore.updateMessage t1 cid mid u s)
  = ChatStore.updateMessage t2 cid mid u s.
Proof.
  destruct (JsMap.get cid (conversations s)) as [conv|] eqn:Hc.
  - rewrite (updateMessage_known t1 _ _ _ _ _ Hc).
    erewrite updateMessage_known by (simpl; apply get_set_eq).
    rewrite (updateMessage_known t2 _ _ _ _ _ Hc). simpl.
    rewrite set_set. do 3 f_equal.
    rewrite <- list_fmap_compose. apply list_fmap_ext.
    intros i msg _. apply touch_touch.
  - by rewrite (updateMessage_absent t1 _ _ _ _ Hc).
Qed.

(** C2 as the specification states it fails: with a known conversation
    and an unknown message id the call still stamps the conversation, which
    the order of the listing shows. *)
Lemma C2_unknown_message_restamps :
  JsMap.get (js "c1") (conversations Sample.store) = Some Sample.c1
  /\ Forall (fun msg => id msg <> js "m9") (messages Sample.c1)
  /\ ChatStore.updateMessage 21 (js "c1") (js "m9") (content_only (js "x"))
       Sample.store
     <> Sample.store
  /\ map conv_id (ChatStore.listConversations Sample.store)
     = [js "c2"; js "c1"]
  /\ map conv_id
       (ChatStore.listConversations
          (ChatStore.updateMessage 21 (js "c1") (js "m9")
             (content_only (js "x")) Sample.store))
     = [js "c1"; js "c2"].
Proof.
  split; [reflexivity|]. split; [|split; [|split; reflexivity]].
  - repeat constructor; discriminate.
  - intros H.
    apply (f_equal (fun s => updatedAt <$> JsMap.get (js "c1") (conversations s)))
      in H.
    vm_compute in H. discriminate.
Qed.

(** C2, amended: [updateMessage] with an unknown conversation id returns
    the state it was given.  With a known conversation id and a message id
    no message of that conversation has, the store is the one it was given
    but for the [updatedAt] of that conversation, which is the time of the
    call; so every message list is as before, and the state is identical
    when the clock reads the old [updatedAt]. *)
Theorem C2_updateMessage_unknown_ids now cid mid u s :
  (JsMap.get cid (conversations s) = None ->
   ChatStore.updateMessage now cid mid u s = s)
  /\ (forall conv,
        JsMap.get cid (conversations s) = Some conv ->
        Forall (fun msg => id msg <> mid) (messages conv) ->
        ChatStore.updateMessage now cid mid u s
        = mkChatState (currentConversationId s)
            (JsMap.set cid (withUpdatedAt now conv) (conversations s))
            (isLoading s) (error s)
        /\ (forall k,
              messages <$> JsMap.get k
                (conversations (ChatStore.updateMessage now cid mid u s))
              = messages <$> JsMap.get k (conversations s))
        /\ (now = updatedAt conv ->
            ChatStore.updateMessage now cid mid u s = s)).
Proof.
  split; [apply updateMessage_absent|].
  intros conv Hc Hmid.
  assert (Heq : ChatStore.updateMessage now cid mid u s
                = mkChatState (currentConversationId s)
                    (JsMap.set cid (withUpdatedAt now conv) (conversations s))
                    (isLoading s) (error s)).
  { rewrite (updateMessage_known _ _ _ _ _ _ Hc).
    by rewrite touch_unknown. }
  split; [exact Heq|]. split.
  - intros k. rewrite Heq. simpl.
    destruct (decide (cid = k)) as [->|Hne].
    + by rewrite get_set_eq, Hc.
    + by rewrite get_set_ne.
  - intros ->. rewrite Heq.
    replace (withUpdatedAt (updatedAt conv) conv) with conv
      by (by destruct conv).
    rewrite set_get_same by done. by destruct s.
Qed.

Lemma C2_updateMessage_unknown_ids_witness :
  ChatStore.updateMessage 12 (js "c9") (js "m1") (content_only (js "x"))
    Sample.store
  = Sample.store
  /\ ChatStore.updateMessage 12 (js "c1") (js "m9") (content_only (js "x"))
       Sample.store
     = mkChatState (Some (js "c1"))
         [(js "c1", withUpdatedAt 12 Sample.c1); (js "c2", Sample.c2)]
         false None
  /\ ChatStore.updateMessage 11 (js "c1") (js "m9") (content_only (js "x"))
       Sample.store
     = Sample.store.
Proof.
  split; [|split].
  - apply (proj1 (C2_updateMessage_unknown_ids 12 (js "c9") (js "m1")
                    (content_only (js "x")) Sample.store)).
    reflexivity.
  - apply (proj2 (C2_updateMessage_unknown_ids 12 (js "c1") (js "m9")
                    (content_only (js "x")) Sample.store) Sample.c1).
    + reflexivity.
    + repeat constructor; discriminate.
  - apply (proj2 (C2_updateMessage_unknown_ids 11 (js "c1") (js "m9")
                    (content_only (js "x")) Sample.store) Sample.c1).
    + reflexivity.
    + repeat constructor; discriminate.
    + reflexivity.
Defined.

(** C3 as the specification states it fails: the second application
    stamps the conversation again, and the listing, which is ordered by the
    stamps, is not the one the first application left. *)
Lemma C3_second_call_restamps :
  Sample.twice <> Sample.once
  /\ map conv_id (ChatStore.listConversations Sample.once)
     = [js "c2"; js "c1"]
  /\ map conv_id (ChatStore.listConversations Sample.twice)
     = [js "c1"; js "c2"].
Proof.
  split; [|split; reflexivity].
  intros H.
  apply (f_equal (fun s => updatedAt <$> JsMap.get (js "c1") (conversations s)))
    in H.
  vm_compute in H. discriminate.
Qed.

(** C3, amended: applying [updateMessage] twice in a row with the same
    arguments gives the state that applying it once, at the time of the
    second call, gives.  After the second call every conversation has the
    messages it had after the first, and the active id, the loading flag
    and the error are the same; only the [updatedAt] of the conversation
    addressed is the time of the second call, and the two states are
    identical when the clock reads the same at both calls. *)
Theorem C3_updateMessage_idempotent t1 t2 cid mid u s :
  let once := ChatStore.updateMessage t1 cid mid u s in
  let twice := ChatStore.updateMessage t2 cid mid u once in
  twice = ChatStore.updateMessage t2 cid mid u s
  /\ (forall k,
        messages <$> JsMap.get k (conversations twice)
        = messages <$> JsMap.get k (conversations once))
  /\ JsMap.keys (conversations twice) = JsMap.keys (conversations once)
  /\ currentConversationId twice = currentConversationId once
  /\ isLoading twice = isLoading once
  /\ error twice = error once
  /\ (t2 = t1 -> twice = once).
Proof.
  intros once twice. subst once twice.
  rewrite updateMessage_twice.
  split; [done|]. split.
  { intros k. by rewrite !updateMessage_messages. }
  destruct (JsMap.get cid (conversations s)) as [conv|] eqn:Hc.
  - rewrite !(updateMessage_known _ _ _ _ _ _ Hc). simpl.
    rewrite !keys_set_known by eauto.
    repeat split; auto. by intros ->.
  - rewrite (updateMessage_absent t1 _ _ _ _ Hc),
      (updateMessage_absent t2 _ _ _ _ Hc).
    repeat split; auto.
Qed.

Lemma C3_updateMessage_idempotent_witness :
  ChatStore.updateMessage 12 (js "c1") (js "m2") (content_only (js "Hi"))
    (ChatStore.updateMessage 12 (js "c1") (js "m2") (content_only (js "Hi"))
       Sample.store)
  = ChatStore.updateMessage 12 (js "c1") (js "m2") (content_only (js "Hi"))
      Sample.store.
Proof.
  apply (C3_updateMessage_idempotent 12 12 (js "c1") (js "m2")
           (content_only (js "Hi")) Sample.store).
  reflexivity.
Defined.
End StoreProperties.


(** *** The listing and [deleteConversation] *)

Lemma elem_of_insert_sorted (x c : Conversation) (l : list Conversation) :
  x ∈ ChatStore.insert_sorted c l <-> x = c \/ x ∈ l.
Proof.
  induction l as [|d l IH]; simpl.
  - rewrite list_elem_of_singleton. split; [auto|].
    intros [H|H]; [done|]. by apply elem_of_nil in H.
  - destruct (updatedAt d <=? updatedAt c).
    + by rewrite elem_of_cons.
    + rewrite !elem_of_cons, IH. tauto.
Qed.

(** The listing holds the stored conversations, all of them and no other. *)
Lemma elem_of_listConversations (x : Conversation) (s : ChatState) :
  x ∈ ChatStore.listConversations s <-> exists k, (k, x) ∈ conversations s.
Proof.
  unfold ChatStore.listConversations, JsMap.values.
  induction (conversations s) as [|[k v] m IH]; simpl.
  - split; [intros H | intros [k H]]; by apply elem_of_nil in H.
  - rewrite elem_of_insert_sorted, IH. split.
    + intros [->|[k' H]]; [exists k; by left | exists k'; by right].
    + intros [k' H]. apply elem_of_cons in H as [H|H].
      * inversion H; subst. by left.
      * right. by exists k'.
Qed.

Lemma insert_sorted_latest_first (c : Conversation) (l : list Conversation) :
  latest_first l -> latest_first (ChatStore.insert_sorted c l).
Proof.
  induction 1 as [|d l Hd Hl IH]; simpl.
  - constructor; [constructor | constructor].
  - destruct (updatedAt d <=? updatedAt c) eqn:E.
    + apply Z.leb_le in E. constructor; [|by constructor].
      constructor; [done|]. eapply Forall_impl; [exact Hd|].
      simpl. intros; lia.
    + apply Z.leb_gt in E. constructor; [|done].
      apply Forall_forall. intros x Hx.
      apply elem_of_insert_sorted in Hx as [->|Hx]; [lia|].
      rewrite Forall_forall in Hd. auto.
Qed.

Lemma listConversations_latest_first (s : ChatState) :
  latest_first (ChatStore.listConversations s).
Proof.
  unfold ChatStore.listConversations.
  induction (JsMap.values (conversations s)) as [|c l IH]; simpl.
  - constructor.
  - by apply insert_sorted_latest_first.
Qed.

(** C8: after [deleteConversation cid] the store has no conversation under
    [cid]; the listing holds exactly the conversations stored under the other
    ids, so, each conversation being stored under its own id, none with id
    [cid]; the active id becomes [null] when it was [cid] and is unchanged
    otherwise. *)
Theorem C8_deleteConversation (cid : jsstring) (s : ChatState) :
  let s' := ChatStore.deleteConversation cid s in
  JsMap.get cid (conversations s') = None
  /\ (forall c, c ∈ ChatStore.listConversations s'
                <-> exists k, k <> cid /\ (k, c) ∈ conversations s)
  /\ (well_keyed s ->
      forall c, c ∈ ChatStore.listConversations s' -> conv_id c <> cid)
  /\ (currentConversationId s = Some cid -> currentConversationId s' = None)
  /\ (currentConversationId s <> Some cid ->
      currentConversationId s' = currentConversationId s).
Proof.
  simpl.
  assert (Hlist : forall c,
            c ∈ ChatStore.listConversations (ChatStore.deleteConversation cid s)
            <-> exists k, k <> cid /\ (k, c) ∈ conversations s).
  { intros c. rewrite elem_of_listConversations. simpl.
    split; intros [k H]; exists k; by apply elem_of_delete. }
  split; [apply get_delete_eq|]. split; [exact Hlist|]. split; [|split].
  - intros Hwf c Hc. apply Hlist in Hc as (k & Hne & Hin).
    unfold well_keyed in Hwf. rewrite Forall_forall in Hwf.
    specialize (Hwf _ Hin). simpl in Hwf. congruence.
  - intros H. by rewrite bool_decide_eq_true_2.
  - intros H. by rewrite bool_decide_eq_false_2.
Qed.

Lemma C8_deleteConversation_witness :
  currentConversationId (ChatStore.deleteConversation (js "c1") Sample.store)
  = None
  /\ forall c,
       c ∈ ChatStore.listConversations
             (ChatStore.deleteConversation (js "c1") Sample.store) ->
       conv_id c <> js "c1".
Proof.
  pose proof (C8_deleteConversation (js "c1") Sample.store) as H.
  simpl in H. destruct H as (_ & _ & Hlist & Hactive & _).
  split.
  - apply Hactive. reflexivity.
  - apply Hlist. repeat constructor.
Defined.

(** *** What [addMessage] and [updateMessage] leave alone *)

Lemma touch_identity (mid : jsstring) (u : Updates) (msg : Message) :
  content_sources_only u -> identity (touch mid u msg) = identity msg.
Proof.
  intros (Hi & Hr & Ht). unfold touch, identity, spread.
  destruct (bool_decide (id msg = mid)); [|done].
  simpl. by rewrite Hi, Hr, Ht.
Qed.

(** C10: for every conversation of the store, [addMessage] keeps its id and
    [createdAt] and its messages as they are and where they are, a new
    message coming after them at most; [updateMessage], given only content
    and sources, keeps its id and [createdAt], the number of its messages and,
    position by position, the id, role and timestamp of each. *)
Theorem C10_frame (newId : jsstring) (stamp now : Z) (cid mid : jsstring)
    (msg : NewMessage) (u : Updates) (s : ChatState)
    (k : jsstring) (conv : Conversation) :
  JsMap.get k (conversations s) = Some conv ->
  (exists conv',
     JsMap.get k (conversations (ChatStore.addMessage newId stamp now cid msg s))
     = Some conv'
     /\ conv_id conv' = conv_id conv
     /\ createdAt conv' = createdAt conv
     /\ exists extra, messages conv' = messages conv ++ extra)
  /\ (content_sources_only u ->
      exists conv',
        JsMap.get k (conversations (ChatStore.updateMessage now cid mid u s))
        = Some conv'
        /\ conv_id conv' = conv_id conv
        /\ createdAt conv' = createdAt conv
        /\ length (messages conv') = length (messages conv)
        /\ map identity (messages conv') = map identity (messages conv)).
Proof.
  intros Hk. split.
  - destruct (JsMap.get cid (conversations s)) as [target|] eqn:Hc.
    + rewrite (addMessage_known _ _ _ _ _ _ _ Hc). simpl.
      destruct (decide (cid = k)) as [->|Hne].
      * rewrite get_set_eq. rewrite Hk in Hc. inversion Hc; subst target.
        eexists. split; [reflexivity|]. simpl. eauto.
      * rewrite get_set_ne by done. exists conv.
        repeat split; auto. exists []. by rewrite app_nil_r.
    + rewrite addMessage_absent by done. exists conv.
      repeat split; auto. exists []. by rewrite app_nil_r.
  - intros Hu.
    destruct (JsMap.get cid (conversations s)) as [target|] eqn:Hc.
    + rewrite (updateMessage_known _ _ _ _ _ _ Hc). simpl.
      destruct (decide (cid = k)) as [->|Hne].
      * rewrite get_set_eq. rewrite Hk in Hc. inversion Hc; subst target.
        eexists. split; [reflexivity|]. simpl.
        repeat split; auto.
        -- by rewrite length_map.
        -- rewrite map_map. apply map_ext. intros m.
           by apply touch_identity.
      * rewrite get_set_ne by done. exists conv. repeat split; auto.
    + rewrite updateMessage_absent by done. exists conv. repeat split; auto.
Qed.

Lemma C10_frame_witness :
  exists conv',
    JsMap.get (js "c1")
      (conversations
         (ChatStore.updateMessage 12 (js "c1") (js "m2")
            (content_and_sources (js "Hi") None) Sample.store))
    = Some conv'
    /\ conv_id conv' = js "c1"
    /\ createdAt conv' = 10
    /\ length (messages conv') = 2%nat
    /\ map identity (messages conv') = map identity [Sample.m1; Sample.m2].
Proof.
  apply (C10_frame [] 0 12 (js "c1") (js "m2") (mkNewMessage user [] None)
           (content_and_sources (js "Hi") None) Sample.store (js "c1")
           Sample.c1).
  - reflexivity.
  - repeat split.
Defined.


(** ** The frame decoder *)

Section DecoderFacts.
Variable parse : jsstring -> option StreamChunk.

Lemma split_lf_not_nil (t : jsstring) : JsString.split_lf t <> [].
Proof.
  destruct t as [|c t]; simpl; [done|].
  destruct (c =? 10); [done|]. by destruct (JsString.split_lf t).
Qed.

Lemma split_lf_app (t t' : jsstring) :
  JsString.split_lf (t ++ 10 :: t')
  = JsString.split_lf t ++ JsString.split_lf t'.
Proof.
  induction t as [|c t IH]; simpl; [done|].
  destruct (c =? 10); [by rewrite IH|].
  rewrite IH. pose proof (split_lf_not_nil t) as Hne.
  by destruct (JsString.split_lf t).
Qed.

Lemma split_lf_terminated (t : jsstring) :
  JsString.split_lf (t ++ [10]) = JsString.split_lf t ++ [[]].
Proof. apply split_lf_app. Qed.

(** A text that ends with a line feed keeps nothing from what follows. *)
Lemma textEvents_app (t t' : jsstring) :
  Decoder.textEvents parse ((t ++ [10]) ++ t')
  = Decoder.textEvents parse (t ++ [10]) ++ Decoder.textEvents parse t'.
Proof.
  unfold Decoder.textEvents.
  rewrite <- app_assoc. simpl.
  rewrite split_lf_app, split_lf_terminated, !flat_map_app. simpl.
  by rewrite app_nil_r.
Qed.

Lemma readEvents_app (vs ws : list (list Z)) :
  Decoder.readEvents parse (vs ++ ws)
  = Decoder.readEvents parse vs ++ Decoder.readEvents parse ws.
Proof. apply flat_map_app. Qed.
End DecoderFacts.

(** *** The UTF-8 decoder at an ASCII byte *)

Lemma within_ascii (c : Z) : 0 <= c < 128 -> Utf8.within 0x00 0x7F c = true.
Proof. intros H. unfold Utf8.within. apply andb_true_intro. lia. Qed.

Lemma lead_ascii (c : Z) :
  0 <= c < 128 -> Utf8.lead c = ([c], Utf8.initial).
Proof. intros H. unfold Utf8.lead. by rewrite within_ascii. Qed.

Lemma lead_sound (b : Z) : sound (snd (Utf8.lead b)).
Proof.
  unfold Utf8.lead, sound.
  repeat match goal with
         | |- context [if ?c then _ else _] => destruct c
         end; simpl; lia.
Qed.

Lemma handler_sound (st : Utf8.state) (b : Z) : sound (snd (Utf8.handler st b)).
Proof.
  unfold Utf8.handler.
  destruct (Utf8.bytes_needed st =? 0); [apply lead_sound|].
  destruct (negb _).
  - pose proof (lead_sound b) as H. by destruct (Utf8.lead b).
  - destruct (_ =? _); unfold sound; simpl; lia.
Qed.

(** An ASCII byte comes out as itself, after U+FFFD when it cuts a pending
    sequence, and leaves nothing pending. *)
Lemma handler_ascii (st : Utf8.state) (c : Z) :
  sound st -> 0 <= c < 128 ->
  exists pre, Utf8.handler st c = (pre ++ [c], Utf8.initial).
Proof.
  intros Hst Hc. unfold Utf8.handler.
  destruct (Utf8.bytes_needed st =? 0).
  - exists []. by apply lead_ascii.
  - assert (Utf8.within (Utf8.lower st) (Utf8.upper st) c = false) as ->.
    { unfold Utf8.within, sound in *. apply andb_false_intro1.
      apply Z.leb_gt. lia. }
    simpl. rewrite lead_ascii by done. by exists [0xFFFD].
Qed.

Lemma run_app_ascii (a b : list Z) (c : Z) (st : Utf8.state) :
  sound st -> 0 <= c < 128 ->
  exists out,
    Utf8.run st (a ++ [c]) = out ++ [c]
    /\ Utf8.run st (a ++ c :: b) = (out ++ [c]) ++ Utf8.run Utf8.initial b.
Proof.
  revert st. induction a as [|x a IH]; intros st Hst Hc; simpl.
  - destruct (handler_ascii st c Hst Hc) as [pre ->]. simpl.
    exists pre. by rewrite app_nil_r.
  - pose proof (handler_sound st x) as Hx.
    destruct (Utf8.handler st x) as [out st']. simpl in Hx.
    destruct (IH st' Hx Hc) as (rest & -> & ->).
    exists (out ++ rest). by rewrite !app_assoc.
Qed.

Lemma initial_sound : sound Utf8.initial.
Proof. unfold sound. simpl. lia. Qed.

Lemma utf16_ascii (c : Z) : 0 <= c < 128 -> Utf8.utf16 c = [c].
Proof.
  intros H. unfold Utf8.utf16.
  destruct (Z.ltb_spec c 0x10000); [done | lia].
Qed.

(** What [line_aligned] says. *)
Lemma line_aligned_inv (v : list Z) :
  line_aligned v = true ->
  exists b rest a, v = b :: rest /\ 0 <= b < 128 /\ v = a ++ [10].
Proof.
  destruct v as [|b rest]; simpl; [done|].
  intros H. apply andb_prop in H as [H1 H3]. apply andb_prop in H1 as [H1 H2].
  apply bool_decide_eq_true_1 in H3.
  exists b, rest.
  destruct (last_Some (b :: rest) 10) as [[a Ha] _]; [done|].
  exists a. repeat split; [lia | lia | done].
Qed.

Lemma run_leading_ascii (b : Z) (rest : list Z) :
  0 <= b < 128 ->
  Utf8.run Utf8.initial (b :: rest) = b :: Utf8.run Utf8.initial rest.
Proof.
  intros H. simpl. unfold Utf8.handler. simpl. by rewrite lead_ascii.
Qed.

(** Decoding a buffer that starts with an ASCII byte, or is empty, drops no
    byte order mark. *)
Lemma strip_bom_run (w : list Z) :
  (w = [] \/ exists b rest, w = b :: rest /\ 0 <= b < 128) ->
  Utf8.strip_bom (Utf8.run Utf8.initial w) = Utf8.run Utf8.initial w.
Proof.
  intros [->|(b & rest & -> & Hb)]; [done|].
  rewrite run_leading_ascii by done. simpl.
  destruct (Z.eqb_spec b 0xFEFF); [lia | done].
Qed.

Lemma decode_line_aligned (v w : list Z) :
  line_aligned v = true ->
  (w = [] \/ exists b rest, w = b :: rest /\ 0 <= b < 128) ->
  exists t,
    Utf8.decode v = t ++ [10]
    /\ Utf8.decode (v ++ w) = (t ++ [10]) ++ Utf8.decode w.
Proof.
  intros Hv Hw.
  destruct (line_aligned_inv v Hv) as (b & rest & a & Hv1 & Hb & Hv2).
  destruct (run_app_ascii a w 10 Utf8.initial initial_sound) as (out & H1 & H2);
    [lia|].
  unfold Utf8.decode.
  rewrite (strip_bom_run w Hw).
  rewrite (strip_bom_run v) by (right; eauto).
  assert (Hvw : Utf8.strip_bom (Utf8.run Utf8.initial (v ++ w))
                = Utf8.run Utf8.initial (v ++ w)).
  { apply strip_bom_run. right. exists b, (rest ++ w).
    split; [by rewrite Hv1 | done]. }
  rewrite Hvw. rewrite Hv2. rewrite <- app_assoc. simpl. rewrite H1, H2.
  exists (flat_map Utf8.utf16 out).
  rewrite !flat_map_app. simpl. done.
Qed.

Lemma concat_line_aligned (vs : list (list Z)) :
  Forall (fun v => line_aligned v = true) vs ->
  concat vs = [] \/ exists b rest, concat vs = b :: rest /\ 0 <= b < 128.
Proof.
  destruct 1 as [|v vs Hv _]; [by left|]. right.
  destruct (line_aligned_inv v Hv) as (b & rest & a & -> & Hb & _).
  exists b, (rest ++ concat vs). by split.
Qed.

(** *** Chunk boundaries *)

(** Whatever the parser, once it accepts the payload: the event of Scenario B
    is yielded when its line arrives in one buffer, and lost when the buffers
    cut the line inside [data: ]. *)
Lemma cut_in_prefix_loses_event (parse : jsstring -> option StreamChunk)
    (event : StreamChunk) :
  parse Demo.hi_payload = Some event ->
  Decoder.readEvents parse [ScenarioB.whole] = [event]
  /\ Decoder.readEvents parse ScenarioB.cut_in_prefix = [].
Proof.
  intros H. split.
  - change (Decoder.readEvents parse [ScenarioB.whole])
      with ((match parse Demo.hi_payload with
             | Some e => [e]
             | None => []
             end ++ []) ++ []).
    by rewrite H.
  - reflexivity.
Qed.

(** C1 as the specification states it fails.  The buffers of Scenario B,
    which cut the payload of one event, carry the same bytes as the whole
    line and yield no event where the whole line yields one; so do the
    buffers that cut the line inside its prefix.  And a line that has no
    terminator yet is not retained: it is parsed and yielded at once. *)
Lemma C1_split_event_is_lost :
  concat ScenarioB.cut_in_payload = ScenarioB.whole
  /\ concat ScenarioB.cut_in_prefix = ScenarioB.whole
  /\ Decoder.readEvents Demo.parse [ScenarioB.whole] = [token_event (js "Hi")]
  /\ Decoder.readEvents Demo.parse ScenarioB.cut_in_payload = []
  /\ Decoder.readEvents Demo.parse ScenarioB.cut_in_prefix = []
  /\ Decoder.readEvents Demo.parse [ScenarioB.unterminated]
     = [token_event (js "Hi")].
Proof. vm_compute. repeat split. Qed.

(** C1, amended: the decoder decodes and splits each buffer on its own and
    keeps nothing between buffers, so what it yields for a sequence of
    buffers is what it yields for each, in order.  For every way of splitting
    the stream into buffers of whole lines (each starts at the beginning of a
    line, with an ASCII byte such as the [d] of [data: ], and ends with the
    line feed of a line) it yields exactly the events, in the same order,
    that it yields for the unsplit stream.  What follows the last line feed
    of a buffer is not retained: it is handled at once, as a buffer of its
    own would be. *)
Theorem C1_whole_line_chunks (parse : jsstring -> option StreamChunk)
    (values : list (list Z)) (value fragment : list Z) :
  (Forall (fun v => line_aligned v = true) values ->
   Decoder.readEvents parse values = Decoder.readEvents parse [concat values])
  /\ Decoder.readEvents parse values
     = flat_map (Decoder.chunkEvents parse) values
  /\ (line_aligned value = true ->
      (fragment = [] \/ exists b rest, fragment = b :: rest /\ 0 <= b < 128) ->
      Decoder.chunkEvents parse (value ++ fragment)
      = Decoder.chunkEvents parse value ++ Decoder.chunkEvents parse fragment).
Proof.
  split; [|split; [reflexivity|]].
  - intros H. induction H as [|v vs Hv Hvs IH]; [reflexivity|].
    change (Decoder.readEvents parse (v :: vs))
      with (Decoder.chunkEvents parse v ++ Decoder.readEvents parse vs).
    rewrite IH. simpl. rewrite !app_nil_r. unfold Decoder.chunkEvents.
    destruct (decode_line_aligned v (concat vs) Hv (concat_line_aligned vs Hvs))
      as (t & -> & ->).
    by rewrite textEvents_app.
  - intros Hv Hf. unfold Decoder.chunkEvents.
    destruct (decode_line_aligned value fragment Hv Hf) as (t & -> & ->).
    by rewrite textEvents_app.
Qed.

Lemma C1_whole_line_chunks_witness :
  Decoder.readEvents Demo.parse Demo.two_events
  = Decoder.readEvents Demo.parse [concat Demo.two_events]
  /\ Decoder.chunkEvents Demo.parse (ScenarioB.whole ++ ScenarioB.unterminated)
     = Decoder.chunkEvents Demo.parse ScenarioB.whole
       ++ Decoder.chunkEvents Demo.parse ScenarioB.unterminated.
Proof.
  split.
  - apply (proj1 (C1_whole_line_chunks Demo.parse Demo.two_events [] [])).
    repeat constructor.
  - apply (proj2 (proj2 (C1_whole_line_chunks Demo.parse [] ScenarioB.whole
                           ScenarioB.unterminated))).
    + reflexivity.
    + right. exists 100, (tail ScenarioB.unterminated).
      split; [reflexivity | lia].
Defined.

(** ** The controller *)

Section ControllerFacts.
Variable P : Platform.

Lemma bind_return {A B} (c : M A) (k : A -> M B) (w w' : World) (a : A) :
  c w = (Return a, w') -> bind c k w = k a w'.
Proof. intros H. unfold bind. by rewrite H. Qed.

Lemma bind_throw {A B} (c : M A) (k : A -> M B) (w w' : World) e :
  c w = (Throw e, w') -> bind c k w = (Throw e, w').
Proof. intros H. unfold bind. by rewrite H. Qed.

(** The store's actions never throw and touch the chat store only. *)
Lemma updateMessage_run (cid mid : jsstring) (u : Updates) (w : World) :
  exists w',
    updateMessage P cid mid u w = (Return tt, w')
    /\ chat w'
       = ChatStore.updateMessage (clock P (clock_reads w)) cid mid u (chat w)
    /\ auth w' = auth w /\ requests w' = requests w /\ input w' = input w.
Proof.
  unfold updateMessage, bind, getWorld.
  destruct (JsMap.get cid (conversations (chat w))) eqn:Hc; simpl.
  - eexists. split; [reflexivity|]. simpl. auto.
  - exists w. by rewrite updateMessage_absent.
Qed.

Lemma addMessage_run (cid : jsstring) (msg : NewMessage) (w : World) :
  exists newId stamp now w',
    addMessage P cid msg w = (Return tt, w')
    /\ chat w' = ChatStore.addMessage newId stamp now cid msg (chat w)
    /\ auth w' = auth w /\ requests w' = requests w /\ input w' = input w.
Proof.
  unfold addMessage, generateMessageId, bind, getWorld, readClock, readRandom,
    ret. simpl.
  destruct (JsMap.get cid (conversations (chat w))) eqn:Hc; simpl.
  - do 4 eexists. split; [reflexivity|]. simpl. auto.
  - exists [], 0, 0. eexists. split; [reflexivity|]. simpl.
    by rewrite addMessage_absent.
Qed.

Lemma createConversation_run (w : World) :
  exists newId created updated w',
    createConversation P w = (Return newId, w')
    /\ chat w' = ChatStore.createConversation newId created updated (chat w)
    /\ auth w' = auth w /\ requests w' = requests w /\ input w' = input w.
Proof.
  unfold createConversation, generateId, bind, readClock, readRandom, ret,
    modifyChat. simpl.
  do 4 eexists. split; [reflexivity|]. simpl. auto.
Qed.

(** C4: a submission whose text is empty once trimmed, or made while the
    loading flag is set, returns at once and leaves the world as it was: the
    stores, hence the conversations and their messages, and the list of
    requests sent. *)
Theorem C4_rejected_submission
    (api : jsstring -> option jsstring -> option jsstring -> M Stream)
    (sourceType : option jsstring) (w : World) :
  JsString.trim (input w) = [] \/ isLoading (chat w) = true ->
  handleSendWith P api sourceType w = (Return tt, w)
  /\ handleSend P sourceType w = (Return tt, w)
  /\ handleSend_v1 P sourceType w = (Return tt, w).
Proof.
  intros H.
  assert (G : forall api', handleSendWith P api' sourceType w = (Return tt, w)).
  { intros api'. unfold handleSendWith, bind, getWorld.
    destruct H as [H|H]; rewrite H; simpl; [done|].
    by rewrite orb_true_r. }
  repeat split; apply G.
Qed.
End ControllerFacts.

Lemma C4_rejected_submission_witness :
  handleSend (Demo.platform 200 Demo.two_events) None
    (Demo.start Demo.signed_in "   ")
  = (Return tt, Demo.start Demo.signed_in "   ").
Proof.
  apply (C4_rejected_submission (Demo.platform 200 Demo.two_events)
           (streamMessage (Demo.platform 200 Demo.two_events)) None
           (Demo.start Demo.signed_in "   ")).
  left. reflexivity.
Defined.

Section StreamingFacts.
Variable P : Platform.

Lemma withLastMessage_unknown (cid : jsstring) (k : Message -> M unit)
    (w : World) :
  JsMap.get cid (conversations (chat w)) = None ->
  withLastMessage cid k w = (Return tt, w).
Proof. intros H. unfold withLastMessage, bind, getWorld. by rewrite H. Qed.

Lemma withLastMessage_empty (cid : jsstring) (k : Message -> M unit)
    (w : World) (conv : Conversation) :
  JsMap.get cid (conversations (chat w)) = Some conv ->
  messages conv = [] ->
  withLastMessage cid k w = (Return tt, w).
Proof.
  intros H He. unfold withLastMessage, bind, getWorld. by rewrite H, He.
Qed.

Lemma withLastMessage_last (cid : jsstring) (k : Message -> M unit)
    (w : World) (conv : Conversation) (m : Message) :
  JsMap.get cid (conversations (chat w)) = Some conv ->
  last (messages conv) = Some m ->
  withLastMessage cid k w = k m w.
Proof.
  intros H Hl. unfold withLastMessage, bind, getWorld. by rewrite H, Hl.
Qed.

(** The update a token or a completion event asks for, and the value of
    [fullContent] after it. *)
Lemma onChunk_token (cid fullContent : jsstring) (chunk : StreamChunk)
    (w : World) :
  chunk_type chunk = Some (js "token") ->
  onChunk P cid fullContent chunk w
  = ((withLastMessage cid (fun lastMessage =>
        if bool_decide (role lastMessage = assistant) then
          updateMessage P cid (id lastMessage)
            (content_only (fullContent ++ appended (chunk_content chunk)))
        else ret tt)) ;;;
     ret (fullContent ++ appended (chunk_content chunk))) w.
Proof.
  intros H. unfold onChunk. destruct chunk; [discriminate|]. by rewrite H.
Qed.

Lemma onChunk_complete (cid fullContent : jsstring) (chunk : StreamChunk)
    (w : World) :
  chunk_type chunk = Some (js "complete") ->
  onChunk P cid fullContent chunk w
  = ((withLastMessage cid (fun lastMessage =>
        if bool_decide (role lastMessage = assistant) then
          updateMessage P cid (id lastMessage)
            (content_and_sources
               (JsString.or_else (chunk_answer chunk) fullContent)
               (chunk_sources chunk))
        else ret tt)) ;;;
     ret fullContent) w.
Proof.
  intros H. unfold onChunk. destruct chunk; [discriminate|]. by rewrite H.
Qed.

(** A [null] in the stream: the read of [chunk.type] throws. *)
Lemma onChunk_null (cid fullContent : jsstring) (w : World) :
  onChunk P cid fullContent JsonNull w = (Throw (null_TypeError P), w).
Proof. reflexivity. Qed.

Lemma null_or_value (chunk : StreamChunk) :
  chunk = JsonNull \/ chunk <> JsonNull.
Proof. destruct chunk; [by left | by right]. Qed.

Lemma typed_value (chunk : StreamChunk) (kind : jsstring) :
  chunk_type chunk = Some kind -> chunk <> JsonNull.
Proof. by intros H ->. Qed.

(** Any other value goes through the branches on [chunk.type]. *)
Lemma onChunk_value (cid fullContent : jsstring) (chunk : StreamChunk) :
  chunk <> JsonNull ->
  onChunk P cid fullContent chunk
  = if bool_decide (chunk_type chunk = Some (js "token")) then
      withLastMessage cid (fun lastMessage =>
        if bool_decide (role lastMessage = assistant) then
          updateMessage P cid (id lastMessage)
            (content_only (fullContent ++ appended (chunk_content chunk)))
        else ret tt) ;;;
      ret (fullContent ++ appended (chunk_content chunk))
    else if bool_decide (chunk_type chunk = Some (js "complete")) then
      withLastMessage cid (fun lastMessage =>
        if bool_decide (role lastMessage = assistant) then
          updateMessage P cid (id lastMessage)
            (content_and_sources
               (JsString.or_else (chunk_answer chunk) fullContent)
               (chunk_sources chunk))
        else ret tt) ;;;
      ret fullContent
    else if bool_decide (chunk_type chunk = Some (js "error")) then
      throw (JsString.or_else (chunk_error chunk) (js "Unknown error"))
    else ret fullContent.
Proof. by destruct chunk. Qed.

Lemma replay_value (typeError : jsstring) (chunk : StreamChunk)
    (rest : list StreamChunk) (fullContent shown : jsstring)
    (srcs : option (list Source)) :
  chunk <> JsonNull ->
  replay typeError (chunk :: rest) fullContent shown srcs
  = if bool_decide (chunk_type chunk = Some (js "token")) then
      replay typeError rest (fullContent ++ appended (chunk_content chunk))
        (fullContent ++ appended (chunk_content chunk)) srcs
    else if bool_decide (chunk_type chunk = Some (js "complete")) then
      replay typeError rest fullContent
        (JsString.or_else (chunk_answer chunk) fullContent)
        (chunk_sources chunk)
    else if bool_decide (chunk_type chunk = Some (js "error")) then
      mkReplayed fullContent shown srcs
        (Some (JsString.or_else (chunk_error chunk) (js "Unknown error")))
    else replay typeError rest fullContent shown srcs.
Proof. by destruct chunk. Qed.

(** Both kinds of event go through the same guard. *)
Lemma onChunk_guarded (cid fullContent : jsstring) (chunk : StreamChunk)
    (w : World) :
  chunk_type chunk = Some (js "token")
  \/ chunk_type chunk = Some (js "complete") ->
  exists u fullContent',
    content_sources_only u
    /\ (chunk_type chunk = Some (js "token") -> upd_sources u = None)
    /\ onChunk P cid fullContent chunk w
       = ((withLastMessage cid (fun lastMessage =>
             if bool_decide (role lastMessage = assistant) then
               updateMessage P cid (id lastMessage) u
             else ret tt)) ;;;
          ret fullContent') w.
Proof.
  intros [H|H].
  - eexists _, _. split; [|split; [|by apply onChunk_token]].
    + by repeat split.
    + done.
  - eexists _, _. split; [|split; [|by apply onChunk_complete]].
    + by repeat split.
    + rewrite H. discriminate.
Qed.

Lemma last_touch (l : list Message) (m : Message) (u : Updates) :
  last l = Some m -> last (map (touch (id m) u) l) = Some (spread m u).
Proof.
  intros H. change (map (touch (id m) u) l) with (touch (id m) u <$> l).
  rewrite fmap_last, H. simpl. unfold touch.
  by rewrite bool_decide_eq_true_2.
Qed.


End StreamingFacts.


(** ** Where sources come from *)

Lemma no_new_sources_refl (s : ChatState) : no_new_sources s s.
Proof. intros k conv i m Hk Hi _. by exists conv, m. Qed.

Lemma no_new_sources_trans (s1 s2 s3 : ChatState) :
  no_new_sources s1 s2 -> no_new_sources s2 s3 -> no_new_sources s1 s3.
Proof.
  intros H12 H23 k conv3 i m3 Hk Hi Hs.
  destruct (H23 k conv3 i m3 Hk Hi Hs) as (conv2 & m2 & Hk2 & Hi2 & Hid2 & Hs2).
  destruct (H12 k conv2 i m2 Hk2 Hi2) as (conv1 & m1 & Hk1 & Hi1 & Hid1 & Hs1);
    [congruence|].
  exists conv1, m1. repeat split; congruence.
Qed.

Lemma no_new_sources_same_conversations (s s' : ChatState) :
  conversations s' = conversations s -> no_new_sources s s'.
Proof.
  intros H k conv i m Hk Hi _. rewrite H in Hk. by exists conv, m.
Qed.

Lemma no_new_sources_updateMessage now (cid mid : jsstring) (u : Updates)
    (s : ChatState) :
  upd_id u = None -> upd_sources u = None ->
  no_new_sources s (ChatStore.updateMessage now cid mid u s).
Proof.
  intros Hid Hsrc.
  destruct (JsMap.get cid (conversations s)) as [conv|] eqn:Hc.
  - rewrite (updateMessage_known _ _ _ _ _ _ Hc).
    intros k conv' i m' Hk Hi _. simpl in Hk.
    destruct (decide (cid = k)) as [<-|Hne].
    + rewrite get_set_eq in Hk. inversion Hk; subst conv'. simpl in Hi.
      apply list_lookup_fmap_Some_1 in Hi as (m & -> & Hi).
      exists conv, m. repeat split; auto; unfold touch, spread;
        destruct (bool_decide (id m = mid)); simpl; auto.
      * by rewrite Hid.
      * by rewrite Hsrc.
    + rewrite get_set_ne in Hk by done. by exists conv', m'.
  - rewrite updateMessage_absent by done. apply no_new_sources_refl.
Qed.

Lemma no_new_sources_addMessage (newId : jsstring) (stamp now : Z)
    (cid : jsstring) (msg : NewMessage) (s : ChatState) :
  new_sources msg = None ->
  no_new_sources s (ChatStore.addMessage newId stamp now cid msg s).
Proof.
  intros Hsrc.
  destruct (JsMap.get cid (conversations s)) as [conv|] eqn:Hc.
  - rewrite (addMessage_known _ _ _ _ _ _ _ Hc).
    intros k conv' i m' Hk Hi Hm'. simpl in Hk.
    destruct (decide (cid = k)) as [<-|Hne].
    + rewrite get_set_eq in Hk. inversion Hk; subst conv'. simpl in Hi.
      apply lookup_snoc_Some in Hi as [[_ Hi]|[_ <-]].
      * by exists conv, m'.
      * simpl in Hm'. congruence.
    + rewrite get_set_ne in Hk by done. by exists conv', m'.
  - rewrite addMessage_absent by done. apply no_new_sources_refl.
Qed.

Lemma no_new_sources_createConversation (newId : jsstring) (created updated : Z)
    (s : ChatState) :
  no_new_sources s (ChatStore.createConversation newId created updated s).
Proof.
  intros k conv' i m' Hk Hi _. simpl in Hk.
  destruct (decide (newId = k)) as [<-|Hne].
  - rewrite get_set_eq in Hk. inversion Hk; subst conv'. simpl in Hi.
    by rewrite lookup_nil in Hi.
  - rewrite get_set_ne in Hk by done. by exists conv', m'.
Qed.

Lemma no_new_sources_dispatched (cid mc id1 : jsstring) (st1 n1 : Z)
    (id2 : jsstring) (st2 n2 : Z) (s0 : ChatState) :
  no_new_sources s0 (dispatched cid mc id1 st1 n1 id2 st2 n2 s0).
Proof.
  unfold dispatched.
  eapply no_new_sources_trans;
    [|apply no_new_sources_same_conversations; reflexivity].
  eapply no_new_sources_trans; by apply no_new_sources_addMessage.
Qed.

(** *** The store after [dispatch] *)

Lemma dispatched_flags (cid mc id1 : jsstring) (st1 n1 : Z)
    (id2 : jsstring) (st2 n2 : Z) (s0 : ChatState) :
  let s1 := dispatched cid mc id1 st1 n1 id2 st2 n2 s0 in
  isLoading s1 = true /\ error s1 = None
  /\ currentConversationId s1 = currentConversationId s0.
Proof.
  simpl. unfold dispatched. repeat split.
  unfold ChatStore.addMessage.
  destruct (JsMap.get cid (conversations s0)) as [conv|] eqn:Hc; simpl.
  - rewrite get_set_eq. reflexivity.
  - rewrite Hc. reflexivity.
Qed.

(** The conversation of the exchange, when the store has it, ends with the
    user's message and the empty placeholder. *)
Lemma dispatched_conversation (cid mc id1 : jsstring) (st1 n1 : Z)
    (id2 : jsstring) (st2 n2 : Z) (s0 : ChatState) (conv : Conversation) :
  JsMap.get cid (conversations (dispatched cid mc id1 st1 n1 id2 st2 n2 s0))
  = Some conv ->
  exists conv0,
    JsMap.get cid (conversations s0) = Some conv0
    /\ messages conv
       = messages conv0
         ++ [mkMessage id1 user mc None st1; mkMessage id2 assistant [] None st2].
Proof.
  unfold dispatched. simpl.
  destruct (JsMap.get cid (conversations s0)) as [conv0|] eqn:Hc.
  - rewrite (addMessage_known id1 _ _ _ _ _ _ Hc).
    erewrite addMessage_known by (simpl; apply get_set_eq).
    simpl. rewrite get_set_eq. intros H. inversion H; subst conv. simpl.
    exists conv0. split; [done|]. by rewrite <- app_assoc.
  - rewrite (addMessage_absent id1) by done.
    rewrite addMessage_absent by done. congruence.
Qed.

(** ** The exchange, phase by phase *)

Section ExchangeFacts.
Variable P : Platform.

(** [dispatch] never throws; it resolves the conversation, creating one when
    no id is active, and leaves the store [dispatched]. *)
Lemma dispatch_run (w : World) :
  exists cid s0 id1 st1 n1 id2 st2 n2 w1,
    dispatch P w = (Return (JsString.trim (input w), cid), w1)
    /\ chat w1
       = dispatched cid (JsString.trim (input w)) id1 st1 n1 id2 st2 n2 s0
    /\ currentConversationId s0 = Some cid
    /\ (s0 = chat w
        \/ exists created updated,
             s0 = ChatStore.createConversation cid created updated (chat w))
    /\ auth w1 = auth w /\ requests w1 = requests w.
Proof.
  unfold dispatch.
  rewrite (bind_return getWorld _ w w w eq_refl).
  erewrite bind_return by reflexivity.
  set (wa := mkWorld (chat w) (auth w) [] (requests w) (clock_reads w)
               (random_reads w)).
  assert (Hres : exists cid s0 wb,
            match currentConversationId (chat w) with
            | Some cid =>
                if JsString.truthy cid then ret cid else createConversation P
            | None => createConversation P
            end wa = (Return cid, wb)
            /\ chat wb = s0
            /\ currentConversationId s0 = Some cid
            /\ (s0 = chat w
                \/ exists created updated,
                     s0 = ChatStore.createConversation cid created updated
                            (chat w))
            /\ auth wb = auth w /\ requests wb = requests w).
  { assert (Hnew : exists cid s0 wb,
              createConversation P wa = (Return cid, wb)
              /\ chat wb = s0
              /\ currentConversationId s0 = Some cid
              /\ (s0 = chat w
                  \/ exists created updated,
                       s0 = ChatStore.createConversation cid created updated
                              (chat w))
              /\ auth wb = auth w /\ requests wb = requests w).
    { destruct (createConversation_run P wa)
        as (newId & c & u & wb & Hrun & Hchat & Hauth & Hreq & _).
      exists newId, (chat wb), wb. rewrite Hchat.
      repeat split; auto. right. by exists c, u. }
    destruct (currentConversationId (chat w)) as [cid|] eqn:Hcur; [|exact Hnew].
    destruct (JsString.truthy cid); [|exact Hnew].
    exists cid, (chat w), wa. repeat split; auto. }
  destruct Hres as (cid & s0 & wb & Hrun & Hchat & Hcur & Hs0 & Hauth & Hreq).
  rewrite (bind_return _ _ _ _ _ Hrun).
  destruct (addMessage_run P cid
              (mkNewMessage user (JsString.trim (input w)) None) wb)
    as (id1 & st1 & n1 & wc & Hrun1 & Hchat1 & Hauth1 & Hreq1 & _).
  rewrite (bind_return _ _ _ _ _ Hrun1).
  erewrite bind_return by reflexivity.
  match goal with
  | |- context [addMessage P cid ?msg ;;; _] =>
      match goal with
      | |- context [bind _ _ ?wd] =>
          destruct (addMessage_run P cid msg wd)
            as (id2 & st2 & n2 & we & Hrun2 & Hchat2 & Hauth2 & Hreq2 & _)
      end
  end.
  rewrite (bind_return _ _ _ _ _ Hrun2).
  exists cid, s0, id1, st1, n1, id2, st2, n2.
  eexists. split; [reflexivity|]. simpl in *.
  unfold dispatched. rewrite Hchat2, Hchat1, Hchat.
  repeat split; auto; congruence.
Qed.

(** The [catch] block never throws: it sets the error and, when the
    conversation ends with an assistant message without content, gives that
    message the apology. *)
Lemma onError_run (cid message : jsstring) (w : World) :
  exists w',
    onError P cid message w = (Return tt, w')
    /\ auth w' = auth w /\ requests w' = requests w
    /\ (chat w' = ChatStore.setError (Some message) (chat w)
        \/ exists now conv m,
             JsMap.get cid (conversations (chat w)) = Some conv
             /\ last (messages conv) = Some m
             /\ role m = assistant /\ content m = []
             /\ chat w'
                = ChatStore.updateMessage now cid (id m) (content_only apology)
                    (ChatStore.setError (Some message) (chat w))).
Proof.
  unfold onError, setError.
  erewrite bind_return by reflexivity.
  set (w0 := mkWorld _ _ _ _ _ _).
  destruct (JsMap.get cid (conversations (chat w))) as [conv|] eqn:Hc.
  - destruct (last (messages conv)) as [m|] eqn:Hl.
    + rewrite (withLastMessage_last cid _ w0 conv m Hc Hl).
      destruct (bool_decide (role m = assistant)) eqn:Hr; simpl.
      * destruct (JsString.truthy (content m)) eqn:Ht; simpl.
        -- exists w0. auto.
        -- destruct (updateMessage_run P cid (id m) (content_only apology) w0)
             as (w1 & Hrun & Hchat & Hauth & Hreq & _).
           exists w1. repeat split; auto. right.
           exists (clock P (clock_reads w0)), conv, m.
           apply bool_decide_eq_true_1 in Hr.
           repeat split; auto. by destruct (content m).
      * exists w0. auto.
    + apply last_None in Hl.
      rewrite (withLastMessage_empty cid _ w0 conv Hc Hl). exists w0. auto.
  - rewrite (withLastMessage_unknown cid _ w0 Hc). exists w0. auto.
Qed.

(** What the [catch] block leaves, whichever way it went. *)
Lemma onError_flags (cid message : jsstring) (w : World) :
  let w' := snd (onError P cid message w) in
  error (chat w') = Some message
  /\ isLoading (chat w') = isLoading (chat w)
  /\ currentConversationId (chat w') = currentConversationId (chat w)
  /\ no_new_sources (chat w) (chat w').
Proof.
  destruct (onError_run cid message w)
    as (w' & Hrun & _ & _ & [Hchat|(now & conv & m & Hc & _ & _ & _ & Hchat)]);
    rewrite Hrun; simpl; rewrite Hchat.
  - repeat split. by apply no_new_sources_same_conversations.
  - split; [|split; [|split]];
      try (erewrite updateMessage_known by (simpl; exact Hc); reflexivity).
    eapply no_new_sources_trans;
      [apply (no_new_sources_same_conversations _
                (ChatStore.setError (Some message) (chat w))); reflexivity|].
    by apply no_new_sources_updateMessage.
Qed.

(** The exchange when the client throws before its reading loop. *)
Lemma exchange_api_throws
    (api : jsstring -> option jsstring -> option jsstring -> M Stream)
    (sourceType : option jsstring) (mc cid e : jsstring) (w wt : World) :
  api mc sourceType (Some cid) w = (Throw e, wt) ->
  exchange P api sourceType mc cid w
  = (Return tt,
     let w' := snd (onError P cid e wt) in
     mkWorld (ChatStore.setLoading false (chat w')) (auth w') (input w')
       (requests w') (clock_reads w') (random_reads w')).
Proof.
  intros H. unfold exchange, try_finally, try_catch.
  rewrite (bind_throw _ _ _ _ _ H).
  destruct (onError_run cid e wt) as (w' & Hrun & _). by rewrite Hrun.
Qed.

Lemma handleSendWith_accepted
    (api : jsstring -> option jsstring -> option jsstring -> M Stream)
    (sourceType : option jsstring) (w : World) :
  JsString.trim (input w) <> [] -> isLoading (chat w) = false ->
  handleSendWith P api sourceType w
  = (sent <- dispatch P ;; exchange P api sourceType (fst sent) (snd sent)) w.
Proof.
  intros Hin Hl. unfold handleSendWith at 1.
  rewrite (bind_return getWorld _ w w w eq_refl), Hl.
  by destruct (JsString.trim (input w)).
Qed.
End ExchangeFacts.

(** ** Failing before the stream *)

Section FailureFacts.
Variable P : Platform.

(** The [catch] block on a conversation that ends with an empty assistant
    message: the message gets the apology. *)
Lemma onError_placeholder (cid message : jsstring) (w : World)
    (conv : Conversation) (m : Message) :
  JsMap.get cid (conversations (chat w)) = Some conv ->
  last (messages conv) = Some m ->
  role m = assistant -> content m = [] ->
  exists conv' m',
    JsMap.get cid (conversations (chat (snd (onError P cid message w))))
    = Some conv'
    /\ last (messages conv') = Some m'
    /\ id m' = id m /\ role m' = assistant /\ content m' = apology
    /\ sources m' = sources m.
Proof.
  intros Hc Hl Hr Hm. unfold onError, setError.
  erewrite bind_return by reflexivity.
  erewrite withLastMessage_last by (simpl; eauto).
  cbn beta. rewrite Hr, Hm. simpl.
  match goal with
  | |- context [updateMessage P cid (id m) ?u ?w0] =>
      destruct (updateMessage_run P cid (id m) u w0)
        as (w1 & -> & Hchat & _)
  end.
  simpl. rewrite Hchat.
  erewrite updateMessage_known by (simpl; exact Hc). simpl.
  rewrite get_set_eq. eexists _, _. split; [reflexivity|]. simpl.
  split; [by apply last_touch|]. unfold spread. simpl. auto.
Qed.

Lemma onError_absent (cid message : jsstring) (w : World) :
  JsMap.get cid (conversations (chat w)) = None ->
  JsMap.get cid (conversations (chat (snd (onError P cid message w)))) = None.
Proof.
  intros Hc. unfold onError, setError.
  erewrite bind_return by reflexivity.
  by rewrite withLastMessage_unknown.
Qed.

(** An exchange whose client throws [e] before reading any event: the
    controller ends in its failed state. *)
Lemma failed_before_stream
    (api : jsstring -> option jsstring -> option jsstring -> M Stream)
    (sourceType : option jsstring) (e : jsstring) (w : World)
    (Post : AuthState -> list Request -> Prop) :
  JsString.trim (input w) <> [] -> isLoading (chat w) = false ->
  (forall mc cid w1,
     auth w1 = auth w -> requests w1 = requests w ->
     exists wt,
       api mc sourceType (Some cid) w1 = (Throw e, wt)
       /\ chat wt = chat w1 /\ Post (auth wt) (requests wt)) ->
  let w' := snd (handleSendWith P api sourceType w) in
  fst (handleSendWith P api sourceType w) = Return tt
  /\ error (chat w') = Some e
  /\ isLoading (chat w') = false
  /\ Post (auth w') (requests w')
  /\ no_new_sources (chat w) (chat w')
  /\ exists cid,
       currentConversationId (chat w') = Some cid
       /\ forall conv,
            JsMap.get cid (conversations (chat w')) = Some conv ->
            exists m,
              last (messages conv) = Some m
              /\ role m = assistant /\ content m = apology.
Proof.
  intros Hin Hl Hapi. simpl.
  rewrite (handleSendWith_accepted P api sourceType w Hin Hl).
  destruct (dispatch_run P w)
    as (cid & s0 & id1 & st1 & n1 & id2 & st2 & n2 & w1
        & Hrun & Hchat & Hcur & Hs0 & Hauth & Hreq).
  rewrite (bind_return _ _ _ _ _ Hrun). simpl.
  destruct (Hapi (JsString.trim (input w)) cid w1 Hauth Hreq)
    as (wt & Hthrow & Hct & Hpost).
  rewrite (exchange_api_throws P api sourceType _ _ _ _ _ Hthrow). simpl.
  destruct (onError_run P cid e wt) as (w2 & Hrun2 & Hauth2 & Hreq2 & _).
  pose proof (onError_flags P cid e wt) as (Herr & Hload & Hcur2 & Hnns).
  pose proof (dispatched_flags cid (JsString.trim (input w))
                id1 st1 n1 id2 st2 n2 s0) as (_ & _ & Hcur1).
  cbv zeta in Hcur1. rewrite <- Hchat, <- Hct, Hcur in Hcur1.
  assert (Hsrc : no_new_sources (chat w) (chat wt)).
  { rewrite Hct, Hchat.
    eapply no_new_sources_trans; [|apply no_new_sources_dispatched].
    destruct Hs0 as [->|(c & u & ->)];
      [apply no_new_sources_refl | apply no_new_sources_createConversation]. }
  assert (Hlast : forall conv,
            JsMap.get cid (conversations (chat (snd (onError P cid e wt))))
            = Some conv ->
            exists m,
              last (messages conv) = Some m
              /\ role m = assistant /\ content m = apology).
  { intros conv Hconv.
    destruct (JsMap.get cid (conversations (chat wt))) as [conv1|] eqn:Hc1.
    - pose proof Hc1 as Hc1'. rewrite Hct, Hchat in Hc1'.
      apply dispatched_conversation in Hc1' as (conv0 & _ & Hmsgs).
      destruct (onError_placeholder cid e wt conv1
                  (mkMessage id2 assistant [] None st2) Hc1)
        as (conv' & m' & Hget & Hl' & _ & Hrole & Hcont & _); try done.
      { rewrite Hmsgs. by rewrite last_app. }
      rewrite Hget in Hconv. inversion Hconv; subst conv'. by exists m'.
    - pose proof (onError_absent cid e wt Hc1) as Habs. congruence. }
  rewrite Hrun2 in Herr, Hload, Hcur2, Hnns, Hlast |- *. simpl in *.
  split; [done|]. split; [exact Herr|]. split; [done|].
  split; [by rewrite Hauth2, Hreq2|]. split.
  - eapply no_new_sources_trans; eauto.
  - exists cid. split; [congruence | exact Hlast].
Qed.

Lemma streamMessage_no_token (message : jsstring)
    (sourceType conversationId : option jsstring) (w : World) :
  accessToken (auth w) = None \/ accessToken (auth w) = Some [] ->
  streamMessage P message sourceType conversationId w
  = (Throw (js "Not authenticated. Please sign in."), w).
Proof.
  intros H. unfold streamMessage.
  rewrite (bind_return getWorld _ w w w eq_refl).
  by destruct H as [-> | ->].
Qed.


(** The error body is read before anything else is done about a refusal:
    when that read is rejected, its error is the one thrown, whatever the
    status, and the credentials are as they were. *)
Lemma streamMessage_unread (message : jsstring)
    (sourceType conversationId : option jsstring) (w : World)
    (token e : jsstring) (r : Response) :
  accessToken (auth w) = Some token -> token <> [] ->
  server P (mkRequest (Some token) message sourceType conversationId true)
  = Resolved r ->
  ok r = false ->
  text_rejected r = Some e ->
  streamMessage P message sourceType conversationId w
  = (Throw e,
     mkWorld (chat w) (auth w) (input w)
       (requests w
        ++ [mkRequest (Some token) message sourceType conversationId true])
       (clock_reads w) (random_reads w)).
Proof.
  intros Ht Hne Hs Hok Hread. unfold streamMessage.
  rewrite (bind_return getWorld _ w w w eq_refl), Ht.
  destruct token as [|c token]; [done|]. simpl.
  erewrite bind_return; cycle 1.
  { unfold fetch. rewrite Hs. reflexivity. }
  unfold bind, readText. by rewrite Hok, Hread.
Qed.

(** C5: an exchange started with no token in the authentication store (or
    an empty one) ends failed: the error is the one asking to sign in, the
    loading flag is cleared, the placeholder of the conversation carries the
    apology, and no request has been sent. *)
Theorem C5_missing_credential (sourceType : option jsstring) (w : World) :
  JsString.trim (input w) <> [] -> isLoading (chat w) = false ->
  accessToken (auth w) = None \/ accessToken (auth w) = Some [] ->
  let w' := snd (handleSend P sourceType w) in
  fst (handleSend P sourceType w) = Return tt
  /\ error (chat w') = Some (js "Not authenticated. Please sign in.")
  /\ isLoading (chat w') = false
  /\ requests w' = requests w
  /\ auth w' = auth w
  /\ exists cid,
       currentConversationId (chat w') = Some cid
       /\ forall conv,
            JsMap.get cid (conversations (chat w')) = Some conv ->
            exists m,
              last (messages conv) = Some m
              /\ role m = assistant /\ content m = apology.
Proof.
  intros Hin Hl Htok.
  destruct (failed_before_stream (streamMessage P) sourceType
              (js "Not authenticated. Please sign in.") w
              (fun a rs => rs = requests w /\ a = auth w) Hin Hl)
    as (H1 & H2 & H3 & [H4 H5] & _ & H6).
  { intros mc cid w1 Ha Hr. exists w1.
    rewrite streamMessage_no_token by (by rewrite Ha). auto. }
  unfold handleSend. simpl. auto 10.
Qed.

End FailureFacts.

Lemma C5_missing_credential_witness :
  error
    (chat (snd (handleSend (Demo.platform 200 Demo.two_events) None
                  (Demo.start AuthStore.initial "Hello"))))
  = Some (js "Not authenticated. Please sign in.")
  /\ requests (snd (handleSend (Demo.platform 200 Demo.two_events) None
                      (Demo.start AuthStore.initial "Hello")))
     = [].
Proof.
  destruct (C5_missing_credential (Demo.platform 200 Demo.two_events) None
              (Demo.start AuthStore.initial "Hello"))
    as (_ & He & _ & Hr & _).
  - vm_compute. discriminate.
  - reflexivity.
  - left. reflexivity.
  - split; [exact He | exact Hr].
Defined.

(** C6: a 401 answer whose body cannot be read to its end.  The client
    reads the error body, for its log, before it looks at the status: the
    rejection of that read is what [handleSend] catches.  The exchange ends
    failed with that error, the loading flag cleared and the apology in the
    placeholder, but the credentials are not cleared: the store still has
    the token the service has just refused. *)
Theorem C6_unread_error_body :
  let w := Demo.start Demo.signed_in "Hello" in
  let w' := snd (handleSend Unread.platform None w) in
  server Unread.platform
    (mkRequest (Some (js "tok")) (js "Hello") None
       (Some (js "conv_1000_abc")) true)
  = Resolved (mkResponse 401 (Some ([], Some (js "network error"))))
  /\ requests w'
     = [mkRequest (Some (js "tok")) (js "Hello") None
          (Some (js "conv_1000_abc")) true]
  /\ error (chat w') = Some (js "network error")
  /\ auth w' = Demo.signed_in
  /\ auth w' <> mkAuthState None None false
  /\ isLoading (chat w') = false
  /\ map (fun c => map (fun m => (role m, content m)) (messages c))
       (JsMap.values (conversations (chat w')))
     = [[(user, js "Hello"); (assistant, apology)]].
Proof. vm_compute. repeat split; discriminate. Qed.

(** The failed exchange of Scenario D, run. *)
Example scenario_D :
  let w := snd (handleSend (Demo.platform 401 []) None
                  (Demo.start Demo.signed_in "Hello")) in
  map (fun c => map (fun m => (role m, content m)) (messages c))
      (JsMap.values (conversations (chat w)))
  = [[(user, js "Hello"); (assistant, apology)]]
  /\ accessToken (auth w) = None
  /\ isLoading (chat w) = false
  /\ length (requests w) = 1%nat.
Proof. vm_compute. auto. Qed.

(** ** Sources are attached by completion events only *)

Section SourcesFacts.
Variable P : Platform.








Lemma keeps_addMessage (cid : jsstring) (msg : NewMessage) :
  new_sources msg = None -> keeps no_new_sources (addMessage P cid msg).
Proof.
  intros Hs w.
  destruct (addMessage_run P cid msg w)
    as (i & s & n & w' & Hrun & Hchat & _).
  rewrite Hrun. simpl. rewrite Hchat.
  by apply no_new_sources_addMessage.
Qed.

Lemma keeps_createConversation : keeps no_new_sources (createConversation P).
Proof.
  intros w.
  destruct (createConversation_run P w)
    as (i & c & u & w' & Hrun & Hchat & _).
  rewrite Hrun. simpl. rewrite Hchat.
  apply no_new_sources_createConversation.
Qed.










End SourcesFacts.

Example scenario_C :
  let w := snd (handleSend ScenarioC.platform None
                  (Demo.start Demo.signed_in "Hello")) in
  map (fun c => map (fun m => (role m, content m, sources m)) (messages c))
      (JsMap.values (conversations (chat w)))
  = [[(user, js "Hello", None);
      (assistant, js "Hello, you.", Some [ScenarioC.doc_a])]]
  /\ isLoading (chat w) = false /\ error (chat w) = None.
Proof. vm_compute. auto. Qed.

Section CompletionFacts.
Variable P : Platform.

End CompletionFacts.


(** ** The scenarios of the specification, run *)

Example scenario_A :
  let w := snd (dispatch (Demo.platform 200 []) 
                  (Demo.start Demo.signed_in "What is replication?")) in
  map (fun c => map (fun m => (role m, content m)) (messages c))
      (JsMap.values (conversations (chat w)))
  = [[(user, js "What is replication?"); (assistant, [])]]
  /\ isLoading (chat w) = true
  /\ currentConversationId (chat w) = Some (js "conv_1000_abc").
Proof. vm_compute. auto. Qed.

Example scenario_E :
  let s := ChatStore.deleteConversation (js "c1") Sample.store in
  currentConversationId s = None
  /\ ChatStore.listConversations s = [Sample.c2].
Proof. vm_compute. auto. Qed.

(** An error event ends the exchange with its message; the tokens received
    stay, so no apology is written. *)
Example error_event_run :
  let w := snd (handleSend (Broken.platform Broken.with_error_event None) None
                  (Demo.start Demo.signed_in "Hello")) in
  map (fun c => map (fun m => (role m, content m)) (messages c))
      (JsMap.values (conversations (chat w)))
  = [[(user, js "Hello"); (assistant, js "Hi")]]
  /\ error (chat w) = Some (js "boom")
  /\ isLoading (chat w) = false.
Proof. vm_compute. auto. Qed.

(** A [read()] rejected before any event: the placeholder gets the apology. *)
Example rejected_read_run :
  let w := snd (handleSend (Broken.platform [] (Some (js "network error")))
                  None (Demo.start Demo.signed_in "Hello")) in
  map (fun c => map (fun m => (role m, content m)) (messages c))
      (JsMap.values (conversations (chat w)))
  = [[(user, js "Hello"); (assistant, apology)]]
  /\ error (chat w) = Some (js "network error")
  /\ isLoading (chat w) = false.
Proof. vm_compute. auto. Qed.

(** The first revision of the client sends its request whatever the
    authentication store holds, and does not look at the status. *)
Lemma streamMessage_v1_sends (P : Platform) (message : jsstring)
    (sourceType conversationId : option jsstring) (w : World) :
  requests (snd (streamMessage_v1 P message sourceType conversationId w))
  = requests w ++ [mkRequest None message sourceType conversationId true].
Proof.
  unfold streamMessage_v1, bind, fetch, readBody.
  destruct (server P _) as [r|e]; [|done].
  by destruct (body r) as [[values rej]|].
Qed.

(** ** Conversations are stored under their own id *)

Lemma well_keyed_set (k : jsstring) (conv : Conversation)
    (m : JsMap.t Conversation) :
  conv_id conv = k ->
  Forall (fun entry => conv_id (snd entry) = fst entry) m ->
  Forall (fun entry => conv_id (snd entry) = fst entry) (JsMap.set k conv m).
Proof.
  intros Hk. induction 1 as [|[k' v'] m Hhd Htl IH]; simpl.
  - by repeat constructor.
  - destruct (bool_decide (k' = k)) eqn:E; constructor; auto.
    apply bool_decide_eq_true_1 in E. simpl. congruence.
Qed.

Lemma well_keyed_get (k : jsstring) (conv : Conversation) (s : ChatState) :
  well_keyed s -> JsMap.get k (conversations s) = Some conv -> conv_id conv = k.
Proof.
  intros Hwf Hget. apply get_Some_elem_of in Hget.
  unfold well_keyed in Hwf. rewrite Forall_forall in Hwf.
  apply (Hwf _ Hget).
Qed.

Lemma well_keyed_initial : well_keyed ChatStore.initial.
Proof. constructor. Qed.

(** Every action of the store keeps the invariant. *)
Lemma well_keyed_actions (s : ChatState) :
  well_keyed s ->
  (forall newId created updated,
     well_keyed (ChatStore.createConversation newId created updated s))
  /\ (forall newId stamp now cid msg,
        well_keyed (ChatStore.addMessage newId stamp now cid msg s))
  /\ (forall now cid mid u, well_keyed (ChatStore.updateMessage now cid mid u s))
  /\ (forall cid, well_keyed (ChatStore.deleteConversation cid s))
  /\ (forall conv, well_keyed (ChatStore.loadConversation conv s))
  /\ (forall convs, well_keyed (ChatStore.loadConversations convs s)).
Proof.
  intros Hwf. repeat split.
  - intros. by apply well_keyed_set.
  - intros newId stamp now cid msg. unfold ChatStore.addMessage.
    destruct (JsMap.get cid (conversations s)) as [conv|] eqn:Hc; [|done].
    apply well_keyed_set; [|done]. simpl. by eapply well_keyed_get.
  - intros now cid mid u. unfold ChatStore.updateMessage.
    destruct (JsMap.get cid (conversations s)) as [conv|] eqn:Hc; [|done].
    apply well_keyed_set; [|done]. simpl. by eapply well_keyed_get.
  - intros cid. unfold well_keyed in *. simpl.
    rewrite Forall_forall in *. intros [k v] Hin.
    apply elem_of_delete in Hin as [_ Hin]. by apply Hwf.
  - intros conv. by apply well_keyed_set.
  - intros convs. unfold well_keyed in *. simpl.
    revert Hwf. generalize (conversations s).
    induction convs as [|conv convs IH]; intros m Hm; simpl; [done|].
    apply IH. by apply well_keyed_set.
Qed.

(** * More of the chat store *)

Section MoreMapFacts.
Context {V : Type}.
Implicit Types (m : JsMap.t V) (k : jsstring) (v : V).

Lemma keys_set_fresh k v m :
  JsMap.get k m = None -> JsMap.keys (JsMap.set k v m) = JsMap.keys m ++ [k].
Proof.
  induction m as [|[k' v'] m IH]; simpl; [done|].
  destruct (bool_decide (k' = k)) eqn:E; [done|].
  intros H. simpl. f_equal. by apply IH.
Qed.

Lemma get_None_not_key k m : JsMap.get k m = None <-> k ∉ JsMap.keys m.
Proof.
  induction m as [|[k' v'] m IH]; simpl.
  - split; [intros _; apply not_elem_of_nil | done].
  - rewrite not_elem_of_cons.
    destruct (bool_decide (k' = k)) eqn:E.
    + apply bool_decide_eq_true_1 in E. split; [done|]. intros [H _]. congruence.
    + apply bool_decide_eq_false_1 in E. rewrite IH. split; [|tauto].
      intros H. split; [congruence | done].
Qed.

Lemma NoDup_keys_set k v m :
  NoDup (JsMap.keys m) -> NoDup (JsMap.keys (JsMap.set k v m)).
Proof.
  intros H. destruct (JsMap.get k m) as [v0|] eqn:E.
  - by rewrite keys_set_known by eauto.
  - rewrite keys_set_fresh by done. apply NoDup_app.
    split; [done|]. split; [|apply NoDup_singleton].
    intros x Hx Hk. apply list_elem_of_singleton in Hk. subst x.
    by apply get_None_not_key in E.
Qed.

Lemma elem_of_keys_delete k k' m :
  k' ∈ JsMap.keys (JsMap.delete k m) -> k' ∈ JsMap.keys m.
Proof.
  induction m as [|[k0 v0] m IH]; simpl; [done|].
  destruct (bool_decide (k0 = k)); simpl; rewrite ?elem_of_cons; tauto.
Qed.

Lemma NoDup_keys_delete k m :
  NoDup (JsMap.keys m) -> NoDup (JsMap.keys (JsMap.delete k m)).
Proof.
  induction m as [|[k0 v0] m IH]; simpl; [done|].
  rewrite NoDup_cons. intros [Hk Hm].
  destruct (bool_decide (k0 = k)); simpl; [auto|].
  apply NoDup_cons. split; [|auto].
  intros Hin. apply Hk. by eapply elem_of_keys_delete.
Qed.

Lemma delete_absent k m : JsMap.get k m = None -> JsMap.delete k m = m.
Proof.
  induction m as [|[k' v'] m IH]; simpl; [done|].
  destruct (bool_decide (k' = k)); [done|]. intros H. by rewrite IH.
Qed.

Lemma is_Some_get_set k k' v m :
  is_Some (JsMap.get k m) -> is_Some (JsMap.get k (JsMap.set k' v m)).
Proof.
  intros H. destruct (decide (k' = k)) as [->|Hne].
  - rewrite get_set_eq. eauto.
  - by rewrite get_set_ne.
Qed.

Lemma elem_of_is_Some_get k v m : (k, v) ∈ m -> is_Some (JsMap.get k m).
Proof.
  induction m as [|[k' v'] m IH]; simpl.
  - intros H. by apply elem_of_nil in H.
  - intros H. destruct (bool_decide (k' = k)) eqn:E; [eauto|].
    apply bool_decide_eq_false_1 in E.
    apply elem_of_cons in H as [H|H]; [congruence | auto].
Qed.
End MoreMapFacts.

(** X1: [createConversation] makes the new conversation the active one; it is
    in the store under its id, empty, with the two dates read; the
    conversations under other ids, the loading flag and the error are
    untouched; and when the id is new the conversation comes last in the
    store's order. *)
Theorem X1_createConversation (newId : jsstring) (created updated : Z)
    (s : ChatState) :
  let s' := ChatStore.createConversation newId created updated s in
  currentConversationId s' = Some newId
  /\ JsMap.get newId (conversations s')
     = Some (mkConversation newId [] created updated)
  /\ (forall k, k <> newId ->
        JsMap.get k (conversations s') = JsMap.get k (conversations s))
  /\ isLoading s' = isLoading s /\ error s' = error s
  /\ (JsMap.get newId (conversations s) = None ->
      JsMap.keys (conversations s')
      = JsMap.keys (conversations s) ++ [newId]).
Proof.
  simpl. split; [done|]. split; [apply get_set_eq|].
  split; [intros k Hk; by apply get_set_ne|].
  split; [done|]. split; [done|]. apply keys_set_fresh.
Qed.

Lemma X1_createConversation_witness :
  JsMap.keys
    (conversations (ChatStore.createConversation (js "c3") 30 30 Sample.store))
  = [js "c1"; js "c2"; js "c3"]
  /\ JsMap.get (js "c1")
       (conversations (ChatStore.createConversation (js "c3") 30 30
                         Sample.store))
     = Some Sample.c1.
Proof.
  pose proof (X1_createConversation (js "c3") 30 30 Sample.store) as H.
  cbv zeta in H. destruct H as (_ & _ & Hother & _ & _ & Hkeys).
  split.
  - apply Hkeys. reflexivity.
  - apply Hother. discriminate.
Defined.

(** X2: [addMessage] on a conversation of the store appends one message, the
    last of the conversation from then on, with the role, content and sources
    it was given, the id and timestamp generated for it, and stamps the
    conversation; on an id the store does not have it returns the state it
    was given. *)
Theorem X2_addMessage (newId : jsstring) (stamp now : Z) (cid : jsstring)
    (msg : NewMessage) (s : ChatState) :
  let s' := ChatStore.addMessage newId stamp now cid msg s in
  (JsMap.get cid (conversations s) = None -> s' = s)
  /\ (forall conv,
        JsMap.get cid (conversations s) = Some conv ->
        exists conv',
          JsMap.get cid (conversations s') = Some conv'
          /\ messages conv'
             = messages conv
               ++ [mkMessage newId (new_role msg) (new_content msg)
                     (new_sources msg) stamp]
          /\ last (messages conv')
             = Some (mkMessage newId (new_role msg) (new_content msg)
                       (new_sources msg) stamp)
          /\ length (messages conv') = S (length (messages conv))
          /\ updatedAt conv' = now
          /\ JsMap.keys (conversations s') = JsMap.keys (conversations s)).
Proof.
  simpl. split; [apply addMessage_absent|].
  intros conv Hc. rewrite (addMessage_known _ _ _ _ _ _ _ Hc). simpl.
  rewrite get_set_eq. eexists. split; [reflexivity|]. simpl.
  split; [done|]. split; [apply last_snoc|].
  split; [rewrite length_app; simpl; lia|]. split; [done|].
  apply keys_set_known. eauto.
Qed.

Lemma X2_addMessage_witness :
  ChatStore.addMessage (js "m3") 30 31 (js "c9")
    (mkNewMessage user (js "Hi") None) Sample.store
  = Sample.store
  /\ exists conv',
       JsMap.get (js "c2")
         (conversations
            (ChatStore.addMessage (js "m3") 30 31 (js "c2")
               (mkNewMessage user (js "Hi") None) Sample.store))
       = Some conv'
       /\ messages conv' = [mkMessage (js "m3") user (js "Hi") None 30].
Proof.
  split.
  - apply (proj1 (X2_addMessage (js "m3") 30 31 (js "c9")
                    (mkNewMessage user (js "Hi") None) Sample.store)).
    reflexivity.
  - destruct (proj2 (X2_addMessage (js "m3") 30 31 (js "c2")
                       (mkNewMessage user (js "Hi") None) Sample.store)
                Sample.c2 eq_refl)
      as (conv' & Hget & Hmsgs & _).
    exists conv'. split; [exact Hget | exact Hmsgs].
Defined.

(** X3: a message added and then updated by its id.  When no earlier message
    of the conversation has the new id, [updateMessage] with a content
    changes the new message only: the conversation keeps its earlier messages
    and ends with the new one, its content replaced. *)
Theorem X3_add_then_update (newId : jsstring) (stamp now now' : Z)
    (cid : jsstring) (msg : NewMessage) (c : jsstring) (s : ChatState)
    (conv : Conversation) :
  JsMap.get cid (conversations s) = Some conv ->
  Forall (fun m => id m <> newId) (messages conv) ->
  JsMap.get cid
    (conversations
       (ChatStore.updateMessage now' cid newId (content_only c)
          (ChatStore.addMessage newId stamp now cid msg s)))
  = Some (mkConversation (conv_id conv)
            (messages conv
             ++ [mkMessage newId (new_role msg) c (new_sources msg) stamp])
            (createdAt conv) now').
Proof.
  intros Hc Hfresh. rewrite (addMessage_known _ _ _ _ _ _ _ Hc).
  erewrite updateMessage_known by (simpl; apply get_set_eq). simpl.
  rewrite get_set_eq. do 2 f_equal.
  rewrite map_app, touch_unknown by done. simpl. f_equal.
  unfold touch. simpl. by rewrite bool_decide_eq_true_2.
Qed.

Lemma X3_add_then_update_witness :
  JsMap.get (js "c1")
    (conversations
       (ChatStore.updateMessage 32 (js "c1") (js "m3") (content_only (js "Hi"))
          (ChatStore.addMessage (js "m3") 30 31 (js "c1")
             (mkNewMessage assistant [] None) Sample.store)))
  = Some (mkConversation (js "c1")
            [Sample.m1; Sample.m2; mkMessage (js "m3") assistant (js "Hi") None 30]
            10 32).
Proof.
  apply (X3_add_then_update (js "m3") 30 31 32 (js "c1")
           (mkNewMessage assistant [] None) (js "Hi") Sample.store Sample.c1).
  - reflexivity.
  - repeat constructor; discriminate.
Defined.

Lemma get_fold_set (convs : list Conversation) (m : JsMap.t Conversation)
    (k : jsstring) :
  JsMap.get k (fold_left (fun m conv => JsMap.set (conv_id conv) conv m) convs m)
  = match last (filter (fun conv => conv_id conv = k) convs) with
    | Some conv => Some conv
    | None => JsMap.get k m
    end.
Proof.
  revert m. induction convs as [|conv convs IH]; intros m; simpl; [done|].
  rewrite IH. rewrite filter_cons.
  destruct (decide (conv_id conv = k)) as [Hk|Hk].
  - rewrite last_cons. destruct (last _); [done|]. subst k. apply get_set_eq.
  - destruct (last _); [done|]. by apply get_set_ne.
Qed.

(** X4: after [loadConversations] the store answers, for every id, with the
    last conversation of the batch that has this id, and with what it had
    before when the batch has none; the active id, the loading flag and the
    error are untouched.  [loadConversation] does the same for one
    conversation and makes it the active one. *)
Theorem X4_loadConversations (convs : list Conversation) (conv : Conversation)
    (s : ChatState) (k : jsstring) :
  JsMap.get k (conversations (ChatStore.loadConversations convs s))
  = match last (filter (fun c => conv_id c = k) convs) with
    | Some c => Some c
    | None => JsMap.get k (conversations s)
    end
  /\ currentConversationId (ChatStore.loadConversations convs s)
     = currentConversationId s
  /\ isLoading (ChatStore.loadConversations convs s) = isLoading s
  /\ error (ChatStore.loadConversations convs s) = error s
  /\ JsMap.get (conv_id conv) (conversations (ChatStore.loadConversation conv s))
     = Some conv
  /\ currentConversationId (ChatStore.loadConversation conv s)
     = Some (conv_id conv)
  /\ conversations (ChatStore.loadConversation conv s)
     = conversations (ChatStore.loadConversations [conv] s).
Proof.
  repeat split; simpl; [apply get_fold_set | apply get_set_eq].
Qed.

(** X5: [deleteConversation] is idempotent; on an id the store does not
    have, and which is not the active one, it returns the state it was given;
    and deleting the conversation just created leaves no conversation active:
    the one that was active before is not made active again. *)
Theorem X5_deleteConversation (cid newId : jsstring) (created updated : Z)
    (s : ChatState) :
  ChatStore.deleteConversation cid (ChatStore.deleteConversation cid s)
  = ChatStore.deleteConversation cid s
  /\ (JsMap.get cid (conversations s) = None ->
      currentConversationId s <> Some cid ->
      ChatStore.deleteConversation cid s = s)
  /\ currentConversationId
       (ChatStore.deleteConversation newId
          (ChatStore.createConversation newId created updated s))
     = None
  /\ (JsMap.get newId (conversations s) = None ->
      conversations
        (ChatStore.deleteConversation newId
           (ChatStore.createConversation newId created updated s))
      = conversations s).
Proof.
  split; [|split; [|split]].
  - unfold ChatStore.deleteConversation. simpl.
    rewrite (delete_absent cid (JsMap.delete cid (conversations s)))
      by apply get_delete_eq.
    f_equal. destruct (bool_decide (currentConversationId s = Some cid)) eqn:E.
    + by rewrite bool_decide_eq_false_2.
    + by rewrite E.
  - intros Hc Hcur. unfold ChatStore.deleteConversation.
    rewrite delete_absent by done.
    rewrite bool_decide_eq_false_2 by done. by destruct s.
  - unfold ChatStore.deleteConversation. simpl.
    by rewrite bool_decide_eq_true_2.
  - intros Hc. simpl. generalize dependent (conversations s).
    intros m. induction m as [|[k v] m IH]; simpl.
    + by rewrite bool_decide_eq_true_2.
    + destruct (bool_decide (k = newId)) eqn:E; [done|]. simpl. rewrite E.
      intros H. by rewrite IH.
Qed.

Lemma X5_deleteConversation_witness :
  ChatStore.deleteConversation (js "c9") Sample.store = Sample.store
  /\ conversations
       (ChatStore.deleteConversation (js "c3")
          (ChatStore.createConversation (js "c3") 30 30 Sample.store))
     = conversations Sample.store.
Proof.
  pose proof (X5_deleteConversation (js "c9") (js "c3") 30 30 Sample.store)
    as (_ & Hnoop & _ & Hback).
  split.
  - apply Hnoop; [reflexivity | discriminate].
  - apply Hback. reflexivity.
Defined.

(** ** The states the store can be in *)

Lemma keys_values_well_keyed (m : JsMap.t Conversation) :
  Forall (fun entry => conv_id (snd entry) = fst entry) m ->
  map conv_id (JsMap.values m) = JsMap.keys m.
Proof.
  induction 1 as [|[k v] m Hk _ IH]; simpl; [done|].
  simpl in Hk. by rewrite Hk, IH.
Qed.

Lemma NoDup_keys_fold_set (convs : list Conversation)
    (m : JsMap.t Conversation) :
  NoDup (JsMap.keys m) ->
  NoDup (JsMap.keys
           (fold_left (fun m conv => JsMap.set (conv_id conv) conv m) convs m)).
Proof.
  revert m. induction convs as [|conv convs IH]; intros m H; simpl; [done|].
  apply IH. by apply NoDup_keys_set.
Qed.

Lemma performChat_NoDup_keys (a : ChatAction) (s : ChatState) :
  NoDup (JsMap.keys (conversations s)) ->
  NoDup (JsMap.keys (conversations (performChat a s))).
Proof.
  intros H. destruct a; simpl; try done.
  - by apply NoDup_keys_set.
  - unfold ChatStore.addMessage.
    destruct (JsMap.get cid (conversations s)); [|done].
    by apply NoDup_keys_set.
  - unfold ChatStore.updateMessage.
    destruct (JsMap.get cid (conversations s)); [|done].
    by apply NoDup_keys_set.
  - by apply NoDup_keys_delete.
  - by apply NoDup_keys_set.
  - by apply NoDup_keys_fold_set.
Qed.

Lemma performChat_well_keyed (a : ChatAction) (s : ChatState) :
  well_keyed s -> well_keyed (performChat a s).
Proof.
  intros H. destruct (well_keyed_actions s H) as (H1 & H2 & H3 & H4 & H5 & H6).
  destruct a; simpl; auto.
Qed.

Lemma insert_sorted_Permutation (c : Conversation) (l : list Conversation) :
  ChatStore.insert_sorted c l ≡ₚ c :: l.
Proof.
  induction l as [|d l IH]; simpl; [done|].
  destruct (updatedAt d <=? updatedAt c); [done|].
  rewrite IH. apply Permutation_swap.
Qed.

Lemma listConversations_Permutation (s : ChatState) :
  ChatStore.listConversations s ≡ₚ JsMap.values (conversations s).
Proof.
  unfold ChatStore.listConversations.
  induction (JsMap.values (conversations s)) as [|c l IH]; simpl; [done|].
  by rewrite insert_sorted_Permutation, IH.
Qed.

Lemma reachable_invariants (s : ChatState) :
  reachable s -> well_keyed s /\ NoDup (JsMap.keys (conversations s)).
Proof.
  induction 1 as [|a s _ [IH1 IH2] _].
  - split; [apply well_keyed_initial | apply NoDup_nil_2].
  - split; [by apply performChat_well_keyed | by apply performChat_NoDup_keys].
Qed.

Lemma listing_ids (s : ChatState) :
  well_keyed s ->
  map conv_id (ChatStore.listConversations s) ≡ₚ JsMap.keys (conversations s).
Proof.
  intros H. rewrite <- (keys_values_well_keyed _ H).
  apply Permutation_map, listConversations_Permutation.
Qed.

(** X6: in every state the store can reach, each conversation is stored
    under its own id, no id is stored twice, and the listing of the sidebar
    shows every stored conversation once: no two of its entries have the same
    id. *)
Theorem X6_store_invariants (s : ChatState) :
  reachable s ->
  well_keyed s
  /\ NoDup (JsMap.keys (conversations s))
  /\ ChatStore.listConversations s ≡ₚ JsMap.values (conversations s)
  /\ NoDup (map conv_id (ChatStore.listConversations s)).
Proof.
  intros H. destruct (reachable_invariants s H) as [Hwf Hnd].
  split; [done|]. split; [done|].
  split; [apply listConversations_Permutation|].
  by rewrite (listing_ids s Hwf).
Qed.

Lemma reachable_actions (actions : list ChatAction) (s : ChatState) :
  reachable s ->
  Forall (fun a => forall s', from_the_interface a s') actions ->
  reachable (foldl (fun s a => performChat a s) s actions).
Proof.
  intros Hs H. revert s Hs.
  induction H as [|a actions Ha _ IH]; intros s Hs; simpl; [done|].
  apply IH. by constructor.
Qed.

Lemma X6_store_invariants_witness :
  NoDup
    (map conv_id
       (ChatStore.listConversations
          (foldl (fun s a => performChat a s) ChatStore.initial
             [CreateConversation (js "c1") 1 1;
              CreateConversation (js "c1") 2 2;
              LoadConversations [Sample.c2; Sample.c1]]))).
Proof.
  apply X6_store_invariants.
  apply reachable_actions; [constructor | repeat constructor].
Defined.

Lemma is_Some_get_fold_set (convs : list Conversation)
    (m : JsMap.t Conversation) (k : jsstring) :
  is_Some (JsMap.get k m) ->
  is_Some (JsMap.get k
             (fold_left (fun m conv => JsMap.set (conv_id conv) conv m) convs m)).
Proof.
  intros H. rewrite get_fold_set. by destruct (last _).
Qed.

Lemma performChat_anchored (a : ChatAction) (s : ChatState) :
  well_keyed s -> from_the_interface a s -> anchored s ->
  anchored (performChat a s).
Proof.
  intros Hwf Ha Hs. unfold anchored in *.
  destruct a; simpl in *; try done.
  - rewrite get_set_eq. eauto.
  - destruct Ha as (conv & Hin & ->).
    apply elem_of_listConversations in Hin as [k Hin].
    unfold well_keyed in Hwf. rewrite Forall_forall in Hwf.
    pose proof (Hwf _ Hin) as Hk. simpl in Hk. rewrite Hk.
    by eapply elem_of_is_Some_get.
  - unfold ChatStore.addMessage.
    destruct (JsMap.get cid (conversations s)); [|done]. simpl.
    destruct (currentConversationId s); [|done]. by apply is_Some_get_set.
  - unfold ChatStore.updateMessage.
    destruct (JsMap.get cid (conversations s)); [|done]. simpl.
    destruct (currentConversationId s); [|done]. by apply is_Some_get_set.
  - destruct (currentConversationId s) as [k|]; [|by rewrite bool_decide_eq_false_2].
    destruct (bool_decide (Some k = Some cid)) eqn:E; [done|].
    apply bool_decide_eq_false_1 in E.
    rewrite get_delete_ne; [done | congruence].
  - rewrite get_set_eq. eauto.
  - destruct (currentConversationId s); [|done]. by apply is_Some_get_fold_set.
Qed.


Lemma reachable_anchored (s : ChatState) : reachable s -> anchored s.
Proof.
  induction 1 as [|a s Hs IH Hi]; [done|].
  apply performChat_anchored; auto. by apply reachable_invariants.
Qed.

Lemma reachable_active (s : ChatState) (cid : jsstring) :
  reachable s -> currentConversationId s = Some cid ->
  exists conv,
    JsMap.get cid (conversations s) = Some conv /\ conv_id conv = cid.
Proof.
  intros H Hcur. pose proof (reachable_anchored s H) as Ha.
  unfold anchored in Ha. rewrite Hcur in Ha. destruct Ha as [conv Hc].
  exists conv. split; [done|].
  eapply well_keyed_get; [|exact Hc]. by apply reachable_invariants.
Qed.

(** X7: in every state the store reaches through the components, the active
    id is [null] or the id of a conversation of the store, stored under that
    id: the message pane and [handleSend] never look up an id that is
    gone. *)
Theorem X7_active_is_stored (s : ChatState) :
  reachable s ->
  currentConversationId s = None
  \/ exists cid conv,
       currentConversationId s = Some cid
       /\ JsMap.get cid (conversations s) = Some conv
       /\ conv_id conv = cid.
Proof.
  intros H. destruct (currentConversationId s) as [cid|] eqn:Hcur; [|by left].
  right. destruct (reachable_active s cid H Hcur) as (conv & Hc & Hid).
  by exists cid, conv.
Qed.

Lemma X7_active_is_stored_witness :
  let s := foldl (fun s a => performChat a s) ChatStore.initial
             [CreateConversation (js "c1") 1 1;
              CreateConversation (js "c2") 2 2;
              DeleteConversation (js "c2")] in
  currentConversationId s = None
  \/ exists cid conv,
       currentConversationId s = Some cid
       /\ JsMap.get cid (conversations s) = Some conv
       /\ conv_id conv = cid.
Proof.
  apply X7_active_is_stored.
  apply reachable_actions; [constructor | repeat constructor].
Defined.

(** X8: the listing of the sidebar is ordered by [updatedAt], the latest
    first, and holds the stored conversations, each as often as the store has
    it. *)
Theorem X8_listing_sorted (s : ChatState) :
  latest_first (ChatStore.listConversations s)
  /\ ChatStore.listConversations s ≡ₚ JsMap.values (conversations s)
  /\ length (ChatStore.listConversations s) = length (conversations s).
Proof.
  split; [apply listConversations_latest_first|].
  split; [apply listConversations_Permutation|].
  rewrite (Permutation_length (listConversations_Permutation s)).
  unfold JsMap.values. apply length_map.
Qed.




(** X10: the preview of a card is never longer than 53 code units; for a
    conversation with messages it is the first 50 code units of the first
    message followed by three dots, and the dots are there even when nothing
    was cut; for a conversation without messages it is the fixed text. *)
Theorem X10_preview (conv : Conversation) :
  (length (preview conv) <= 53)%nat
  /\ (forall first rest,
        messages conv = first :: rest ->
        preview conv = take 50 (content first) ++ js "..."
        /\ ((length (content first) <= 50)%nat ->
            preview conv = content first ++ js "..."))
  /\ (messages conv = [] -> preview conv = js "New conversation").
Proof.
  unfold preview. destruct (messages conv) as [|first rest].
  - split; [simpl; lia|]. split; [done|]. done.
  - split.
    + rewrite length_app.
      pose proof (firstn_le_length 50 (content first)) as Hle.
      change (length (js "...")) with 3%nat. lia.
    + split; [|done]. intros f r H. inversion H; subst. split; [done|].
      intros Hle. by rewrite take_ge.
Qed.

Lemma X10_preview_witness :
  preview Sample.c1 = js "hello..."
  /\ preview Sample.c2 = js "New conversation".
Proof.
  pose proof (X10_preview Sample.c1) as (_ & H1 & _).
  pose proof (X10_preview Sample.c2) as (_ & _ & H2).
  split.
  - apply (H1 Sample.m1 [Sample.m2] eq_refl). simpl. lia.
  - apply H2. reflexivity.
Defined.

(** ** The authentication store *)

Lemma performAuth_consistent (a : AuthAction) (s : AuthState) :
  (isAuthenticated s = true <-> is_Some (accessToken s)) ->
  (is_Some (accessToken s) <-> is_Some (auth_user s)) ->
  (isAuthenticated (performAuth a s) = true
   <-> is_Some (accessToken (performAuth a s)))
  /\ (is_Some (accessToken (performAuth a s))
      <-> is_Some (auth_user (performAuth a s))).
Proof.
  intros H1 H2. destruct a; simpl.
  - split; split; eauto.
  - split; split; try done; intros [? ?]; done.
  - split; [done|]. rewrite H2. destruct (auth_user s); split; eauto;
      intros [? ?]; done.
Qed.

(** X11: whatever actions the authentication store has gone through since
    its initial state, [isAuthenticated] is true exactly when it holds a
    token, and it holds a token exactly when it holds a user; [updateUser]
    never signs anyone in: on a store without user it changes nothing, and it
    never touches the token. *)
Theorem X11_auth_consistent (actions : list AuthAction)
    (updates : UserUpdates) (s : AuthState) :
  let final := foldl (fun s a => performAuth a s) AuthStore.initial actions in
  (isAuthenticated final = true <-> is_Some (accessToken final))
  /\ (is_Some (accessToken final) <-> is_Some (auth_user final))
  /\ (auth_user s = None -> updateUser updates s = s)
  /\ accessToken (updateUser updates s) = accessToken s
  /\ isAuthenticated (updateUser updates s) = isAuthenticated s.
Proof.
  simpl.
  assert (H : forall l,
              (isAuthenticated (foldl (fun s a => performAuth a s)
                                  AuthStore.initial l) = true
               <-> is_Some (accessToken (foldl (fun s a => performAuth a s)
                                           AuthStore.initial l)))
              /\ (is_Some (accessToken (foldl (fun s a => performAuth a s)
                                           AuthStore.initial l))
                  <-> is_Some (auth_user (foldl (fun s a => performAuth a s)
                                            AuthStore.initial l)))).
    { intros l. induction l as [|a l [IH1 IH2]] using rev_ind.
      - simpl. split; split; try done; intros [? ?]; done.
      - rewrite foldl_snoc. by apply performAuth_consistent. }
  destruct (H actions) as [H1 H2].
  split; [exact H1|]. split; [exact H2|].
  split; [|done]. intros Hu. unfold updateUser. rewrite Hu.
  destruct s; simpl in *. by subst.
Qed.

Lemma X11_auth_consistent_witness :
  updateUser (mkUserUpdates None None (Some (Some (js "Ann"))) None)
    AuthStore.initial
  = AuthStore.initial.
Proof.
  apply (X11_auth_consistent []
           (mkUserUpdates None None (Some (Some (js "Ann"))) None)
           AuthStore.initial).
  reflexivity.
Defined.

(** * More of the controller *)

Section MoreExchangeFacts.
Variable P : Platform.

Lemma framed_refl (w : World) : framed w w.
Proof. by repeat split. Qed.

Lemma framed_trans (w1 w2 w3 : World) :
  framed w1 w2 -> framed w2 w3 -> framed w1 w3.
Proof.
  intros (A1 & B1 & C1 & D1 & E1) (A2 & B2 & C2 & D2 & E2).
  repeat split; congruence.
Qed.

Lemma updateMessage_store_frame now (cid mid : jsstring) (u : Updates)
    (s : ChatState) :
  currentConversationId (ChatStore.updateMessage now cid mid u s)
  = currentConversationId s
  /\ JsMap.keys (conversations (ChatStore.updateMessage now cid mid u s))
     = JsMap.keys (conversations s)
  /\ isLoading (ChatStore.updateMessage now cid mid u s) = isLoading s
  /\ error (ChatStore.updateMessage now cid mid u s) = error s.
Proof.
  unfold ChatStore.updateMessage.
  destruct (JsMap.get cid (conversations s)) eqn:Hc; [|done]. simpl.
  repeat split. apply keys_set_known. eauto.
Qed.

Lemma updateMessage_framed (cid mid : jsstring) (u : Updates) (w : World) :
  framed w (snd (updateMessage P cid mid u w)).
Proof.
  destruct (updateMessage_run P cid mid u w)
    as (w' & Hrun & Hchat & Ha & Hr & Hi).
  rewrite Hrun. simpl.
  destruct (updateMessage_store_frame (clock P (clock_reads w)) cid mid u (chat w))
    as (Hc & Hk & _).
  repeat split; auto; by rewrite Hchat.
Qed.

Lemma withLastMessage_framed (cid : jsstring) (k : Message -> M unit)
    (w : World) :
  (forall m w0, framed w0 (snd (k m w0))) ->
  framed w (snd (withLastMessage cid k w)).
Proof.
  intros Hk. unfold withLastMessage, bind, getWorld.
  destruct (JsMap.get cid (conversations (chat w))) as [conv|];
    [|apply framed_refl].
  destruct (last (messages conv)); [apply Hk | apply framed_refl].
Qed.

Lemma onChunk_framed (cid fullContent : jsstring) (chunk : StreamChunk)
    (w : World) :
  framed w (snd (onChunk P cid fullContent chunk w)).
Proof.
  assert (G : forall (u : Updates) (fc : jsstring),
            framed w
              (snd ((withLastMessage cid (fun lastMessage =>
                       if bool_decide (role lastMessage = assistant) then
                         updateMessage P cid (id lastMessage) u
                       else ret tt) ;;; ret fc) w))).
  { intros u fc. unfold bind at 1.
    pose proof (withLastMessage_framed cid
                  (fun lastMessage =>
                     if bool_decide (role lastMessage = assistant) then
                       updateMessage P cid (id lastMessage) u
                     else ret tt) w) as H.
    destruct (withLastMessage _ _ w) as [[[]|e] w']; simpl in *; apply H;
      intros m w0; destruct (bool_decide _);
      (apply updateMessage_framed || apply framed_refl). }
  unfold onChunk.
  destruct chunk as [|ty co an so er]; [apply framed_refl|].
  set (chunk := mkChunk ty co an so er) in *.
  destruct (bool_decide (chunk_type chunk = Some (js "token"))); [apply G|].
  destruct (bool_decide (chunk_type chunk = Some (js "complete"))); [apply G|].
  destruct (bool_decide _); apply framed_refl.
Qed.

Lemma forAwait_framed (cid : jsstring) (stream : list StreamChunk)
    (fullContent : jsstring) (w : World) :
  framed w (snd (forAwait P cid stream fullContent w)).
Proof.
  revert fullContent w.
  induction stream as [|chunk rest IH]; intros fc w; simpl;
    [apply framed_refl|].
  unfold bind. pose proof (onChunk_framed cid fc chunk w) as H.
  destruct (onChunk P cid fc chunk w) as [[fc'|e] w']; simpl in *; [|done].
  eapply framed_trans; [exact H | apply IH].
Qed.

Lemma onError_framed (cid message : jsstring) (w : World) :
  framed w (snd (onError P cid message w)).
Proof.
  unfold onError, setError. erewrite bind_return by reflexivity.
  eapply framed_trans; [|apply withLastMessage_framed].
  - by repeat split.
  - intros m w0. destruct (_ && _);
      [apply updateMessage_framed | apply framed_refl].
Qed.

(** The id [createConversation] returns is the one [generateId] makes. *)
Lemma createConversation_id (w : World) :
  exists w',
    createConversation P w
    = (Return (ChatStore.generateId (clock P (clock_reads w))
                 (random P (random_reads w))), w')
    /\ (exists created updated,
          chat w'
          = ChatStore.createConversation
              (ChatStore.generateId (clock P (clock_reads w))
                 (random P (random_reads w)))
              created updated (chat w))
    /\ auth w' = auth w /\ requests w' = requests w /\ input w' = input w.
Proof.
  unfold createConversation, generateId, bind, readClock, readRandom, ret,
    modifyChat. simpl.
  eexists. split; [reflexivity|]. simpl. eauto 10.
Qed.

Lemma generateId_truthy (now : Z) (suffix : jsstring) :
  JsString.truthy (ChatStore.generateId now suffix) = true.
Proof. reflexivity. Qed.

(** [dispatch], with the conversation it resolves. *)
Lemma dispatch_resolves (w : World) :
  exists cid s0 id1 st1 n1 id2 st2 n2 w1,
    dispatch P w = (Return (JsString.trim (input w), cid), w1)
    /\ chat w1
       = dispatched cid (JsString.trim (input w)) id1 st1 n1 id2 st2 n2 s0
    /\ auth w1 = auth w /\ requests w1 = requests w /\ input w1 = []
    /\ JsString.truthy cid = true
    /\ ((currentConversationId (chat w) = Some cid /\ s0 = chat w)
        \/ ((currentConversationId (chat w) = None
             \/ currentConversationId (chat w) = Some [])
            /\ exists created updated,
                 s0 = ChatStore.createConversation cid created updated
                        (chat w))).
Proof.
  unfold dispatch.
  rewrite (bind_return getWorld _ w w w eq_refl).
  erewrite bind_return by reflexivity.
  set (wa := mkWorld (chat w) (auth w) [] (requests w) (clock_reads w)
               (random_reads w)).
  assert (Hres : exists cid s0 wb,
            match currentConversationId (chat w) with
            | Some cid =>
                if JsString.truthy cid then ret cid else createConversation P
            | None => createConversation P
            end wa = (Return cid, wb)
            /\ chat wb = s0
            /\ JsString.truthy cid = true
            /\ ((currentConversationId (chat w) = Some cid /\ s0 = chat w)
                \/ ((currentConversationId (chat w) = None
                     \/ currentConversationId (chat w) = Some [])
                    /\ exists created updated,
                         s0 = ChatStore.createConversation cid created updated
                                (chat w)))
            /\ auth wb = auth w /\ requests wb = requests w /\ input wb = []).
  { assert (Hnew : currentConversationId (chat w) = None
                   \/ currentConversationId (chat w) = Some [] ->
              exists cid s0 wb,
                createConversation P wa = (Return cid, wb)
                /\ chat wb = s0
                /\ JsString.truthy cid = true
                /\ ((currentConversationId (chat w) = Some cid /\ s0 = chat w)
                    \/ ((currentConversationId (chat w) = None
                         \/ currentConversationId (chat w) = Some [])
                        /\ exists created updated,
                             s0 = ChatStore.createConversation cid created
                                    updated (chat w)))
                /\ auth wb = auth w /\ requests wb = requests w
                /\ input wb = []).
    { intros Hcur.
      destruct (createConversation_id wa)
        as (wb & Hrun & (c & u & Hchat) & Hauth & Hreq & Hin).
      eexists _, (chat wb), wb. split; [exact Hrun|].
      split; [done|]. split; [apply generateId_truthy|].
      split; [|auto]. right. split; [done|]. rewrite Hchat. eauto. }
    destruct (currentConversationId (chat w)) as [cid|] eqn:Hcur;
      [|apply Hnew; by left].
    destruct cid as [|c cid]; [apply Hnew; by right|].
    exists (c :: cid), (chat w), wa. simpl. repeat split; auto. }
  destruct Hres
    as (cid & s0 & wb & Hrun & Hchat & Htr & Hs0 & Hauth & Hreq & Hinp).
  rewrite (bind_return _ _ _ _ _ Hrun).
  destruct (addMessage_run P cid
              (mkNewMessage user (JsString.trim (input w)) None) wb)
    as (id1 & st1 & n1 & wc & Hrun1 & Hchat1 & Hauth1 & Hreq1 & Hinp1).
  rewrite (bind_return _ _ _ _ _ Hrun1).
  erewrite bind_return by reflexivity.
  match goal with
  | |- context [addMessage P cid ?msg ;;; _] =>
      match goal with
      | |- context [bind _ _ ?wd] =>
          destruct (addMessage_run P cid msg wd)
            as (id2 & st2 & n2 & we & Hrun2 & Hchat2 & Hauth2 & Hreq2 & Hinp2)
      end
  end.
  rewrite (bind_return _ _ _ _ _ Hrun2).
  exists cid, s0, id1, st1, n1, id2, st2, n2.
  eexists. split; [reflexivity|]. simpl in *.
  unfold dispatched. rewrite Hchat2, Hchat1, Hchat.
  repeat split; auto; congruence.
Qed.

(** [handleSend] never rejects, and the loading flag is down when it
    returns from an accepted submission. *)
Lemma exchange_returns
    (api : jsstring -> option jsstring -> option jsstring -> M Stream)
    (sourceType : option jsstring) (mc cid : jsstring) (w : World) :
  fst (exchange P api sourceType mc cid w) = Return tt
  /\ isLoading (chat (snd (exchange P api sourceType mc cid w))) = false.
Proof.
  unfold exchange, try_finally, try_catch.
  match goal with
  | |- context [bind ?c ?k w] => destruct (bind c k w) as [[[]|e] w']
  end; simpl; [done|].
  destruct (onError_run P cid e w') as (w'' & -> & _). done.
Qed.
End MoreExchangeFacts.

Section MoreControllerFacts.
Variable P : Platform.

Lemma streamMessage_frame (message : jsstring)
    (sourceType conversationId : option jsstring) (w : World) :
  let w' := snd (streamMessage P message sourceType conversationId w) in
  chat w' = chat w /\ input w' = input w
  /\ clock_reads w' = clock_reads w /\ random_reads w' = random_reads w.
Proof.
  simpl.
  unfold streamMessage, bind, getWorld, fetch, readBody, readText, modifyAuth,
    throw, ret.
  destruct (accessToken (auth w)) as [token|]; [|done].
  destruct (JsString.truthy token); [|done].
  destruct (server P _) as [r|e]; [|done].
  destruct (negb (ok r)).
  - destruct (text_rejected r); [done|]. by destruct (_ || _).
  - by destruct (body r) as [[values rej]|].
Qed.


(** What the [try] statement leaves of the world [api] left. *)
Lemma exchange_framed
    (api : jsstring -> option jsstring -> option jsstring -> M Stream)
    (sourceType : option jsstring) (mc cid : jsstring) (w : World) :
  let wa := snd (api mc sourceType (Some cid) w) in
  let w' := snd (exchange P api sourceType mc cid w) in
  auth w' = auth wa /\ requests w' = requests wa /\ input w' = input wa
  /\ currentConversationId (chat w') = currentConversationId (chat wa)
  /\ JsMap.keys (conversations (chat w')) = JsMap.keys (conversations (chat wa)).
Proof.
  simpl. unfold exchange, try_finally, try_catch, bind.
  destruct (api mc sourceType (Some cid) w) as [[stream|e] wa]; simpl.
  - pose proof (forAwait_framed P cid (events stream) [] wa) as Hf.
    destruct (forAwait P cid (events stream) [] wa) as [[[]|e] wl];
      simpl in Hf.
    + destruct (failure stream) as [e|]; simpl.
      * pose proof (onError_framed P cid e wl) as He.
        destruct (onError_run P cid e wl) as (w2 & Hrun & _).
        rewrite Hrun in *. simpl in *.
        destruct (framed_trans _ _ _ Hf He) as (A & B & C & D & E).
        repeat split; assumption.
      * destruct Hf as (A & B & C & D & E). repeat split; assumption.
    + pose proof (onError_framed P cid e wl) as He.
      destruct (onError_run P cid e wl) as (w2 & Hrun & _).
      rewrite Hrun in *. simpl in *.
      destruct (framed_trans _ _ _ Hf He) as (A & B & C & D & E).
      repeat split; assumption.
  - pose proof (onError_framed P cid e wa) as He.
    destruct (onError_run P cid e wa) as (w2 & Hrun & _).
    rewrite Hrun in *. simpl in *.
    destruct He as (A & B & C & D & E). repeat split; assumption.
Qed.

Lemma trim_nil_input (w : World) :
  JsString.truthy (JsString.trim (input w)) = true -> input w <> [].
Proof. intros H Hin. rewrite Hin in H. discriminate. Qed.

Lemma sendDisabled_false (w : World) :
  sendDisabled w = false <->
  JsString.trim (input w) <> [] /\ isLoading (chat w) = false.
Proof.
  unfold sendDisabled. rewrite orb_false_iff, negb_false_iff.
  destruct (JsString.trim (input w)); simpl; split; intros [H1 H2];
    try done; auto.
Qed.

(** An accepted submission, its two phases taken together. *)
Lemma handleSendWith_phases
    (api : jsstring -> option jsstring -> option jsstring -> M Stream)
    (sourceType : option jsstring) (w : World) :
  sendDisabled w = false ->
  exists cid s0 id1 st1 n1 id2 st2 n2 w1,
    dispatch P w = (Return (JsString.trim (input w), cid), w1)
    /\ handleSendWith P api sourceType w
       = exchange P api sourceType (JsString.trim (input w)) cid w1
    /\ chat w1
       = dispatched cid (JsString.trim (input w)) id1 st1 n1 id2 st2 n2 s0
    /\ auth w1 = auth w /\ requests w1 = requests w /\ input w1 = []
    /\ JsString.truthy cid = true
    /\ currentConversationId (chat w1) = Some cid
    /\ ((currentConversationId (chat w) = Some cid /\ s0 = chat w)
        \/ ((currentConversationId (chat w) = None
             \/ currentConversationId (chat w) = Some [])
            /\ exists created updated,
                 s0 = ChatStore.createConversation cid created updated
                        (chat w))).
Proof.
  intros Hd. apply sendDisabled_false in Hd as [Hin Hl].
  destruct (dispatch_resolves P w)
    as (cid & s0 & id1 & st1 & n1 & id2 & st2 & n2 & w1
        & Hrun & Hchat & Hauth & Hreq & Hinp & Htr & Hs0).
  exists cid, s0, id1, st1, n1, id2, st2, n2, w1.
  split; [done|]. split.
  { rewrite (handleSendWith_accepted P api sourceType w Hin Hl).
    by rewrite (bind_return _ _ _ _ _ Hrun). }
  repeat split; auto.
  rewrite Hchat.
  destruct (dispatched_flags cid (JsString.trim (input w))
              id1 st1 n1 id2 st2 n2 s0) as (_ & _ & Hcur).
  cbv zeta in Hcur. rewrite Hcur.
  by destruct Hs0 as [[Hc ->]|(_ & c & u & ->)].
Qed.

(** X13: [handleSend] never rejects, whatever the client does: every error
    ends in its [catch] block.  And whenever it accepts a submission, the
    loading flag is down when it returns. *)
Theorem X13_handleSend_returns
    (api : jsstring -> option jsstring -> option jsstring -> M Stream)
    (sourceType : option jsstring) (w : World) :
  fst (handleSendWith P api sourceType w) = Return tt
  /\ (sendDisabled w = false ->
      isLoading (chat (snd (handleSendWith P api sourceType w))) = false).
Proof.
  destruct (sendDisabled w) eqn:Hd.
  - split; [|done]. unfold handleSendWith.
    rewrite (bind_return getWorld _ w w w eq_refl).
    unfold sendDisabled in Hd. by rewrite Hd.
  - destruct (handleSendWith_phases api sourceType w Hd)
      as (cid & s0 & id1 & st1 & n1 & id2 & st2 & n2 & w1 & _ & -> & _).
    split; [|intros _]; apply exchange_returns.
Qed.

Lemma handleSend_input (sourceType : option jsstring) (w : World) :
  sendDisabled w = false -> input (snd (handleSend P sourceType w)) = [].
Proof.
  intros Hd. unfold handleSend.
  destruct (handleSendWith_phases (streamMessage P) sourceType w Hd)
    as (cid & s0 & id1 & st1 & n1 & id2 & st2 & n2 & w1
        & _ & -> & _ & _ & _ & Hinp & _).
  destruct (exchange_framed (streamMessage P) sourceType
              (JsString.trim (input w)) cid w1) as (_ & _ & Hi & _).
  rewrite Hi.
  destruct (streamMessage_frame (JsString.trim (input w)) sourceType
              (Some cid) w1) as (_ & Hi' & _).
  by rewrite Hi'.
Qed.

(** X14: the send button is disabled exactly when [handleSend] would do
    nothing: with the button disabled a submission returns the world as it
    was, and with the button enabled it changes it.  So a key press changes
    nothing exactly when it is not a plain Enter (another key, or Enter with
    shift) or the button is disabled. *)
Theorem X14_button_and_guard (sourceType : option jsstring) (w : World)
    (key : jsstring) (shiftKey : bool) :
  (sendDisabled w = true <-> handleSend P sourceType w = (Return tt, w))
  /\ (handleKeyDown P sourceType key shiftKey w = (Return tt, w)
      <-> key <> js "Enter" \/ shiftKey = true \/ sendDisabled w = true).
Proof.
  assert (Hguard : sendDisabled w = true
                   <-> handleSend P sourceType w = (Return tt, w)).
  { split.
    - intros Hd. unfold handleSend, handleSendWith.
      rewrite (bind_return getWorld _ w w w eq_refl).
      unfold sendDisabled in Hd. by rewrite Hd.
    - intros H. destruct (sendDisabled w) eqn:Hd; [done|]. exfalso.
      pose proof (handleSend_input sourceType w Hd) as Hi.
      rewrite H in Hi. simpl in Hi.
      apply sendDisabled_false in Hd as [Hd _]. apply Hd. by rewrite Hi. }
  split; [exact Hguard|]. unfold handleKeyDown.
  destruct (decide (key = js "Enter")) as [Hk|Hk].
  - rewrite (bool_decide_eq_true_2 _ Hk). destruct shiftKey; simpl.
    + split; auto.
    + rewrite <- Hguard. split; [auto|]. by intros [?|[?|?]].
  - rewrite (bool_decide_eq_false_2 _ Hk). simpl. split; auto.
Qed.


End MoreControllerFacts.

Lemma X13_handleSend_returns_witness :
  isLoading
    (chat (snd (handleSendWith (Demo.platform 500 [])
                  (streamMessage (Demo.platform 500 [])) None
                  (Demo.start Demo.signed_in "Hello"))))
  = false.
Proof.
  apply (X13_handleSend_returns (Demo.platform 500 [])
           (streamMessage (Demo.platform 500 [])) None
           (Demo.start Demo.signed_in "Hello")).
  reflexivity.
Defined.


Section MoreDispatchFacts.
Variable P : Platform.

Lemma dispatched_get (cid mc id1 : jsstring) (st1 n1 : Z)
    (id2 : jsstring) (st2 n2 : Z) (s0 : ChatState) :
  JsMap.get cid (conversations (dispatched cid mc id1 st1 n1 id2 st2 n2 s0))
  = match JsMap.get cid (conversations s0) with
    | Some conv0 =>
        Some (mkConversation (conv_id conv0)
                (messages conv0
                 ++ [mkMessage id1 user mc None st1;
                     mkMessage id2 assistant [] None st2])
                (createdAt conv0) n2)
    | None => None
    end.
Proof.
  unfold dispatched. simpl.
  destruct (JsMap.get cid (conversations s0)) as [conv0|] eqn:Hc.
  - rewrite (addMessage_known id1 _ _ _ _ _ _ Hc).
    erewrite addMessage_known by (simpl; apply get_set_eq).
    simpl. rewrite get_set_eq. by rewrite <- app_assoc.
  - rewrite (addMessage_absent id1) by done.
    by rewrite addMessage_absent.
Qed.

(** X12: what the message list shows once [handleSend] has dispatched a
    submission and awaits the service.  With a stored active conversation it
    is that conversation's thread followed by the user's trimmed text and an
    empty assistant message, with the thinking indicator on; with no active
    conversation it is those two messages alone, in the conversation just
    created.  With an active id the store does not hold, both messages are
    dropped and the list still invites to start a conversation. *)
Theorem X12_thread_after_dispatch (w : World) :
  let s1 := chat (snd (dispatch P w)) in
  let mc := JsString.trim (input w) in
  let active :=
    match currentConversationId (chat w) with
    | Some cid => if JsString.truthy cid then Some cid else None
    | None => None
    end in
  match active with
  | Some cid =>
      match JsMap.get cid (conversations (chat w)) with
      | Some conv0 =>
          exists shown,
            MessageList s1 = Thread shown true
            /\ opens_turn mc (messages conv0) shown
      | None => MessageList s1 = StartNewConversation
      end
  | None =>
      exists shown,
        MessageList s1 = Thread shown true /\ opens_turn mc [] shown
  end.
Proof.
  simpl.
  destruct (dispatch_resolves P w)
    as (cid & s0 & id1 & st1 & n1 & id2 & st2 & n2 & w1
        & Hrun & Hchat & _ & _ & _ & Htr & Hs0).
  rewrite Hrun. simpl. rewrite Hchat.
  destruct (dispatched_flags cid (JsString.trim (input w))
              id1 st1 n1 id2 st2 n2 s0) as (Hl & _ & Hcur).
  cbv zeta in Hl, Hcur.
  pose proof (dispatched_get cid (JsString.trim (input w))
                id1 st1 n1 id2 st2 n2 s0) as Hget.
  assert (Hturn : forall earlier,
            opens_turn (JsString.trim (input w)) earlier
              (earlier
               ++ [mkMessage id1 user (JsString.trim (input w)) None st1;
                   mkMessage id2 assistant [] None st2])).
  { intros earlier. eexists _, _. split; [reflexivity|]. by simpl. }
  unfold MessageList. rewrite Hcur, Hl.
  destruct Hs0 as [[Hc ->]|(Hc & created & updated & ->)].
  - rewrite Hc, Htr, Hget.
    destruct (JsMap.get cid (conversations (chat w))) as [conv0|]; [|done].
    simpl. destruct (messages conv0) as [|m ms] eqn:Hm.
    + eexists. split; [reflexivity|]. apply (Hturn []).
    + eexists. split; [reflexivity|]. apply (Hturn (m :: ms)).
  - assert (Hact : match currentConversationId (chat w) with
                   | Some cid => if JsString.truthy cid then Some cid else None
                   | None => None
                   end = None) by (by destruct Hc as [-> | ->]).
    rewrite Hact. cbn [currentConversationId ChatStore.createConversation].
    rewrite Htr, Hget.
    simpl. rewrite get_set_eq. simpl.
    eexists. split; [reflexivity|]. apply (Hturn []).
Qed.
End MoreDispatchFacts.

Section MoreFailureFacts.
Variable P : Platform.

(** The client touches the credentials on one path only. *)
Lemma streamMessage_auth (message : jsstring)
    (sourceType conversationId : option jsstring) (w : World) :
  let w' := snd (streamMessage P message sourceType conversationId w) in
  auth w' = auth w
  \/ (auth w' = AuthStore.clearAuth (auth w)
      /\ exists req r,
           requests w' = requests w ++ [req]
           /\ server P req = Resolved r
           /\ (status r = 401 \/ status r = 403)).
Proof.
  simpl.
  unfold streamMessage, bind, getWorld, fetch, readBody, readText, modifyAuth,
    throw, ret.
  destruct (accessToken (auth w)) as [token|]; [|by left].
  destruct (JsString.truthy token); [|by left].
  destruct (server P _) as [r|e] eqn:Hs; [|by left].
  destruct (negb (ok r)).
  - destruct (text_rejected r); [by left|].
    destruct (status r =? 403) eqn:H3; simpl.
    + right. split; [done|]. eexists _, r. split; [reflexivity|].
      split; [exact Hs|]. right. lia.
    + destruct (status r =? 401) eqn:H1; simpl; [|by left].
      right. split; [done|]. eexists _, r. split; [reflexivity|].
      split; [exact Hs|]. left. lia.
  - destruct (body r) as [[values rej]|]; by left.
Qed.


(** X16: [handleSend] clears the credentials only after the service has
    answered the request it sent with status 401 or 403; in every other run,
    accepted or not, failed or not, the authentication store is as it
    was. *)
Theorem X16_credentials_cleared_only_when_refused
    (sourceType : option jsstring) (w : World) :
  let w' := snd (handleSend P sourceType w) in
  auth w' = auth w
  \/ (auth w' = mkAuthState None None false
      /\ exists req r,
           requests w' = requests w ++ [req]
           /\ server P req = Resolved r
           /\ (status r = 401 \/ status r = 403)).
Proof.
  simpl. destruct (sendDisabled w) eqn:Hd.
  - left. unfold handleSend, handleSendWith.
    rewrite (bind_return getWorld _ w w w eq_refl).
    unfold sendDisabled in Hd. by rewrite Hd.
  - unfold handleSend.
    destruct (handleSendWith_phases P (streamMessage P) sourceType w Hd)
      as (cid & s0 & id1 & st1 & n1 & id2 & st2 & n2 & w1
          & _ & -> & _ & Hauth & Hreq & _).
    destruct (exchange_framed P (streamMessage P) sourceType
                (JsString.trim (input w)) cid w1) as (Ha & Hr & _).
    rewrite Ha, Hr.
    destruct (streamMessage_auth (JsString.trim (input w)) sourceType
                (Some cid) w1) as [H|(H & req & r & H1 & H2 & H3)].
    + left. by rewrite H.
    + right. rewrite H, H1, Hreq. split; [done|]. eauto.
Qed.


End MoreFailureFacts.



Section ReplayFacts.
Variable P : Platform.

(** One guarded update, on a conversation that ends with the assistant's
    message. *)
Lemma guarded_update_last (cid : jsstring) (u : Updates) (w : World)
    (conv : Conversation) (m : Message) :
  JsMap.get cid (conversations (chat w)) = Some conv ->
  last (messages conv) = Some m ->
  role m = assistant ->
  exists w' conv',
    withLastMessage cid (fun lastMessage =>
      if bool_decide (role lastMessage = assistant) then
        updateMessage P cid (id lastMessage) u
      else ret tt) w
    = (Return tt, w')
    /\ JsMap.get cid (conversations (chat w')) = Some conv'
    /\ last (messages conv') = Some (spread m u)
    /\ error (chat w') = error (chat w)
    /\ isLoading (chat w') = isLoading (chat w).
Proof.
  intros Hc Hl Hr.
  rewrite (withLastMessage_last _ _ _ _ _ Hc Hl), Hr.
  rewrite bool_decide_eq_true_2 by done.
  destruct (updateMessage_run P cid (id m) u w) as (w1 & Hrun & Hchat & _).
  exists w1. rewrite Hchat, (updateMessage_known _ _ _ _ _ _ Hc). simpl.
  rewrite get_set_eq. eexists. split; [exact Hrun|].
  split; [reflexivity|]. simpl. split; [by apply last_touch|]. done.
Qed.

Lemma message_eta (m : Message) :
  role m = assistant ->
  m = mkMessage (id m) assistant (content m) (sources m) (timestamp m).
Proof. destruct m. simpl. by intros ->. Qed.

(** The loop of [handleSend] and [replay] agree on a conversation that ends
    with the assistant's message. *)
Lemma forAwait_replay (cid : jsstring) (stream : list StreamChunk) :
  forall (fullContent : jsstring) (w : World) (conv : Conversation)
         (m : Message),
    JsMap.get cid (conversations (chat w)) = Some conv ->
    last (messages conv) = Some m ->
    role m = assistant ->
    let R :=
      replay (null_TypeError P) stream fullContent (content m) (sources m) in
    exists w' conv',
      forAwait P cid stream fullContent w
      = (match thrown R with
         | Some e => Throw e
         | None => Return tt
         end, w')
      /\ JsMap.get cid (conversations (chat w')) = Some conv'
      /\ last (messages conv')
         = Some (mkMessage (id m) assistant (written R) (attached R)
                   (timestamp m))
      /\ error (chat w') = error (chat w)
      /\ isLoading (chat w') = isLoading (chat w).
Proof.
  induction stream as [|chunk rest IH]; intros fc w conv m Hc Hl Hr;
    cbv zeta.
  - exists w, conv. simpl. split; [done|]. split; [done|].
    split; [|done]. by rewrite Hl, (message_eta m Hr) at 1.
  - change (forAwait P cid (chunk :: rest) fc w)
      with (bind (onChunk P cid fc chunk)
              (fun fc' => forAwait P cid rest fc') w).
    destruct (null_or_value chunk) as [->|Hv].
    { rewrite (bind_throw _ _ _ _ _ (onChunk_null P cid fc w)).
      exists w, conv. simpl. split; [done|]. split; [done|].
      split; [|done]. by rewrite Hl, (message_eta m Hr) at 1. }
    rewrite (replay_value _ _ _ _ _ _ Hv).
    destruct (decide (chunk_type chunk = Some (js "token"))) as [Ht|Ht].
    { rewrite (bool_decide_eq_true_2 _ Ht).
      destruct (guarded_update_last cid
                  (content_only (fc ++ appended (chunk_content chunk)))
                  w conv m Hc Hl Hr)
        as (w1 & conv1 & Hrun & Hc1 & Hl1 & He1 & Hf1).
      erewrite bind_return; cycle 1.
      { rewrite (onChunk_token P cid fc chunk w Ht).
        by rewrite (bind_return _ _ _ _ _ Hrun). }
      destruct (IH (fc ++ appended (chunk_content chunk)) w1 conv1 _ Hc1 Hl1)
        as (w' & conv' & Hrun' & Hc' & Hl' & He' & Hf').
      { simpl. exact Hr. }
      simpl in Hrun', Hl'. exists w', conv'.
      split; [exact Hrun'|]. split; [exact Hc'|]. split; [exact Hl'|].
      split; congruence. }
    rewrite (bool_decide_eq_false_2 _ Ht).
    destruct (decide (chunk_type chunk = Some (js "complete"))) as [Hk|Hk].
    { rewrite (bool_decide_eq_true_2 _ Hk).
      destruct (guarded_update_last cid
                  (content_and_sources
                     (JsString.or_else (chunk_answer chunk) fc)
                     (chunk_sources chunk))
                  w conv m Hc Hl Hr)
        as (w1 & conv1 & Hrun & Hc1 & Hl1 & He1 & Hf1).
      erewrite bind_return; cycle 1.
      { rewrite (onChunk_complete P cid fc chunk w Hk).
        by rewrite (bind_return _ _ _ _ _ Hrun). }
      destruct (IH fc w1 conv1 _ Hc1 Hl1)
        as (w' & conv' & Hrun' & Hc' & Hl' & He' & Hf').
      { simpl. exact Hr. }
      simpl in Hrun', Hl'. exists w', conv'.
      split; [exact Hrun'|]. split; [exact Hc'|]. split; [exact Hl'|].
      split; congruence. }
    rewrite (bool_decide_eq_false_2 _ Hk).
    destruct (decide (chunk_type chunk = Some (js "error"))) as [Hx|Hx].
    { rewrite (bool_decide_eq_true_2 _ Hx).
      erewrite bind_throw; cycle 1.
      { rewrite (onChunk_value P cid fc chunk Hv).
        rewrite (bool_decide_eq_false_2 _ Ht).
        rewrite (bool_decide_eq_false_2 _ Hk).
        rewrite (bool_decide_eq_true_2 _ Hx). reflexivity. }
      exists w, conv. simpl. split; [done|]. split; [done|].
      split; [|done]. by rewrite Hl, (message_eta m Hr) at 1. }
    rewrite (bool_decide_eq_false_2 _ Hx).
    erewrite bind_return; cycle 1.
    { rewrite (onChunk_value P cid fc chunk Hv).
      rewrite (bool_decide_eq_false_2 _ Ht).
      rewrite (bool_decide_eq_false_2 _ Hk).
      rewrite (bool_decide_eq_false_2 _ Hx). reflexivity. }
    apply (IH fc w conv m Hc Hl Hr).
Qed.
End ReplayFacts.

Section SettledFacts.
Variable P : Platform.



(** X19: the streaming loop of [handleSend] is a fold over the events.  On
    a conversation that ends with the assistant's message, [for await] ends
    as [replay] says.  It stops at the first event that is an error event
    or [null], throwing the message of the error event or the [TypeError] of
    reading [null.type], and returns when there is none.  The last message,
    its id, role and timestamp kept, carries the content and sources written
    last before that: tokens accumulate, a completion writes its answer, or
    the accumulated text, and its sources.  Nothing else moves: the
    credentials, the requests, the input, the active id, the conversations
    and their order, the error and the loading flag stay. *)
Theorem X19_loop_is_fold (cid : jsstring) (stream : list StreamChunk)
    (fullContent : jsstring) (w : World) (conv : Conversation) (m : Message) :
  JsMap.get cid (conversations (chat w)) = Some conv ->
  last (messages conv) = Some m ->
  role m = assistant ->
  let R :=
    replay (null_TypeError P) stream fullContent (content m) (sources m) in
  let w' := snd (forAwait P cid stream fullContent w) in
  fst (forAwait P cid stream fullContent w)
  = match thrown R with Some e => Throw e | None => Return tt end
  /\ (exists conv',
        JsMap.get cid (conversations (chat w')) = Some conv'
        /\ last (messages conv')
           = Some (mkMessage (id m) assistant (written R) (attached R)
                     (timestamp m)))
  /\ framed w w'
  /\ error (chat w') = error (chat w)
  /\ isLoading (chat w') = isLoading (chat w).
Proof.
  intros Hc Hl Hr. simpl.
  pose proof (forAwait_framed P cid stream fullContent w) as Hf.
  destruct (forAwait_replay P cid stream fullContent w conv m Hc Hl Hr)
    as (w' & conv' & Hrun & Hc' & Hl' & He & Hld).
  rewrite Hrun in *. simpl in *. eauto 10.
Qed.
End SettledFacts.

Section LoopFacts.
Variable P : Platform.



End LoopFacts.

Section MoreSettledFacts.
Variable P : Platform.


End MoreSettledFacts.

Lemma X19_loop_is_fold_witness :
  fst (forAwait Sample.platform (js "c1")
         [token_event (js "Hi"); error_event None; token_event (js "!")] []
         Sample.world)
  = Throw (js "Unknown error")
  /\ fst (forAwait Sample.platform (js "c1")
            [token_event (js "Hi"); JsonNull; token_event (js "!")] []
            Sample.world)
     = Throw v8_null_TypeError
  /\ exists conv',
       JsMap.get (js "c1")
         (conversations
            (chat (snd (forAwait Sample.platform (js "c1")
                          [token_event (js "Hi"); JsonNull;
                           token_event (js "!")] []
                          Sample.world))))
       = Some conv'
       /\ last (messages conv')
          = Some (mkMessage (js "m2") assistant (js "Hi") None 11).
Proof.
  destruct (X19_loop_is_fold Sample.platform (js "c1")
              [token_event (js "Hi"); error_event None; token_event (js "!")]
              [] Sample.world Sample.c1 Sample.m2)
    as (H1 & _).
  - reflexivity.
  - reflexivity.
  - reflexivity.
  - destruct (X19_loop_is_fold Sample.platform (js "c1")
                [token_event (js "Hi"); JsonNull; token_event (js "!")]
                [] Sample.world Sample.c1 Sample.m2)
      as (H2 & H3 & _).
    + reflexivity.
    + reflexivity.
    + reflexivity.
    + split; [exact H1|]. split; [exact H2 | exact H3].
Defined.


(** The line [data: null] in a stream: the token before it is shown, the
    token after it is not, and the exchange fails with the [TypeError]. *)
Example null_event_run :
  let w := snd (handleSend NullEvent.platform None
                  (Demo.start Demo.signed_in "Hello")) in
  map (fun c => map (fun m => (role m, content m)) (messages c))
      (JsMap.values (conversations (chat w)))
  = [[(user, js "Hello"); (assistant, js "Hi")]]
  /\ error (chat w) = Some v8_null_TypeError
  /\ isLoading (chat w) = false.
Proof. vm_compute. auto. Qed.

Section CutOffFacts.
Variable P : Platform.

(** X21: the first error event ends the loop.  Whatever follows it in the
    stream is never applied: the loop throws, and leaves the world, as if
    the stream had ended with that event. *)
Theorem X21_nothing_after_an_error (cid : jsstring)
    (before after : list StreamChunk) (chunk : StreamChunk)
    (fullContent : jsstring) (w : World) :
  chunk_type chunk = Some (js "error") ->
  forAwait P cid (before ++ chunk :: after) fullContent w
  = forAwait P cid (before ++ [chunk]) fullContent w
  /\ exists e, fst (forAwait P cid (before ++ chunk :: after) fullContent w)
               = Throw e.
Proof.
  intros Hx. revert fullContent w.
  induction before as [|c before IH]; intros fc w.
  - assert (Hrun : onChunk P cid fc chunk w
                   = (Throw (JsString.or_else (chunk_error chunk)
                               (js "Unknown error")), w)).
    { rewrite (onChunk_value P cid fc chunk (typed_value _ _ Hx)), Hx.
      reflexivity. }
    simpl. rewrite !(bind_throw _ _ _ _ _ Hrun). eauto.
  - simpl. unfold bind.
    destruct (onChunk P cid fc c w) as [[fc'|e] w']; [apply IH|eauto].
Qed.
End CutOffFacts.

Lemma X21_nothing_after_an_error_witness :
  forAwait Sample.platform (js "c1")
    ([token_event (js "Hi")] ++ error_event None :: [token_event (js "!")])
    [] Sample.world
  = forAwait Sample.platform (js "c1")
      ([token_event (js "Hi")] ++ [error_event None]) [] Sample.world.
Proof.
  apply (proj1 (X21_nothing_after_an_error Sample.platform (js "c1")
                  [token_event (js "Hi")] [token_event (js "!")]
                  (error_event None) [] Sample.world eq_refl)).
Defined.

Section MoreDecoderFacts.
Variable parse : jsstring -> option StreamChunk.

Lemma run_ascii (bs : list Z) :
  Forall (fun b => 0 <= b < 128) bs -> Utf8.run Utf8.initial bs = bs.
Proof.
  induction 1 as [|b bs Hb Hbs IH]; [reflexivity|].
  by rewrite run_leading_ascii, IH.
Qed.

(** ASCII text is decoded to itself. *)
Lemma decode_ascii_text (bs : list Z) :
  Forall (fun b => 0 <= b < 128) bs -> Utf8.decode bs = bs.
Proof.
  intros H. unfold Utf8.decode. rewrite strip_bom_run, (run_ascii bs H).
  - induction H as [|b bs Hb Hbs IH]; [reflexivity|].
    simpl. by rewrite utf16_ascii, IH.
  - destruct H as [|b bs Hb Hbs]; [by left|]. right. eauto.
Qed.

Lemma split_lf_line (line : jsstring) :
  Forall (fun b => b <> 10) line -> JsString.split_lf line = [line].
Proof.
  induction 1 as [|b line Hb Hl IH]; [reflexivity|].
  simpl. rewrite IH. by destruct (Z.eqb_spec b 10).
Qed.

Lemma split_lf_lines (lines : list jsstring) :
  Forall (Forall (fun b => b <> 10)) lines ->
  JsString.split_lf (flat_map (fun line => line ++ [10]) lines)
  = lines ++ [[]].
Proof.
  induction 1 as [|line lines Hl Hls IH]; [reflexivity|].
  simpl. rewrite <- app_assoc. simpl.
  by rewrite split_lf_app, (split_lf_line line Hl), IH.
Qed.

Lemma lineEvents_data (payload : jsstring) :
  Decoder.lineEvents parse (js "data: " ++ payload)
  = option_list (payloadEvent parse payload).
Proof.
  unfold Decoder.lineEvents, payloadEvent. simpl.
  unfold JsString.slice. simpl.
  destruct (JsString.truthy _); [|done]. by destruct (parse payload).
Qed.

Lemma ascii_only_weaken (bs : list Z) :
  ascii_only bs ->
  Forall (fun b => 0 <= b < 128) bs /\ Forall (fun b => b <> 10) bs.
Proof.
  unfold ascii_only. intros H.
  split; (eapply Forall_impl; [exact H|]); simpl; tauto.
Qed.

(** A buffer of whole ASCII lines yields what its lines yield. *)
Lemma chunkEvents_lines (lines : list jsstring) :
  Forall ascii_only lines ->
  Decoder.chunkEvents parse (flat_map (fun line => line ++ [10]) lines)
  = flat_map (Decoder.lineEvents parse) lines.
Proof.
  intros H. unfold Decoder.chunkEvents, Decoder.textEvents.
  rewrite decode_ascii_text, split_lf_lines.
  - rewrite flat_map_app. simpl. by rewrite app_nil_r.
  - eapply Forall_impl; [exact H|]. intros l Hl.
    by apply ascii_only_weaken.
  - induction H as [|l ls Hl Hls IH]; [constructor|].
    simpl. rewrite !Forall_app. repeat split.
    + by apply ascii_only_weaken.
    + repeat constructor; lia.
    + exact IH.
Qed.

(** X22: the reading loop on ASCII streams cut at line ends.  Each buffer
    holding whole lines, the loop yields, in order, what each line yields by
    itself, however the lines are grouped into buffers; and when the lines
    are [data: ] lines, that is, for each payload that is not blank, what
    [JSON.parse] makes of it, a payload it refuses being skipped. *)
Theorem X22_ascii_streams (groups : list (list jsstring)) :
  Forall (Forall ascii_only) groups ->
  Decoder.readEvents parse
    (map (flat_map (fun line => line ++ [10])) groups)
  = flat_map (Decoder.lineEvents parse) (concat groups)
  /\ Decoder.readEvents parse (map (flat_map event_line) groups)
     = omap (payloadEvent parse) (concat groups).
Proof.
  intros H. split.
  - induction H as [|g gs Hg Hgs IH]; [reflexivity|].
    simpl. unfold Decoder.readEvents in *. simpl.
    by rewrite (chunkEvents_lines g Hg), IH, flat_map_app.
  - induction H as [|g gs Hg Hgs IH]; [reflexivity|].
    simpl. unfold Decoder.readEvents in *. simpl. rewrite IH.
    rewrite omap_app. f_equal.
    replace (flat_map event_line g)
      with (flat_map (fun line => line ++ [10])
              (map (fun payload => js "data: " ++ payload) g)).
    + rewrite chunkEvents_lines.
      * clear. induction g as [|p g IH]; [reflexivity|].
        cbn [map flat_map]. rewrite lineEvents_data, IH. simpl.
        by destruct (payloadEvent parse p).
      * apply Forall_map. eapply Forall_impl; [exact Hg|].
        intros p Hp. apply Forall_app. split; [|exact Hp].
        apply (bool_decide_unpack _). vm_compute. exact I.
    + clear. induction g as [|p g IH]; [reflexivity|].
      cbn [flat_map map]. rewrite IH. unfold event_line.
      by rewrite <- !app_assoc.
Qed.
End MoreDecoderFacts.

Lemma X22_ascii_streams_witness :
  Decoder.readEvents Demo.parse
    (map (flat_map event_line) [[Demo.hi_payload]; [js " "; Demo.done_payload]])
  = omap (payloadEvent Demo.parse)
      [Demo.hi_payload; js " "; Demo.done_payload].
Proof.
  refine (proj2 (X22_ascii_streams Demo.parse
                   [[Demo.hi_payload]; [js " "; Demo.done_payload]] _)).
  apply (bool_decide_unpack _). vm_compute. exact I.
Defined.

Section RestFacts.
Variable B : Backend.

(** The response interceptor touches the credentials only. *)
Lemma intercept_frame {D} (answer : Answer D) (app : App) :
  app_chat (intercept answer app) = app_chat app
  /\ calls (intercept answer app) = calls app
  /\ toasts (intercept answer app) = toasts app
  /\ loadingConversations (intercept answer app) = loadingConversations app
  /\ (app_auth (intercept answer app) = app_auth app
      \/ (app_auth (intercept answer app) = mkAuthState None None false
          /\ exists detail, answer = Refused 401 detail)).
Proof.
  destruct answer as [d|status detail|msg]; simpl; auto 10.
  destruct (Z.eqb_spec status 401) as [->|Hne]; simpl; eauto 10.
Qed.

Lemma fold_intercept_frame {D} (answers : list (Answer D)) (app : App) :
  let app' := fold_left (fun app answer => intercept answer app) answers app in
  app_chat app' = app_chat app
  /\ calls app' = calls app
  /\ toasts app' = toasts app
  /\ loadingConversations app' = loadingConversations app
  /\ (app_auth app' = app_auth app
      \/ (app_auth app' = mkAuthState None None false
          /\ exists detail, Refused 401 detail ∈ answers)).
Proof.
  simpl. revert app.
  induction answers as [|answer answers IH]; intros app; simpl; [auto 10|].
  destruct (IH (intercept answer app)) as (H1 & H2 & H3 & H4 & H5).
  destruct (intercept_frame answer app) as (G1 & G2 & G3 & G4 & G5).
  rewrite H1, H2, H3, H4. repeat split; auto.
  destruct H5 as [H5|(H5 & detail & Hin)].
  - rewrite H5. destruct G5 as [G5|(G5 & detail & ->)]; [by left|].
    right. split; [done|]. exists detail. by left.
  - right. split; [done|]. exists detail. by right.
Qed.

(** One 401 among the answers is enough to end with the credentials
    cleared. *)
Lemma fold_intercept_clears {D} (answers : list (Answer D)) (app : App)
    (detail : option jsstring) :
  Refused 401 detail ∈ answers ->
  app_auth (fold_left (fun app answer => intercept answer app) answers app)
  = mkAuthState None None false.
Proof.
  revert app. induction answers as [|answer answers IH]; intros app Hin.
  - by apply elem_of_nil in Hin.
  - apply elem_of_cons in Hin as [<-|Hin]; [|by apply IH]. simpl.
    destruct (fold_intercept_frame answers
                (onAuth AuthStore.clearAuth app)) as (_ & _ & _ & _ & H).
    by destruct H as [-> | [-> _]].
Qed.

Lemma allFulfilled_Some {D} (answers : list (Answer D)) (datas : list D) :
  allFulfilled answers = Some datas <-> answers = map Fulfilled datas.
Proof.
  revert datas. induction answers as [|answer answers IH]; intros datas.
  - simpl. split.
    + by intros [= <-].
    + by destruct datas.
  - destruct answer as [d|status detail|msg]; simpl.
    + destruct (allFulfilled answers) as [ds|] eqn:Hall.
      * split.
        { intros [= <-]. simpl. f_equal. by apply IH. }
        { destruct datas as [|d' datas]; [done|]. simpl. intros [= -> H].
          apply IH in H. by inversion H. }
      * split; [done|]. destruct datas as [|d' datas]; [done|].
        simpl. intros [= -> H]. apply IH in H. done.
    + split; [done|]. by destruct datas.
    + split; [done|]. by destruct datas.
Qed.

Lemma deleted_listing (cid : jsstring) (s : ChatState) (conv : Conversation) :
  well_keyed s ->
  conv ∈ ChatStore.listConversations (ChatStore.deleteConversation cid s)
  <-> conv ∈ ChatStore.listConversations s /\ conv_id conv <> cid.
Proof.
  intros Hwk. rewrite !elem_of_listConversations. simpl.
  unfold well_keyed in Hwk. rewrite Forall_forall in Hwk. split.
  - intros (k & Hk). apply elem_of_delete in Hk as [Hne Hk].
    split; [by exists k|]. pose proof (Hwk _ Hk) as Hid. simpl in Hid.
    by rewrite Hid.
  - intros [(k & Hk) Hne]. exists k. apply elem_of_delete.
    split; [|done]. pose proof (Hwk _ Hk) as Hid. simpl in Hid.
    by rewrite <- Hid.
Qed.

(** X23: [handleDelete] of the sidebar makes one [DELETE] call, for the
    conversation's path and with the token of the store, and shows one
    toast.  The conversation leaves the local store only when the backend
    has confirmed the deletion: the listing then loses the cards with this
    id and keeps every other.  On a refusal or with no answer the store is
    as it was, and the toast carries the [detail] of the refusal or, failing
    that, the message of the error.  The credentials are cleared on a 401
    and in no other case. *)
Theorem X23_handleDelete (conversationId : jsstring) (app : App) :
  well_keyed (app_chat app) ->
  let call :=
    mkCall DELETE (js "/api/chat/conversations/" ++ conversationId)
      (bearer (app_auth app)) in
  let answer := delete_conversation B call in
  let app' := handleDelete B conversationId app in
  calls app' = calls app ++ [call]
  /\ loadingConversations app' = loadingConversations app
  /\ match answer with
     | Fulfilled _ =>
         (forall conv,
            conv ∈ ChatStore.listConversations (app_chat app')
            <-> conv ∈ ChatStore.listConversations (app_chat app)
                /\ conv_id conv <> conversationId)
         /\ app_chat app'
            = ChatStore.deleteConversation conversationId (app_chat app)
         /\ toasts app'
            = toasts app ++ [ToastSuccess (js "Conversation deleted")]
         /\ app_auth app' = app_auth app
     | Refused status detail =>
         app_chat app' = app_chat app
         /\ toasts app'
            = toasts app
              ++ [ToastError (js "Failed to delete conversation")
                    (JsString.or_else detail
                       (js "Request failed with status code "
                        ++ JsString.of_Z status))]
         /\ app_auth app'
            = (if status =? 401 then mkAuthState None None false
               else app_auth app)
     | Unanswered message =>
         app_chat app' = app_chat app
         /\ toasts app'
            = toasts app
              ++ [ToastError (js "Failed to delete conversation") message]
         /\ app_auth app' = app_auth app
     end.
Proof.
  intros Hwk. simpl. unfold handleDelete, apiClient, conversationPath.
  destruct (delete_conversation B _) as [d|status detail|msg]; simpl.
  - split; [done|]. split; [done|].
    split; [intros conv; by apply deleted_listing|]. done.
  - destruct (status =? 401); simpl; auto.
  - auto.
Qed.

(** X24: [handleLogout] always ends signed out, with the success toast,
    whatever the backend answers: the answer of the logout endpoint is never
    looked at.  The endpoint is called once, with the token, when the store
    has a token, and not at all otherwise; the chat store is not touched. *)
Theorem X24_handleLogout (B' : Backend) (app : App) :
  let app' := handleLogout B app in
  app_auth app' = mkAuthState None None false
  /\ app_chat app' = app_chat app
  /\ toasts app' = toasts app ++ [ToastSuccess (js "Logged out successfully")]
  /\ calls app'
     = calls app
       ++ match bearer (app_auth app) with
          | Some token => [mkCall POST (js "/api/auth/logout") (Some token)]
          | None => []
          end
  /\ handleLogout B' app = app'.
Proof.
  simpl. unfold handleLogout, logout, bearer.
  destruct (accessToken (app_auth app)) as [token|]; simpl.
  - destruct (JsString.truthy token); simpl; repeat split;
      by rewrite ?app_nil_r.
  - repeat split; by rewrite ?app_nil_r.
Qed.

(** X25: [loadConversationsFromBackend] of the chat page is all or nothing.
    Either the chat store is as it was, or the backend has listed the ids,
    fulfilled the request for each of them, and the store has been given the
    whole batch, converted, in the order of the list, in one
    [loadConversations].  Either way the page's loading flag is down at the
    end and no toast is shown.  A 401 clears the credentials: they are
    cleared when the listing is refused with a 401, and when the listing is
    fulfilled and the request for one of the listed conversations is refused
    with a 401; in every other case they are as they were. *)
Theorem X25_loadConversationsFromBackend (Date_parse : jsstring -> Z)
    (app : App) :
  let token := bearer (app_auth app) in
  let listing := mkCall GET (js "/api/chat/conversations") token in
  let request cid :=
    mkCall GET (js "/api/chat/conversations/" ++ cid) token in
  let app' := loadConversationsFromBackend B Date_parse app in
  loadingConversations app' = false
  /\ toasts app' = toasts app
  /\ (forall detail,
        list_conversations B listing = Refused 401 detail ->
        app_auth app' = mkAuthState None None false)
  /\ (forall ids cid detail,
        list_conversations B listing = Fulfilled ids ->
        cid ∈ ids ->
        get_conversation B (request cid) = Refused 401 detail ->
        app_auth app' = mkAuthState None None false)
  /\ (app_auth app' = app_auth app
      \/ (app_auth app' = mkAuthState None None false
          /\ ((exists detail,
                 list_conversations B listing = Refused 401 detail)
              \/ exists ids cid detail,
                   list_conversations B listing = Fulfilled ids
                   /\ cid ∈ ids
                   /\ get_conversation B (request cid)
                      = Refused 401 detail)))
  /\ (app_chat app' = app_chat app
      \/ exists ids fullConversations,
           list_conversations B listing = Fulfilled ids
           /\ map (fun cid => get_conversation B (request cid)) ids
              = map Fulfilled fullConversations
           /\ calls app' = calls app ++ listing :: map request ids
           /\ app_chat app'
              = ChatStore.loadConversations
                  (map (formatConversation Date_parse) fullConversations)
                  (app_chat app)).
Proof.
  cbv zeta. unfold loadConversationsFromBackend, apiClient.
  destruct (list_conversations B _) as [ids|status detail|msg] eqn:Hlist;
    simpl.
  - destruct ids as [|cid0 ids].
    { simpl. split; [done|]. split; [done|]. split; [done|]. split.
      - intros ids cid detail [= <-] Hin. by apply elem_of_nil in Hin.
      - split; by left. }
    set (token := bearer (app_auth app)) in *.
    set (sent := map (fun cid => mkCall GET (conversationPath cid) token)
                   (cid0 :: ids)).
    set (answers := map (get_conversation B) sent).
    match goal with
    | |- context [fold_left ?f answers ?a0] =>
        destruct (fold_intercept_frame answers a0) as (H1 & H2 & H3 & H4 & H5);
        pose proof (fun detail => fold_intercept_clears answers a0 detail)
          as Hclear;
        set (app1 := fold_left f answers a0) in *
    end.
    simpl in H1, H2, H3, H4, H5.
    assert (Hin : forall cid,
              cid ∈ cid0 :: ids ->
              get_conversation B
                (mkCall GET (js "/api/chat/conversations/" ++ cid) token)
              ∈ answers).
    { intros cid Hcid. unfold answers, sent. rewrite map_map.
      apply list_elem_of_fmap. by exists cid. }
    assert (Hall401 : forall ids' cid detail,
              @Fulfilled (list jsstring) (cid0 :: ids) = Fulfilled ids' ->
              cid ∈ ids' ->
              get_conversation B
                (mkCall GET (js "/api/chat/conversations/" ++ cid) token)
              = Refused 401 detail ->
              app_auth app1 = mkAuthState None None false).
    { intros ids' cid detail [= <-] Hcid Hans.
      apply (Hclear detail). rewrite <- Hans. by apply Hin. }
    assert (Hauth : app_auth app1 = app_auth app
                    \/ (app_auth app1 = mkAuthState None None false
                        /\ ((exists detail,
                               @Fulfilled (list jsstring) (cid0 :: ids)
                               = Refused 401 detail)
                            \/ exists ids' cid detail,
                                 @Fulfilled (list jsstring) (cid0 :: ids)
                                 = Fulfilled ids'
                                 /\ cid ∈ ids'
                                 /\ get_conversation B
                                      (mkCall GET
                                         (js "/api/chat/conversations/" ++ cid)
                                         token)
                                    = Refused 401 detail))).
    { destruct H5 as [H5|(H5 & detail & Hd)]; [by left|]. right.
      split; [done|]. right. unfold answers, sent in Hd.
      rewrite map_map in Hd.
      apply list_elem_of_fmap in Hd as (cid & Hans & Hcid).
      exists (cid0 :: ids), cid, detail.
      split; [done|]. split; [done|]. symmetry. exact Hans. }
    destruct (allFulfilled answers) as [fullConversations|] eqn:Hall; simpl.
    + split; [done|]. split; [done|]. split; [done|].
      split; [exact Hall401|]. split; [exact Hauth|]. right.
      exists (cid0 :: ids), fullConversations.
      apply allFulfilled_Some in Hall.
      split; [done|]. split.
      { rewrite <- Hall. unfold answers, sent. by rewrite map_map. }
      split; [|by rewrite H1].
      rewrite H2. unfold sent, conversationPath. simpl.
      by rewrite <- app_assoc.
    + split; [done|]. split; [done|]. split; [done|].
      split; [exact Hall401|]. split; [exact Hauth|]. left. exact H1.
  - destruct (Z.eqb_spec status 401) as [->|Hne]; simpl.
    + split; [done|]. split; [done|]. split; [done|]. split; [done|].
      split; [|by left]. right. split; [done|]. left. by exists detail.
    + split; [done|]. split; [done|]. split.
      { intros detail' [= H _]. done. }
      split; [done|]. split; by left.
  - split; [done|]. split; [done|]. split; [done|]. split; [done|].
    split; by left.
Qed.
End RestFacts.

Lemma X23_handleDelete_witness :
  calls (handleDelete SampleApp.backend (js "c1") SampleApp.app)
  = [mkCall DELETE (js "/api/chat/conversations/c1") (Some (js "tok"))].
Proof.
  refine (proj1 (X23_handleDelete SampleApp.backend (js "c1") SampleApp.app _)).
  repeat constructor.
Defined.

(** ** The components keep the store within its reachable states *)

Section Within.
Variable R : ChatState -> ChatState -> Prop.
Hypothesis R_refl : forall s, R s s.
Hypothesis R_trans : forall s1 s2 s3, R s1 s2 -> R s2 s3 -> R s1 s3.

Lemma within_unchanged {A} (c : M A) :
  (forall w, chat (snd (c w)) = chat w) -> keeps R c.
Proof. intros H w. rewrite H. apply R_refl. Qed.




End Within.

Section ReachableFacts.
Variable P : Platform.












End ReachableFacts.

Section AppStoreFacts.
Variable B : Backend.



End AppStoreFacts.



Section RevisionFacts.
Variable P : Platform.

(** X27: the two revisions of [chatApi.streamMessage] side by side.  The
    first never touches the credentials nor the chat store and always sends
    its request, without an [Authorization] header.  When the store has a
    token and the service gives both requests the same accepted response,
    the two revisions hand the same stream to the controller, and leave the
    same stores; they differ by the header of the request they sent. *)
Theorem X27_revisions (message : jsstring)
    (sourceType conversationId : option jsstring) (w : World)
    (token : jsstring) (r : Response) :
  let old := streamMessage_v1 P message sourceType conversationId w in
  let new := streamMessage P message sourceType conversationId w in
  auth (snd old) = auth w /\ chat (snd old) = chat w
  /\ requests (snd old)
     = requests w ++ [mkRequest None message sourceType conversationId true]
  /\ (accessToken (auth w) = Some token -> token <> [] ->
      server P (mkRequest None message sourceType conversationId true)
      = Resolved r ->
      server P (mkRequest (Some token) message sourceType conversationId true)
      = Resolved r ->
      ok r = true ->
      fst new = fst old
      /\ auth (snd new) = auth (snd old) /\ chat (snd new) = chat (snd old)
      /\ requests (snd new)
         = requests w
           ++ [mkRequest (Some token) message sourceType conversationId true]).
Proof.
  simpl. split; [|split; [|split]].
  - unfold streamMessage_v1, bind, fetch, readBody.
    destruct (server P _) as [r'|e]; [|done].
    by destruct (body r') as [[values rej]|].
  - unfold streamMessage_v1, bind, fetch, readBody.
    destruct (server P _) as [r'|e]; [|done].
    by destruct (body r') as [[values rej]|].
  - apply streamMessage_v1_sends.
  - intros Ht Hne Hold Hnew Hok.
    unfold streamMessage, streamMessage_v1.
    rewrite (bind_return getWorld _ w w w eq_refl), Ht.
    destruct token as [|c token]; [done|]. simpl.
    unfold bind, fetch, readBody, ret, throw. rewrite Hold, Hnew, Hok. simpl.
    by destruct (body r) as [[values rej]|].
Qed.
End RevisionFacts.

Lemma X27_revisions_witness :
  fst (streamMessage (Demo.platform 200 Demo.two_events) (js "Hello") None None
         (Demo.start Demo.signed_in "Hello"))
  = fst (streamMessage_v1 (Demo.platform 200 Demo.two_events) (js "Hello")
           None None (Demo.start Demo.signed_in "Hello")).
Proof.
  refine (proj1 (proj2 (proj2 (proj2
            (X27_revisions (Demo.platform 200 Demo.two_events) (js "Hello")
               None None (Demo.start Demo.signed_in "Hello") (js "tok")
               (mkResponse 200 (Some (Demo.two_events, None))))))
            _ _ _ _ _)); [reflexivity|discriminate|reflexivity..].
Defined.
